(** * Zonal landscape metrics: PD, ED (pdanded.py) and SHDI, LPI, CONTAG
    (shdiandlpi.py)

    A shallow embedding of the two metrics scripts of [src/course] and the
    properties of their per-window computations.

    Conventions of the embedding:
    - a 2-D numpy array of class codes is a list of rows of [Z];
    - Python exceptions are the [Raise] results of an error monad;
    - float64 values are exact numbers (rationals [Qc] where the code only
      counts, multiplies and divides; reals [R] where it takes logarithms)
      extended with the two infinities and nan, so that a division by zero
      yields what numpy yields instead of failing. *)

From Stdlib Require Import Reals Lra QArith Qcanon.
From stdpp Require Import base decidable option list list_numbers numbers sorting gmap strings.

(** ** Python exceptions as an error monad *)

Inductive exn : Type :=
  | ValueError (msg : string)
  | IndexError
  | UnboundLocalError (name : string)
  | TransformNotInvertibleError
  | ZeroDivisionError
  | CollaboratorError (what : string).

Inductive result (A : Type) : Type :=
  | Ok (a : A)
  | Raise (e : exn).
Arguments Ok {A} a.
Arguments Raise {A} e.

#[export] Instance result_ret : MRet result := λ A a, Ok a.
#[export] Instance result_bind : MBind result := λ A B f r,
  match r with Ok a => f a | Raise e => Raise e end.
#[export] Instance result_fmap : FMap result := λ A B f r,
  match r with Ok a => Ok (f a) | Raise e => Raise e end.

(** [for x in l: s = body x s], aborted by the first exception. *)
Fixpoint forM {S A : Type} (l : list A) (s : S) (body : A → S → result S) : result S :=
  match l with
  | [] => Ok s
  | x :: l' => s' ← body x s; forM l' s' body
  end.

(** A list built by one fallible call per element, in order. *)
Fixpoint eachM {A B : Type} (f : A → result B) (l : list A) : result (list B) :=
  match l with
  | [] => Ok []
  | x :: l' => y ← f x; ys ← eachM f l'; Ok (y :: ys)
  end.

(** Python's [range(n)] and [range(lo, hi)]. *)
Definition range (n : nat) : list Z := seqZ 0 (Z.of_nat n).
Definition range2 (lo hi : Z) : list Z := seqZ lo (hi - lo).

(** ** float64 in exact arithmetic *)

(** The carrier of the finite values: what the code needs of a field, with
    the sign of a number computed ([Lt]: negative, [Eq]: zero, [Gt]: positive). *)
Class Carrier (A : Type) : Type := {
  c_zero : A;
  c_add : A → A → A;
  c_mul : A → A → A;
  c_opp : A → A;
  c_div : A → A → A;
  c_sgn : A → comparison;
}.

Definition Qc_sign (q : Qc) : comparison := (Qnum (this q) ?= 0)%Z.

#[export] Instance Qc_carrier : Carrier Qc := {|
  c_zero := 0%Qc; c_add := Qcplus; c_mul := Qcmult; c_opp := Qcopp;
  c_div := Qcdiv; c_sgn := Qc_sign |}.

Definition R_sign (x : R) : comparison :=
  match total_order_T x 0%R with
  | inleft (left _) => Lt
  | inleft (right _) => Eq
  | inright _ => Gt
  end.

#[export] Instance R_carrier : Carrier R := {|
  c_zero := 0%R; c_add := Rplus; c_mul := Rmult; c_opp := Ropp;
  c_div := Rdiv; c_sgn := R_sign |}.

Inductive float (A : Type) : Type :=
  | Fin (x : A)
  | Inf (positive : bool)
  | NaN.
Arguments Fin {A} x.
Arguments Inf {A} positive.
Arguments NaN {A}.

Section FloatOps.
Context {A : Type} `{Carrier A}.

Definition is_pos (s : comparison) : bool :=
  match s with Gt => true | _ => false end.

Definition fl_neg (x : float A) : float A :=
  match x with
  | Fin a => Fin (c_opp a)
  | Inf p => Inf (negb p)
  | NaN => NaN
  end.

Definition fl_add (x y : float A) : float A :=
  match x, y with
  | Fin a, Fin b => Fin (c_add a b)
  | Fin _, Inf p | Inf p, Fin _ => Inf p
  | Inf p, Inf q => if eqb p q then Inf p else NaN
  | _, _ => NaN
  end.

Definition fl_mul (x y : float A) : float A :=
  match x, y with
  | Fin a, Fin b => Fin (c_mul a b)
  | Fin a, Inf p | Inf p, Fin a =>
      match c_sgn a with
      | Eq => NaN
      | s => Inf (eqb p (is_pos s))
      end
  | Inf p, Inf q => Inf (eqb p q)
  | _, _ => NaN
  end.

(** [x / y]: a zero divisor gives nan for [0 / 0] and an infinity of the
    sign of [x] otherwise; no exception. *)
Definition fl_div (x y : float A) : float A :=
  match x, y with
  | Fin a, Fin b =>
      match c_sgn b with
      | Eq => match c_sgn a with
              | Eq => NaN
              | s => Inf (is_pos s)
              end
      | _ => Fin (c_div a b)
      end
  | Fin _, Inf _ => Fin c_zero
  | Inf p, Fin b =>
      match c_sgn b with
      | Lt => Inf (negb p)
      | _ => Inf p
      end
  | _, _ => NaN
  end.

(** [x > 0]; false on nan. *)
Definition fl_gt0 (x : float A) : bool :=
  match x with
  | Fin a => is_pos (c_sgn a)
  | Inf p => p
  | NaN => false
  end.

(** [np.sum] of a float array, from 0. *)
Definition fl_sum (l : list (float A)) : float A :=
  foldl fl_add (Fin c_zero) l.
End FloatOps.

(** [np.log]: minus infinity at 0, nan below. *)
Definition np_log (x : float R) : float R :=
  match x with
  | Fin a =>
      match R_sign a with
      | Gt => Fin (ln a)
      | Eq => Inf false
      | Lt => NaN
      end
  | Inf true => Inf true
  | _ => NaN
  end.

(** The indicator of a decidable proposition. *)
Definition ind (P : Prop) `{Decision P} : nat := if decide P then 1 else 0.

(** An integer count as a float. *)
Definition Qc_of_nat (n : nat) : Qc := Q2Qc (inject_Z (Z.of_nat n)).

(** ** numpy arrays of class codes *)

Module Numpy.

Abbreviation grid := (list (list Z)).

(** [g.shape[0]] and [g.shape[1]]. An array without rows has no columns
    here; numpy may keep a column count for it, but its size is 0 and no
    loop over it runs either way. *)
Definition shape0 (g : grid) : nat := length g.
Definition shape1 (g : grid) : nat := length (default [] (head g)).
(** [g.size] *)
Definition size (g : grid) : nat := shape0 g * shape1 g.
(** The pixels in row-major order ([g.ravel()]). *)
Definition ravel (g : grid) : list Z := mjoin g.

(** Every numpy array is rectangular. *)
Definition rect (g : grid) : Prop := Forall (λ row, length row = shape1 g) g.

(** [l[i]] for an integer index: negative indices count from the end,
    an index out of range raises. *)
Definition getitem {A} (l : list A) (i : Z) : result A :=
  let n := Z.of_nat (length l) in
  let k := if bool_decide (i < 0)%Z then (i + n)%Z else i in
  if bool_decide (0 ≤ k < n)%Z then
    match l !! Z.to_nat k with
    | Some x => Ok x
    | None => Raise IndexError
    end
  else Raise IndexError.

(** [g[i, j]] *)
Definition getitem2 {A} (g : list (list A)) (i j : Z) : result A :=
  row ← getitem g i; getitem row j.

(** One bound of a slice [l[start:stop]]: a negative bound counts from
    the end, and every bound is clipped to the list. *)
Definition slice_bound (n : nat) (i : Z) : nat :=
  let k := if bool_decide (i < 0)%Z then (i + Z.of_nat n)%Z else i in
  Z.to_nat (Z.min (Z.max k 0) (Z.of_nat n)).

(** [l[start:stop]] *)
Definition slice {A} (l : list A) (start stop : Z) : list A :=
  let lo := slice_bound (length l) start in
  let hi := slice_bound (length l) stop in
  take (hi - lo) (drop lo l).

(** [g[r0:r1, c0:c1]] *)
Definition slice2 (g : grid) (r0 r1 c0 c1 : Z) : grid :=
  (λ row, slice row c0 c1) <$> slice g r0 r1.

(** [(g == v).sum()] and [(g != v).sum()] *)
Definition count_eq (g : grid) (v : Z) : nat :=
  length (filter (λ x, x = v) (ravel g)).
Definition count_ne (g : grid) (v : Z) : nat :=
  length (filter (λ x, x ≠ v) (ravel g)).

(** One more occurrence of [x] in a sorted table of values and counts. *)
Fixpoint tally (x : Z) (u : list (Z * nat)) : list (Z * nat) :=
  match u with
  | [] => [(x, 1)]
  | (y, n) :: u' =>
      if bool_decide (x < y)%Z then (x, 1) :: u
      else if bool_decide (x = y) then (y, S n) :: u'
      else (y, n) :: tally x u'
  end.

(** [np.unique(g, return_counts=True)]: the distinct values in ascending
    order, each with its number of occurrences. *)
Definition unique_counts (l : list Z) : list (Z * nat) := foldr tally [] l.
Definition np_unique (g : grid) : list Z * list nat :=
  let u := unique_counts (ravel g) in (u.*1, u.*2).

(** [{cls: idx for idx, cls in enumerate(unique)}] *)
Definition class_index (unique : list Z) : gmap Z nat :=
  foldl (λ d '(idx, cls), <[cls := idx]> d) ∅ (zip (seq 0 (length unique)) unique).

(** [np.zeros((m, m))], the entries being counts. *)
Definition np_zeros (m : nat) : list (list nat) := replicate m (replicate m 0).

(** [M[a, b] += 1] *)
Definition incr (M : list (list nat)) (a b : nat) : result (list (list nat)) :=
  match M !! a with
  | Some row =>
      match row !! b with
      | Some x => Ok (<[a := <[b := S x]> row]> M)
      | None => Raise IndexError
      end
  | None => Raise IndexError
  end.

(** [np.sum(M)] *)
Definition np_sum (M : list (list nat)) : nat := sum_list (sum_list <$> M).

(** The four neighbours, in the order of the source: up, down, left, right. *)
Definition neighbors (i j : Z) : list (Z * Z) :=
  [(i - 1, j); (i + 1, j); (i, j - 1); (i, j + 1)]%Z.

(** [0 <= ni < g.shape[0] and 0 <= nj < g.shape[1]] *)
Definition in_bounds (g : grid) (ni nj : Z) : bool :=
  bool_decide (0 ≤ ni < Z.of_nat (shape0 g))%Z && bool_decide (0 ≤ nj < Z.of_nat (shape1 g))%Z.

End Numpy.

(** ** What the two scripts share

    [_load_raster], [_reproject_fishnet] and the windowing of a zone
    (pdanded.py lines 104-127, shdiandlpi.py lines 188-211) are the same text
    in both files. *)

Module Raster.
Import Numpy.

(** The six coefficients of an affine pixel-to-world transform
    ([x = a*col + b*row + c], [y = d*col + e*row + f]). *)
Record Affine : Type := {
  af_a : Qc; af_b : Qc; af_c : Qc;
  af_d : Qc; af_e : Qc; af_f : Qc;
}.

Definition determinant (t : Affine) : Qc :=
  (af_a t * af_e t - af_b t * af_d t)%Qc.

(** [~t], which raises on a degenerate transform. *)
Definition invert (t : Affine) : result Affine :=
  if bool_decide (determinant t = 0%Qc) then Raise TransformNotInvertibleError
  else
    let idet := (1 / determinant t)%Qc in
    let ra := (af_e t * idet)%Qc in
    let rb := (- af_b t * idet)%Qc in
    let rd := (- af_d t * idet)%Qc in
    let re := (af_a t * idet)%Qc in
    Ok {| af_a := ra; af_b := rb; af_c := (- af_c t * ra - af_f t * rb)%Qc;
          af_d := rd; af_e := re; af_f := (- af_c t * rd - af_f t * re)%Qc |}.

(** [t * (x, y)] *)
Definition affine_mul (t : Affine) (p : Qc * Qc) : Qc * Qc :=
  let '(x, y) := p in
  (x * af_a t + y * af_b t + af_c t, x * af_d t + y * af_e t + af_f t)%Qc.

(** [int(x)]: truncation towards zero. *)
Definition int (x : Qc) : Z := (Qnum (this x) ÷ Zpos (Qden (this x)))%Z.

(** An open raster file: the text of its coordinate reference
    ([src.crs.to_string()]), its transform and its first band. *)
Record Dataset : Type := {
  ds_crs : string;
  ds_transform : Affine;
  ds_band1 : grid;
}.

(** The entries of [src.meta] that the scripts read. *)
Record Meta : Type := {
  crs : string;
  transform : Affine;
}.

Definition meta_copy (src : Dataset) : Meta :=
  {| crs := ds_crs src; transform := ds_transform src |}.

(** The bounding box of a zone ([row.geometry.bounds]). *)
Record Bounds : Type := {
  minx : Qc; miny : Qc; maxx : Qc; maxy : Qc;
}.

(** The fishnet table: its coordinate reference and its zones, in order. *)
Record Fishnet : Type := {
  fishnet_crs : string;
  zones : list Bounds;
}.

(** The local variables of [_load_raster]; [None] is an unbound name. *)
Record LoadLocals : Type := {
  l_data : option grid;
  l_meta : option Meta;
}.

Definition read_local {A} (name : string) (v : option A) : result A :=
  match v with
  | Some a => Ok a
  | None => Raise (UnboundLocalError name)
  end.

Section Collaborators.
(** The calls into [rasterio.warp] of the reprojection branch
    ([calculate_default_transform], [reproject]): they raise, or return the
    value bound to [data]. *)
Variable warp_reproject : Dataset → result grid.
(** [GeoDataFrame.to_crs] *)
Variable to_crs : string → Fishnet → Fishnet.

Definition _reproject_fishnet (fishnet_gdf : Fishnet) (target_crs : string) : Fishnet :=
  if bool_decide (fishnet_crs fishnet_gdf ≠ target_crs)
  then to_crs target_crs fishnet_gdf
  else fishnet_gdf.

Definition _load_raster (src : Dataset) : result (grid * Meta) :=
  locals ←
    (if bool_decide (ds_crs src ≠ "EPSG:32649")
     then
       data ← warp_reproject src;
       Ok {| l_data := Some data; l_meta := None |}
     else
       Ok {| l_data := Some (ds_band1 src); l_meta := Some (meta_copy src) |});
  data ← read_local "data" (l_data locals);
  meta ← read_local "meta" (l_meta locals);
  Ok (data, meta).

(** The check of [_calculate_metrics] on what [_load_raster] returned. *)
Definition check_crs (meta : Meta) : result unit :=
  if bool_decide (crs meta ≠ "EPSG:32649")
  then Raise (ValueError ("栅格文件的坐标系不是 EPSG:32649，而是 " +:+ crs meta))
  else Ok ().
End Collaborators.

(** The fractional pixel bounds of a zone:
    [(col_start, row_start, col_end, row_end)], as the exact value of
    [~transform * (x, y)]. The code computes them in float64, so its bounds
    can differ from these in the last digits, and with them the truncation
    and the bounds test of a zone whose exact bounds fall on whole pixels.
    The properties of the zone loop take the bounds as given, or rest only on
    whether the inversion returns. *)
Definition pixel_bounds (meta : Meta) (z : Bounds) : result (Qc * Qc * Qc * Qc) :=
  inv ← invert (transform meta);
  let '(col_start, row_start) := affine_mul inv (minx z, maxy z) in
  inv ← invert (transform meta);
  let '(col_end, row_end) := affine_mul inv (maxx z, miny z) in
  Ok (col_start, row_start, col_end, row_end).

(** The first test of the zone loop. *)
Definition out_of_raster (data : grid) (b : Qc * Qc * Qc * Qc) : bool :=
  let '(col_start, row_start, col_end, row_end) := b in
  bool_decide (col_start < 0)%Qc || bool_decide (row_start < 0)%Qc
  || bool_decide (Qc_of_nat (shape1 data) < col_end)%Qc
  || bool_decide (Qc_of_nat (shape0 data) < row_end)%Qc.

Definition clip (data : grid) (b : Qc * Qc * Qc * Qc) : grid :=
  let '(col_start, row_start, col_end, row_end) := b in
  slice2 data (int row_start) (int row_end) (int col_start) (int col_end).

(** The second test of the zone loop. *)
Definition empty_or_nodata (clipped_data : grid) : bool :=
  bool_decide (size clipped_data = 0) || bool_decide (count_ne clipped_data 255 = 0).

(** The window of a zone: [None] where the loop writes nan and continues. *)
Definition zone_window (data : grid) (meta : Meta) (z : Bounds) : result (option grid) :=
  b ← pixel_bounds meta z;
  if out_of_raster data b then Ok None
  else
    let clipped_data := clip data b in
    if empty_or_nodata clipped_data then Ok None
    else Ok (Some clipped_data).

End Raster.

(** ** pdanded.py: patch density and edge density per class *)

Module PdEd.
Import Numpy Raster.

(** The columns [PD_1 .. PD_6] and [ED_1 .. ED_6] of one zone, keyed by the
    class value. *)
Record Row : Type := {
  PD : gmap Z (float Qc);
  ED : gmap Z (float Qc);
}.

Definition set_PD (c : Z) (v : float Qc) (r : Row) : Row :=
  {| PD := <[c := v]> (PD r); ED := ED r |}.
Definition set_ED (c : Z) (v : float Qc) (r : Row) : Row :=
  {| PD := PD r; ED := <[c := v]> (ED r) |}.

(** The row before the loop writes it. *)
Definition blank_row : Row := {| PD := ∅; ED := ∅ |}.

(** [for class_val in range(1, 7)]: both columns of the class set to nan. *)
Definition nan_row : Row :=
  foldl (λ r class_val, set_ED class_val NaN (set_PD class_val NaN r))
        blank_row (range2 1 7).

Definition patch_density (raster_data : grid) (class_val : Z)
    (cell_area total_area : Qc) : float Qc :=
  let class_area := (Qc_of_nat (count_eq raster_data class_val) * cell_area)%Qc in
  fl_div (Fin class_area) (Fin total_area).

Definition _calculate_edge_length (raster_data : grid) (class_val : Z)
    (res_x res_y : Qc) : result Qc :=
  forM (range (shape0 raster_data)) 0%Qc (λ i edge_length,
    forM (range (shape1 raster_data)) edge_length (λ j edge_length,
      v ← getitem2 raster_data i j;
      if bool_decide (v ≠ class_val) then Ok edge_length
      else
        forM (neighbors i j) edge_length (λ '(ni, nj) edge_length,
          if in_bounds raster_data ni nj then
            w ← getitem2 raster_data ni nj;
            if bool_decide (w ≠ class_val)
            then Ok (edge_length + (if bool_decide (ni = i) then res_x else res_y))%Qc
            else Ok edge_length
          else Ok edge_length))).

(** [x / y] on two Python numbers, as in [edge_length / total_area]: unlike
    the division of numpy in [patch_density], a zero divisor raises. *)
Definition truediv (x y : Qc) : result (float Qc) :=
  if bool_decide (y = 0%Qc) then Raise ZeroDivisionError else Ok (Fin (x / y)%Qc).

(** The body of the zone loop for a valid window (lines 129-141). *)
Definition window_metrics (clipped_data : grid) (res_x res_y : Qc) : result Row :=
  let cell_area := (res_x * res_y)%Qc in
  let total_area := (Qc_of_nat (size clipped_data) * cell_area)%Qc in
  forM (range2 1 7) blank_row (λ class_val row,
    let pd_value := patch_density clipped_data class_val cell_area total_area in
    edge_length ← _calculate_edge_length clipped_data class_val res_x res_y;
    ed_value ← truediv edge_length total_area;
    Ok (set_ED class_val ed_value (set_PD class_val pd_value row))).

(** One iteration of the zone loop. *)
Definition zone_row (data : grid) (meta : Meta) (res_x res_y : Qc) (z : Bounds) : result Row :=
  w ← zone_window data meta z;
  match w with
  | None => Ok nan_row
  | Some clipped_data => window_metrics clipped_data res_x res_y
  end.

Definition Qc_abs (q : Qc) : Qc := if bool_decide (q < 0)%Qc then (- q)%Qc else q.

Section Collaborators.
Variable warp_reproject : Dataset → result grid.
Variable to_crs : string → Fishnet → Fishnet.

Definition _calculate_metrics (src : Dataset) (fishnet_gdf : Fishnet) : result (list Row) :=
  '(data, meta) ← _load_raster warp_reproject src;
  _ ← check_crs meta;
  let fishnet_gdf := _reproject_fishnet to_crs fishnet_gdf (crs meta) in
  let res_x := Qc_abs (af_a (transform meta)) in
  let res_y := Qc_abs (af_e (transform meta)) in
  eachM (zone_row data meta res_x res_y) (zones fishnet_gdf).
End Collaborators.

End PdEd.

(** ** shdiandlpi.py: Shannon diversity, largest patch index, contagion *)

Module ShdiLpi.
Import Numpy Raster.

Record Row : Type := {
  SHDI : float R;
  LPI : float R;
  CONTAG : float R;
}.

Definition nan_row : Row := {| SHDI := NaN; LPI := NaN; CONTAG := NaN |}.

(** [counts / total], element by element. *)
Definition proportions_of (counts : list nat) (total : nat) : list (float R) :=
  (λ n, fl_div (Fin (INR n)) (Fin (INR total))) <$> counts.

Definition _calculate_shdi (raster_data : grid) : float R :=
  let '(unique, counts) := np_unique raster_data in
  let total_pixels := size raster_data in
  let proportions := proportions_of counts total_pixels in
  fl_neg (fl_sum ((λ p, fl_mul p (np_log p)) <$> proportions)).

(** [counts.max()], which raises on an empty array. *)
Definition np_max (counts : list nat) : result nat :=
  match counts with
  | [] => Raise (ValueError "zero-size array to reduction operation maximum which has no identity")
  | _ => Ok (max_list counts)
  end.

Definition _calculate_lpi (raster_data : grid) (total_area : nat) : result (float R) :=
  let '(unique, counts) := np_unique raster_data in
  max_patch_area ← np_max counts;
  Ok (fl_div (Fin (INR max_patch_area)) (Fin (INR total_area))).

(** The scan that fills the adjacency matrix (lines 126-144). *)
Definition adjacency_scan (raster_data : grid) (class_to_index : gmap Z nat) (m : nat)
    : result (list (list nat)) :=
  forM (range (shape0 raster_data)) (np_zeros m) (λ i adjacency_matrix,
    forM (range (shape1 raster_data)) adjacency_matrix (λ j adjacency_matrix,
      current_class ← getitem2 raster_data i j;
      match class_to_index !! current_class with
      | None => Ok adjacency_matrix
      | Some current_index =>
          forM (neighbors i j) adjacency_matrix (λ '(ni, nj) adjacency_matrix,
            if in_bounds raster_data ni nj then
              neighbor_class ← getitem2 raster_data ni nj;
              match class_to_index !! neighbor_class with
              | Some neighbor_index => incr adjacency_matrix current_index neighbor_index
              | None => Ok adjacency_matrix
              end
            else Ok adjacency_matrix)
      end)).

(** The adjacency matrix of a window, as [_calculate_contag] builds it. *)
Definition adjacency_matrix_of (raster_data : grid) : result (list (list nat)) :=
  let '(unique, counts) := np_unique raster_data in
  adjacency_scan raster_data (class_index unique) (length unique).

(** The double sum of [p_ik * ln p_ik] (lines 150-156). *)
Definition contag_sum (m : nat) (proportions : list (float R))
    (adjacency_matrix : list (list nat)) (total_adjacency : nat) : result (float R) :=
  forM (range m) (Fin 0%R) (λ i contag,
    forM (range m) contag (λ k contag,
      if bool_decide (0 < total_adjacency) then
        p_i ← getitem proportions i;
        g_ik ← getitem2 adjacency_matrix i k;
        let p_ik := fl_mul p_i (fl_div (Fin (INR g_ik)) (Fin (INR total_adjacency))) in
        if fl_gt0 p_ik then Ok (fl_add contag (fl_mul p_ik (np_log p_ik)))
        else Ok contag
      else Ok contag)).

(** The divisor [2 * np.log(m)] of the last step. *)
Definition contag_divisor (m : nat) : float R :=
  fl_mul (Fin 2%R) (np_log (Fin (INR m))).

Definition _calculate_contag (raster_data : grid) (total_area : nat) : result (float R) :=
  let '(unique, counts) := np_unique raster_data in
  let m := length unique in
  let class_to_index := class_index unique in
  let proportions := proportions_of counts total_area in
  adjacency_matrix ← adjacency_scan raster_data class_to_index m;
  let total_adjacency := np_sum adjacency_matrix in
  contag ← contag_sum m proportions adjacency_matrix total_adjacency;
  Ok (fl_mul (fl_add (Fin 1%R) (fl_div contag (contag_divisor m))) (Fin 100%R)).

(** The body of the zone loop for a valid window (lines 213-226). *)
Definition window_metrics (clipped_data : grid) : result Row :=
  let total_area := size clipped_data in
  let shdi_value := _calculate_shdi clipped_data in
  lpi_value ← _calculate_lpi clipped_data total_area;
  contag_value ← _calculate_contag clipped_data total_area;
  Ok {| SHDI := shdi_value; LPI := lpi_value; CONTAG := contag_value |}.

(** One iteration of the zone loop. *)
Definition zone_row (data : grid) (meta : Meta) (z : Bounds) : result Row :=
  w ← zone_window data meta z;
  match w with
  | None => Ok nan_row
  | Some clipped_data => window_metrics clipped_data
  end.

Section Collaborators.
Variable warp_reproject : Dataset → result grid.
Variable to_crs : string → Fishnet → Fishnet.

Definition _calculate_metrics (src : Dataset) (fishnet_gdf : Fishnet) : result (list Row) :=
  '(data, meta) ← _load_raster warp_reproject src;
  _ ← check_crs meta;
  let fishnet_gdf := _reproject_fishnet to_crs fishnet_gdf (crs meta) in
  eachM (zone_row data meta) (zones fishnet_gdf).
End Collaborators.

End ShdiLpi.

(** ** The words of the specification

    Definitions that follow the specification's sentences rather than the
    code, for comparison with the code. *)

Module Spec.
Import Numpy Raster.

(** A window is Invalid when its fractional pixel bounds leave the raster... *)
Definition invalid_bounds (data : grid) (b : Qc * Qc * Qc * Qc) : Prop :=
  let '(col_start, row_start, col_end, row_end) := b in
  (col_start < 0)%Qc ∨ (row_start < 0)%Qc
  ∨ (Qc_of_nat (shape1 data) < col_end)%Qc
  ∨ (Qc_of_nat (shape0 data) < row_end)%Qc.

(** ... or when the clipped sub-grid is empty or holds only nodata pixels. *)
Definition invalid_clip (clipped_data : grid) : Prop :=
  size clipped_data = 0 ∨ Forall (λ x, x = 255%Z) (ravel clipped_data).

Definition is_nan {A} (x : float A) : bool :=
  match x with NaN => true | _ => false end.

(** The pixel positions of a window, row by row, and the class code at a
    position. *)
Definition cells (g : grid) : list (Z * Z) :=
  i ← range (shape0 g); (λ j, (i, j)) <$> range (shape1 g).

Definition pixel (g : grid) (p : Z * Z) : Z :=
  default 0%Z (row ← g !! Z.to_nat p.1; row !! Z.to_nat p.2).

(** 4-connected neighbours: in the same row, one column apart
    (horizontal direction), or in the same column, one row apart (vertical
    direction). *)
Definition same_row_neighbor (p q : Z * Z) : Prop :=
  p.1 = q.1 ∧ Z.abs (p.2 - q.2) = 1%Z.
Definition same_col_neighbor (p q : Z * Z) : Prop :=
  p.2 = q.2 ∧ Z.abs (p.1 - q.1) = 1%Z.

#[export] Instance same_row_neighbor_dec p q : Decision (same_row_neighbor p q) :=
  and_dec (decide (p.1 = q.1)) (decide (Z.abs (p.2 - q.2) = 1%Z)).
#[export] Instance same_col_neighbor_dec p q : Decision (same_col_neighbor p q) :=
  and_dec (decide (p.2 = q.2)) (decide (Z.abs (p.1 - q.1) = 1%Z)).

Definition Qc_sum_with {A} (f : A → Qc) (l : list A) : Qc :=
  foldr (λ x acc, (f x + acc)%Qc) 0%Qc l.

(** The pixels of class [c], and the in-window neighbours of a pixel, in one
    direction, whose class is not [c]. *)
Definition pixels_of_class (g : grid) (c : Z) : list (Z * Z) :=
  filter (λ p, pixel g p = c) (cells g).
Definition differing_neighbors (g : grid) (c : Z)
    (adjacent : Z * Z → Z * Z → Prop) `{∀ p q, Decision (adjacent p q)}
    (p : Z * Z) : list (Z * Z) :=
  filter (λ q, adjacent p q ∧ pixel g q ≠ c) (cells g).

(** edgeLength[c]: over every pixel of class [c], one pixel width for each
    differing same-row neighbour and one pixel height for each differing
    same-column neighbour. *)
Definition edge_length (g : grid) (c : Z) (pixel_width pixel_height : Qc) : Qc :=
  Qc_sum_with
    (λ p, pixel_width * Qc_of_nat (length (differing_neighbors g c same_row_neighbor p))
          + pixel_height * Qc_of_nat (length (differing_neighbors g c same_col_neighbor p)))%Qc
    (pixels_of_class g c).

Definition R_sum_with {A} (f : A → R) (l : list A) : R :=
  foldr (λ x acc, (f x + acc)%R) 0%R l.

(** pixel_count[c] among the pixels [px]. *)
Definition occurrences (px : list Z) (c : Z) : nat :=
  length (filter (λ x, x = c) px).

(** [-Σ p ln p] over the classes [classes], [p] being the share of the class
    among the pixels [px]. *)
Definition shannon (classes px : list Z) : R :=
  (- R_sum_with (λ c, let p := INR (occurrences px c) / INR (length px) in p * ln p)
                classes)%R.

(** The pixels that do not carry the nodata sentinel. *)
Definition valid_pixels (g : grid) : list Z := filter (λ x, x ≠ 255%Z) (ravel g).

(** SHDI as the specification states it: the classes are the distinct
    values other than nodata, the shares are taken among the valid pixels. *)
Definition shdi_stated (g : grid) : R :=
  shannon (remove_dups (valid_pixels g)) (valid_pixels g).

(** SHDI with the nodata value as a class of its own: the classes are all
    the distinct pixel values, the shares are taken among all the pixels. *)
Definition shdi_of_all_values (g : grid) : R :=
  shannon (remove_dups (ravel g)) (ravel g).

(** LPI as the specification states it: the largest count among the classes
    other than nodata, over the raw pixel count of the window. *)
Definition lpi_stated (g : grid) : R :=
  (INR (max_list_with (occurrences (ravel g)) (remove_dups (valid_pixels g)))
   / INR (size g))%R.

(** LPI with the nodata value as a class of its own. *)
Definition lpi_of_all_values (g : grid) : R :=
  (INR (max_list_with (occurrences (ravel g)) (remove_dups (ravel g)))
   / INR (size g))%R.

(** Two valid windows with nodata pixels. *)
Definition window_1_nodata : grid := [[1; 255]]%Z.
Definition window_nodata_nodata_1 : grid := [[255; 255; 1]]%Z.

End Spec.

(** ** Closed forms of the loops

    What one iteration of each loop adds, as pure functions of the position;
    the properties below relate the loops to them. *)

Module Loops.
Import Numpy Raster Spec.

(** The neighbour loop of [_calculate_edge_length] at one neighbour. *)
Definition edge_term (g : grid) (c : Z) (res_x res_y : Qc) (i : Z) (n : Z * Z) : Qc :=
  if in_bounds g n.1 n.2 && bool_decide (pixel g n ≠ c)
  then (if bool_decide (n.1 = i) then res_x else res_y)
  else 0%Qc.

(** The column loop of [_calculate_edge_length] at one pixel. *)
Definition edge_pixel (g : grid) (c : Z) (res_x res_y : Qc) (i j : Z) : Qc :=
  if bool_decide (pixel g (i, j) ≠ c) then 0%Qc
  else Qc_sum_with (edge_term g c res_x res_y i) (neighbors i j).

(** The count that a table of values and counts holds for a value. *)
Definition table_count (u : list (Z * nat)) (y : Z) : nat :=
  sum_list_with (λ e, if decide (e.1 = y) then e.2 else 0) u.

(** The index of the class of a pixel in the sorted distinct values of its
    window, and an entry of a matrix of counts. *)
Definition class_of (g : grid) (p : Z * Z) : nat :=
  default 0 (class_index (np_unique g).1 !! pixel g p).

Definition entry (M : list (list nat)) (a b : nat) : nat :=
  default 0 (row ← M !! a; row !! b).

(** An [m] by [m] matrix. *)
Definition square (m : nat) (M : list (list nat)) : Prop :=
  length M = m ∧ Forall (λ row, length row = m) M.

(** What the visit of neighbour [n] from pixel [p] adds to a quantity that
    an increment at [(a, b)] raises by [δ a b]. *)
Definition scan_term (g : grid) (δ : nat → nat → nat) (p n : Z * Z) : nat :=
  if in_bounds g n.1 n.2 then δ (class_of g p) (class_of g n) else 0.

Definition scan_pixel (g : grid) (δ : nat → nat → nat) (i j : Z) : nat :=
  sum_list_with (scan_term g δ (i, j)) (neighbors i j).

(** The row that the class loop of [pdanded.window_metrics] builds from the
    two values of each class. *)
Definition pded_row (pd ed : Z → float Qc) (classes : list Z) : PdEd.Row :=
  foldl (λ row class_val, PdEd.set_ED class_val (ed class_val)
                            (PdEd.set_PD class_val (pd class_val) row))
        PdEd.blank_row classes.

End Loops.

(** ** Concrete inputs

    The windows of the specification's scenarios, a raster over them and
    zones inside and outside of it. *)

Module Examples.
Import Numpy Raster.

(** Four 2 by 2 blocks of the classes 1 to 4. *)
Definition four_blocks : grid :=
  [[1; 1; 2; 2]; [1; 1; 2; 2]; [3; 3; 4; 4]; [3; 3; 4; 4]]%Z.

(** A 3 by 3 window of class 5. *)
Definition all_fives : grid := [[5; 5; 5]; [5; 5; 5]; [5; 5; 5]]%Z.

Definition thirty : Qc := Q2Qc (30 # 1).

(** 30 m pixels, north up, upper left corner at (100, 1000). *)
Definition north_up : Affine :=
  {| af_a := thirty; af_b := 0%Qc; af_c := Q2Qc (100 # 1);
     af_d := 0%Qc; af_e := (- thirty)%Qc; af_f := Q2Qc (1000 # 1) |}.

Definition utm49 : Meta := {| crs := "EPSG:32649"; transform := north_up |}.

(** A zone that starts 15 m west of the raster. *)
Definition zone_west : Bounds :=
  {| minx := Q2Qc (85 # 1); miny := Q2Qc (900 # 1);
     maxx := Q2Qc (160 # 1); maxy := Q2Qc (970 # 1) |}.

(** A zone inside the raster. *)
Definition zone_inside : Bounds :=
  {| minx := Q2Qc (130 # 1); miny := Q2Qc (900 # 1);
     maxx := Q2Qc (205 # 1); maxy := Q2Qc (970 # 1) |}.

Definition raster_utm49 : Dataset :=
  {| ds_crs := "EPSG:32649"; ds_transform := north_up; ds_band1 := four_blocks |}.

Definition raster_wgs84 : Dataset :=
  {| ds_crs := "EPSG:4326"; ds_transform := north_up; ds_band1 := four_blocks |}.

Definition fishnet_two_zones : Fishnet :=
  {| fishnet_crs := "EPSG:32649"; zones := [zone_west; zone_inside] |}.

(** A reprojection that returns the band unchanged, one that raises, and a
    [to_crs] that relabels the fishnet. *)
Definition warp_returns (src : Dataset) : result grid := Ok (ds_band1 src).
Definition warp_raises (src : Dataset) : result grid :=
  Raise (CollaboratorError "rasterio.warp").
Definition relabel (target_crs : string) (f : Fishnet) : Fishnet :=
  {| fishnet_crs := target_crs; zones := zones f |}.

End Examples.

From Stdlib Require Import Qround R_Ifp.
From Stdlib Require Lqa.

(** ** Saving the tables: [_save_results] and [calculate]

    What the two scripts share when they save: the choice of the file name
    from the raster's name and the rounding to four decimals. *)

Module Output.

(** [needle in s] for two strings. *)
Fixpoint contains (needle s : string) : bool :=
  String.prefix needle s
  || match s with
     | EmptyString => false
     | String _ s' => contains needle s'
     end.

(** The [if]/[elif] chain of [_save_results] on the raster's name. *)
Definition suffix_of (raster_name : string) : string :=
  if contains "2020" raster_name then "2020_landcover"
  else if contains "2015" raster_name then "2015_landcover"
  else if contains "2030" raster_name || contains "Simulation" raster_name
       then "2030_prediction"
  else "unknown".

(** [f"fishnet_metrics_{suffix}.shp"] *)
Definition file_name (suffix : string) : string :=
  "fishnet_metrics_" +:+ suffix +:+ ".shp".

(** The nearest integer, ties to the even one. *)
Definition rint_Q (q : Q) : Z :=
  let f := Qfloor q in
  match (q - inject_Z f ?= 1 # 2)%Q with
  | Lt => f
  | Gt => (f + 1)%Z
  | Eq => if Z.even f then f else (f + 1)%Z
  end.

Definition rint_R (x : R) : Z :=
  let f := Int_part x in
  match total_order_T (x - IZR f) (1 / 2) with
  | inleft (left _) => f
  | inright _ => (f + 1)%Z
  | inleft (right _) => if Z.even f then f else (f + 1)%Z
  end.

(** [round(x, 4)] on a finite value. *)
Class Rounding (A : Type) : Type := round4 : A → A.

#[export] Instance Qc_rounding : Rounding Qc := λ q,
  Q2Qc (inject_Z (rint_Q (this q * inject_Z 10000)) * (1 # 10000)).

#[export] Instance R_rounding : Rounding R := λ x,
  (IZR (rint_R (x * 10000)) / 10000)%R.

(** [round(x, 4)] on a float: nan and the infinities are returned as they
    are. *)
Definition fl_round4 {A} `{Rounding A} (x : float A) : float A :=
  match x with
  | Fin a => Fin (round4 a)
  | other => other
  end.

(** What [needle in s] means: [needle] occurs somewhere in [s]. *)
Definition occurs_in (needle s : string) : Prop :=
  ∃ before after : string, s = before +:+ needle +:+ after.

End Output.

Module PdEdOut.
Import Numpy Raster Output.

(** [fishnet_gdf[col].apply(lambda x: round(x, 4))] on every PD and ED
    column. *)
Definition round_row (r : PdEd.Row) : PdEd.Row :=
  {| PdEd.PD := fl_round4 <$> PdEd.PD r; PdEd.ED := fl_round4 <$> PdEd.ED r |}.

Section Collaborators.
Variable warp_reproject : Dataset → result grid.
Variable to_crs : string → Fishnet → Fishnet.
(** [rasterio.open(raster_path)] *)
Variable open_raster : string → Dataset.
(** [os.path.splitext(os.path.basename(raster_path))[0]] *)
Variable raster_name_of : string → string.
(** [os.path.join] *)
Variable path_join : string → string → string.
Variable output_dir : string.

(** The table handed to [to_file] for each output path, the [.shp] of the
    shapefile; a path written again holds the later table. The companion
    files that the driver puts beside the [.shp] are not modelled. *)
Definition _save_results (files : gmap string (list PdEd.Row))
    (fishnet_gdf : list PdEd.Row) (raster_name : string) : gmap string (list PdEd.Row) :=
  let fishnet_gdf := round_row <$> fishnet_gdf in
  let suffix := suffix_of raster_name in
  let output_path := path_join output_dir (file_name suffix) in
  <[output_path := fishnet_gdf]> files.

(** The loop of [calculate]: the files written and how the loop ended. An
    exception leaves the files written before it in place. *)
Fixpoint calculate_from (files : gmap string (list PdEd.Row)) (fishnet_gdf : Fishnet)
    (raster_paths : list string) : gmap string (list PdEd.Row) * result () :=
  match raster_paths with
  | [] => (files, Ok ())
  | raster_path :: rest =>
      let raster_name := raster_name_of raster_path in
      match PdEd._calculate_metrics warp_reproject to_crs (open_raster raster_path) fishnet_gdf with
      | Raise e => (files, Raise e)
      | Ok updated_fishnet_gdf =>
          calculate_from (_save_results files updated_fishnet_gdf raster_name) fishnet_gdf rest
      end
  end.

Definition calculate (files : gmap string (list PdEd.Row)) (fishnet_gdf : Fishnet)
    (raster_paths : list string) : gmap string (list PdEd.Row) * result () :=
  calculate_from files fishnet_gdf raster_paths.
End Collaborators.

End PdEdOut.

Module ShdiLpiOut.
Import Numpy Raster Output.

(** The three columns rounded. *)
Definition round_row (r : ShdiLpi.Row) : ShdiLpi.Row :=
  {| ShdiLpi.SHDI := fl_round4 (ShdiLpi.SHDI r);
     ShdiLpi.LPI := fl_round4 (ShdiLpi.LPI r);
     ShdiLpi.CONTAG := fl_round4 (ShdiLpi.CONTAG r) |}.

Section Collaborators.
Variable warp_reproject : Dataset → result grid.
Variable to_crs : string → Fishnet → Fishnet.
Variable open_raster : string → Dataset.
Variable raster_name_of : string → string.
Variable path_join : string → string → string.
Variable output_dir : string.

Definition _save_results (files : gmap string (list ShdiLpi.Row))
    (fishnet_gdf : list ShdiLpi.Row) (raster_name : string)
    : gmap string (list ShdiLpi.Row) :=
  let fishnet_gdf := round_row <$> fishnet_gdf in
  let suffix := suffix_of raster_name in
  let output_path := path_join output_dir (file_name suffix) in
  <[output_path := fishnet_gdf]> files.

Fixpoint calculate_from (files : gmap string (list ShdiLpi.Row)) (fishnet_gdf : Fishnet)
    (raster_paths : list string) : gmap string (list ShdiLpi.Row) * result () :=
  match raster_paths with
  | [] => (files, Ok ())
  | raster_path :: rest =>
      let raster_name := raster_name_of raster_path in
      match ShdiLpi._calculate_metrics warp_reproject to_crs (open_raster raster_path) fishnet_gdf with
      | Raise e => (files, Raise e)
      | Ok updated_fishnet_gdf =>
          calculate_from (_save_results files updated_fishnet_gdf raster_name) fishnet_gdf rest
      end
  end.

Definition calculate (files : gmap string (list ShdiLpi.Row)) (fishnet_gdf : Fishnet)
    (raster_paths : list string) : gmap string (list ShdiLpi.Row) * result () :=
  calculate_from files fishnet_gdf raster_paths.
End Collaborators.

End ShdiLpiOut.

(** * Properties *)

Import Numpy Raster Spec Loops Examples.

(** ** The error monad *)

Lemma bind_Ok {A B} (f : A → result B) (a : A) : (Ok a ≫= f) = f a.
Proof. reflexivity. Qed.

Lemma bind_Raise {A B} (f : A → result B) (e : exn) : (Raise e ≫= f) = Raise e.
Proof. reflexivity. Qed.

Lemma eachM_cons_Ok {A B} (f : A → result B) (x : A) (l : list A) (y : B) :
  f x = Ok y → eachM f (x :: l) = (cons y) <$> eachM f l.
Proof.
  intros Hx. cbn [eachM]. rewrite Hx, bind_Ok.
  destruct (eachM f l); reflexivity.
Qed.

(** ** Loading a raster *)

Lemma load_raster_match (warp : Dataset → result grid) (src : Dataset) :
  ds_crs src = "EPSG:32649" →
  _load_raster warp src = Ok (ds_band1 src, meta_copy src).
Proof.
  intros Hcrs. unfold _load_raster.
  rewrite bool_decide_eq_false_2 by (intros Hne; apply Hne, Hcrs).
  reflexivity.
Qed.

Lemma load_raster_mismatch (warp : Dataset → result grid) (src : Dataset) :
  ds_crs src ≠ "EPSG:32649" →
  _load_raster warp src =
    match warp src with
    | Ok _ => Raise (UnboundLocalError "meta")
    | Raise e => Raise e
    end.
Proof.
  intros Hcrs. unfold _load_raster.
  rewrite bool_decide_eq_true_2 by exact Hcrs.
  destruct (warp src); reflexivity.
Qed.

Lemma check_crs_meta_copy (src : Dataset) :
  ds_crs src = "EPSG:32649" → check_crs (meta_copy src) = Ok ().
Proof.
  intros Hcrs. unfold check_crs, meta_copy. cbn [crs].
  rewrite bool_decide_eq_false_2 by (intros Hne; apply Hne, Hcrs).
  reflexivity.
Qed.

(** C9. Whatever the collaborator does, [_load_raster] returns only for a
    raster already in EPSG:32649, with the metadata of that raster, so the
    check that follows it in [_calculate_metrics] passes; for any other
    raster it raises before returning. Hence both [_calculate_metrics] are
    equal to their text with the check deleted. *)
Theorem crs_check_never_fires
    (warp : Dataset → result grid) (to_crs : string → Fishnet → Fishnet)
    (src : Dataset) (fishnet_gdf : Fishnet) :
  (∀ data meta, _load_raster warp src = Ok (data, meta) →
     ds_crs src = "EPSG:32649" ∧ crs meta = "EPSG:32649" ∧ check_crs meta = Ok ())
  ∧ (ds_crs src ≠ "EPSG:32649" → ∃ e, _load_raster warp src = Raise e)
  ∧ PdEd._calculate_metrics warp to_crs src fishnet_gdf =
      ('(data, meta) ← _load_raster warp src;
       eachM (PdEd.zone_row data meta (PdEd.Qc_abs (af_a (transform meta)))
                            (PdEd.Qc_abs (af_e (transform meta))))
             (zones (_reproject_fishnet to_crs fishnet_gdf (crs meta))))
  ∧ ShdiLpi._calculate_metrics warp to_crs src fishnet_gdf =
      ('(data, meta) ← _load_raster warp src;
       eachM (ShdiLpi.zone_row data meta)
             (zones (_reproject_fishnet to_crs fishnet_gdf (crs meta)))).
Proof.
  destruct (decide (ds_crs src = "EPSG:32649")) as [Heq | Hne].
  - pose proof (load_raster_match warp src Heq) as Hload.
    pose proof (check_crs_meta_copy src Heq) as Hchk.
    split; [| split; [| split]].
    + intros data meta Hret. rewrite Hload in Hret.
      injection Hret as <- <-. auto.
    + intros Hne. contradiction.
    + unfold PdEd._calculate_metrics. rewrite Hload, !bind_Ok, Hchk. reflexivity.
    + unfold ShdiLpi._calculate_metrics. rewrite Hload, !bind_Ok, Hchk. reflexivity.
  - pose proof (load_raster_mismatch warp src Hne) as Hload.
    split; [| split; [| split]].
    + intros data meta Hret. rewrite Hload in Hret.
      destruct (warp src); discriminate.
    + intros _. rewrite Hload. destruct (warp src); eauto.
    + unfold PdEd._calculate_metrics. rewrite Hload.
      destruct (warp src); reflexivity.
    + unfold ShdiLpi._calculate_metrics. rewrite Hload.
      destruct (warp src); reflexivity.
Qed.

(** C8 (the code at a mismatched raster). A raster whose reference is not
    EPSG:32649 makes both [_calculate_metrics] fail before any zone is
    processed, but with the error of the attempted reprojection or, when that
    returns, with the unbound name [meta]: never with the [ValueError] that
    names the reference found. *)
Theorem mismatched_raster_fails_on_unbound_meta
    (warp : Dataset → result grid) (to_crs : string → Fishnet → Fishnet)
    (src : Dataset) (fishnet_gdf : Fishnet) :
  ds_crs src ≠ "EPSG:32649" →
  let failure :=
    match warp src with
    | Ok _ => UnboundLocalError "meta"
    | Raise e => e
    end in
  PdEd._calculate_metrics warp to_crs src fishnet_gdf = Raise failure
  ∧ ShdiLpi._calculate_metrics warp to_crs src fishnet_gdf = Raise failure.
Proof.
  intros Hne failure. subst failure.
  pose proof (load_raster_mismatch warp src Hne) as Hload.
  unfold PdEd._calculate_metrics, ShdiLpi._calculate_metrics. rewrite Hload.
  destruct (warp src); split; reflexivity.
Qed.

(** ** Invalid windows *)

Lemma count_ne_all_nodata (g : grid) (v : Z) :
  Forall (λ x, x = v) (ravel g) → count_ne g v = 0.
Proof.
  unfold count_ne. induction 1 as [| x l Hx _ IH]; [reflexivity |].
  rewrite filter_cons_False by (intros Hne; apply Hne, Hx). exact IH.
Qed.

Lemma out_of_raster_true (data : grid) (b : Qc * Qc * Qc * Qc) :
  invalid_bounds data b → out_of_raster data b = true.
Proof.
  destruct b as [[[cs rs] ce] re]. unfold invalid_bounds, out_of_raster.
  intros [H | [H | [H | H]]];
    rewrite (bool_decide_eq_true_2 _ H), ?orb_true_r; reflexivity.
Qed.

Lemma empty_or_nodata_true (clipped_data : grid) :
  invalid_clip clipped_data → empty_or_nodata clipped_data = true.
Proof.
  unfold invalid_clip, empty_or_nodata. intros [H | H].
  - rewrite (bool_decide_eq_true_2 _ H). reflexivity.
  - rewrite (bool_decide_eq_true_2 _ (count_ne_all_nodata _ _ H)).
    apply orb_true_r.
Qed.

Lemma zone_window_invalid (data : grid) (meta : Meta) (z : Bounds) (b : Qc * Qc * Qc * Qc) :
  pixel_bounds meta z = Ok b →
  invalid_bounds data b ∨ invalid_clip (clip data b) →
  zone_window data meta z = Ok None.
Proof.
  intros Hb Hinv. unfold zone_window. rewrite Hb, bind_Ok.
  destruct (out_of_raster data b) eqn:Hout; [reflexivity |].
  destruct Hinv as [Hinv | Hinv].
  - rewrite (out_of_raster_true _ _ Hinv) in Hout. discriminate.
  - rewrite (empty_or_nodata_true _ Hinv). reflexivity.
Qed.

Lemma pded_nan_row_lookup (c : Z) :
  (1 ≤ c ≤ 6)%Z →
  PdEd.PD PdEd.nan_row !! c = Some NaN ∧ PdEd.ED PdEd.nan_row !! c = Some NaN.
Proof.
  intros Hc.
  assert (c = 1 ∨ c = 2 ∨ c = 3 ∨ c = 4 ∨ c = 5 ∨ c = 6)%Z
    as [-> | [-> | [-> | [-> | [-> | ->]]]]] by lia;
    split; vm_compute; reflexivity.
Qed.

Lemma pded_nan_row_all_nan :
  map_Forall (λ _ v, is_nan v = true) (PdEd.PD PdEd.nan_row)
  ∧ map_Forall (λ _ v, is_nan v = true) (PdEd.ED PdEd.nan_row).
Proof.
  split; apply (bool_decide_unpack _); vm_compute; exact I.
Qed.

(** C3. A zone whose fractional pixel bounds leave the raster on any side, or
    whose clipped window is empty or holds only the nodata value 255, gets
    nan in every column of both scripts; the loop iteration returns normally
    and the loop goes on with the remaining zones, whose rows follow the nan
    row. The raster's pixels play no part in the first case: nothing is
    clamped. *)
Theorem invalid_window_gives_nan_row
    (data : grid) (meta : Meta) (res_x res_y : Qc)
    (z : Bounds) (rest : list Bounds) (b : Qc * Qc * Qc * Qc) :
  pixel_bounds meta z = Ok b →
  invalid_bounds data b ∨ invalid_clip (clip data b) →
  (PdEd.zone_row data meta res_x res_y z = Ok PdEd.nan_row
   ∧ (∀ c, (1 ≤ c ≤ 6)%Z →
        PdEd.PD PdEd.nan_row !! c = Some NaN ∧ PdEd.ED PdEd.nan_row !! c = Some NaN)
   ∧ map_Forall (λ _ v, is_nan v = true) (PdEd.PD PdEd.nan_row)
   ∧ map_Forall (λ _ v, is_nan v = true) (PdEd.ED PdEd.nan_row)
   ∧ eachM (PdEd.zone_row data meta res_x res_y) (z :: rest) =
       (cons PdEd.nan_row) <$> eachM (PdEd.zone_row data meta res_x res_y) rest)
  ∧ (ShdiLpi.zone_row data meta z = Ok ShdiLpi.nan_row
     ∧ ShdiLpi.nan_row = {| ShdiLpi.SHDI := NaN; ShdiLpi.LPI := NaN; ShdiLpi.CONTAG := NaN |}
     ∧ eachM (ShdiLpi.zone_row data meta) (z :: rest) =
         (cons ShdiLpi.nan_row) <$> eachM (ShdiLpi.zone_row data meta) rest).
Proof.
  intros Hb Hinv.
  pose proof (zone_window_invalid data meta z b Hb Hinv) as Hwin.
  assert (PdEd.zone_row data meta res_x res_y z = Ok PdEd.nan_row) as Hpd.
  { unfold PdEd.zone_row. rewrite Hwin. reflexivity. }
  assert (ShdiLpi.zone_row data meta z = Ok ShdiLpi.nan_row) as Hsh.
  { unfold ShdiLpi.zone_row. rewrite Hwin. reflexivity. }
  split.
  - split; [exact Hpd |].
    split; [exact pded_nan_row_lookup |].
    split; [apply pded_nan_row_all_nan |].
    split; [apply pded_nan_row_all_nan |].
    apply eachM_cons_Ok, Hpd.
  - split; [exact Hsh |].
    split; [reflexivity |].
    apply eachM_cons_Ok, Hsh.
Qed.

(** ** Loops: what a [for] loop over a list accumulates *)

Section ForLoop.
Context {S A M : Type}.
Variable inv : S → Prop.
Variable measure : S → M.
Variable step : A → M → M.
Variable body : A → S → result S.

Lemma forM_fold (l : list A) :
  (∀ x s, x ∈ l → inv s →
     ∃ s', body x s = Ok s' ∧ inv s' ∧ measure s' = step x (measure s)) →
  ∀ s, inv s →
    ∃ s', forM l s body = Ok s' ∧ inv s'
          ∧ measure s' = foldl (λ m x, step x m) (measure s) l.
Proof.
  induction l as [| x l IH]; intros Hbody s Hs.
  - exists s. auto.
  - destruct (Hbody x s) as (s1 & Hx & Hs1 & Hm1); [left | exact Hs |].
    destruct (IH (λ y t Hy, Hbody y t (list_elem_of_further _ _ _ Hy)) s1 Hs1)
      as (s2 & Hl & Hs2 & Hm2).
    exists s2. cbn [forM foldl]. rewrite Hx, bind_Ok, Hl, Hm2, Hm1. auto.
Qed.
End ForLoop.

Lemma foldl_add_nat {A} (c : A → nat) (l : list A) (m : nat) :
  foldl (λ m x, m + c x) m l = m + sum_list_with c l.
Proof.
  revert m. induction l as [| x l IH]; intros m; cbn [foldl sum_list_with]; [lia |].
  rewrite IH. lia.
Qed.

Lemma foldl_add_Qc {A} (c : A → Qc) (l : list A) (m : Qc) :
  foldl (λ m x, (m + c x)%Qc) m l = (m + Qc_sum_with c l)%Qc.
Proof.
  revert m. induction l as [| x l IH]; intros m; cbn [foldl Qc_sum_with foldr].
  - ring.
  - rewrite IH. unfold Qc_sum_with. ring.
Qed.

(** A counting loop: every iteration succeeds, keeps the invariant and adds
    [c x] to the measure. *)
Lemma forM_count {S A} (inv : S → Prop) (measure : S → nat) (c : A → nat)
    (body : A → S → result S) (l : list A) :
  (∀ x s, x ∈ l → inv s →
     ∃ s', body x s = Ok s' ∧ inv s' ∧ measure s' = measure s + c x) →
  ∀ s, inv s →
    ∃ s', forM l s body = Ok s' ∧ inv s'
          ∧ measure s' = measure s + sum_list_with c l.
Proof.
  intros Hbody s Hs.
  destruct (forM_fold inv measure (λ x m, m + c x) body l Hbody s Hs)
    as (s' & Hrun & Hs' & Hm).
  exists s'. rewrite foldl_add_nat in Hm. auto.
Qed.

Lemma forM_sum_Qc {A} (c : A → Qc) (body : A → Qc → result Qc) (l : list A) :
  (∀ x s, x ∈ l → body x s = Ok (s + c x)%Qc) →
  ∀ s, forM l s body = Ok (s + Qc_sum_with c l)%Qc.
Proof.
  intros Hbody s.
  destruct (forM_fold (λ _ : Qc, True) (λ q : Qc, q) (λ x (m : Qc), (m + c x)%Qc) body l) with (s := s)
    as (s' & Hrun & _ & Hm); [| exact I |].
  - intros x t Hx _. exists (t + c x)%Qc. rewrite (Hbody x t Hx). auto.
  - rewrite Hrun. cbv beta in Hm. rewrite Hm, foldl_add_Qc. reflexivity.
Qed.

(** ** Sums over lists *)

Lemma sum_ext {A} (f g : A → nat) (l : list A) :
  (∀ x, x ∈ l → f x = g x) → sum_list_with f l = sum_list_with g l.
Proof.
  induction l as [| x l IH]; intros Hfg; cbn [sum_list_with]; [reflexivity |].
  rewrite (Hfg x) by left. rewrite IH; [reflexivity |].
  intros y Hy. apply Hfg. right. exact Hy.
Qed.

Lemma sum_plus {A} (f g : A → nat) (l : list A) :
  sum_list_with (λ x, f x + g x) l = sum_list_with f l + sum_list_with g l.
Proof. induction l as [| x l IH]; cbn [sum_list_with]; lia. Qed.

Lemma sum_zero {A} (l : list A) : sum_list_with (λ _, 0) l = 0.
Proof. induction l as [| x l IH]; cbn [sum_list_with]; lia. Qed.

Lemma sum_const {A} (n : nat) (l : list A) : sum_list_with (λ _, n) l = length l * n.
Proof. induction l as [| x l IH]; cbn [sum_list_with length]; lia. Qed.

Lemma sum_fmap {A B} (h : A → B) (f : B → nat) (l : list A) :
  sum_list_with f (h <$> l) = sum_list_with (λ x, f (h x)) l.
Proof. induction l as [| x l IH]; csimpl; [reflexivity | rewrite IH; reflexivity]. Qed.

Lemma sum_bind {A B} (k : A → list B) (f : B → nat) (l : list A) :
  sum_list_with f (l ≫= k) = sum_list_with (λ x, sum_list_with f (k x)) l.
Proof.
  induction l as [| x l IH]; csimpl; [reflexivity |].
  rewrite sum_list_with_app, IH. reflexivity.
Qed.

Lemma length_filter_sum {A} (P : A → Prop) `{∀ x, Decision (P x)} (l : list A) :
  length (filter P l) = sum_list_with (λ x, ind (P x)) l.
Proof.
  induction l as [| x l IH]; [reflexivity |].
  rewrite filter_cons. cbn [sum_list_with]. unfold ind at 1.
  destruct (decide (P x)); cbn [length]; rewrite IH; reflexivity.
Qed.

Lemma range_0 : range 0 = [].
Proof. reflexivity. Qed.

Lemma range_S (n : nat) : range (S n) = range n ++ [Z.of_nat n].
Proof. unfold range. rewrite seqZ_S. reflexivity. Qed.

Lemma elem_of_range (n : nat) (k : Z) : k ∈ range n ↔ (0 ≤ k < Z.of_nat n)%Z.
Proof. unfold range. rewrite elem_of_seqZ. lia. Qed.

Lemma length_range (n : nat) : length (range n) = n.
Proof. unfold range. rewrite length_seqZ. lia. Qed.

(** A sum over [range n] of a function that vanishes off one point. *)
Lemma sum_pick (f : Z → nat) (a : Z) (n : nat) :
  sum_list_with (λ k, if decide (k = a) then f k else 0) (range n)
  = if decide (0 ≤ a < Z.of_nat n)%Z then f a else 0.
Proof.
  induction n as [| n IH].
  - rewrite range_0. cbn [sum_list_with]. case_decide; [lia | reflexivity].
  - rewrite range_S, sum_list_with_app, IH. cbn [sum_list_with].
    repeat case_decide; subst; try lia.
Qed.

(** A sum over [range n] of a function that vanishes off the two points at
    distance one of [a]. *)
Lemma sum_pick_adjacent (f : Z → nat) (a : Z) (n : nat) :
  sum_list_with (λ k, if decide (Z.abs (k - a) = 1)%Z then f k else 0) (range n)
  = (if decide (0 ≤ a - 1 < Z.of_nat n)%Z then f (a - 1)%Z else 0)
    + (if decide (0 ≤ a + 1 < Z.of_nat n)%Z then f (a + 1)%Z else 0).
Proof.
  induction n as [| n IH].
  - rewrite range_0. cbn [sum_list_with]. repeat case_decide; lia.
  - rewrite range_S, sum_list_with_app, IH. cbn [sum_list_with].
    destruct (decide (Z.of_nat n = a - 1)%Z) as [Hl | Hl];
      [| destruct (decide (Z.of_nat n = a + 1)%Z) as [Hr | Hr]].
    + rewrite Hl. repeat case_decide; lia.
    + rewrite Hr. repeat case_decide; lia.
    + repeat case_decide; lia.
Qed.

(** ** Reading a rectangular array *)

Lemma getitem_in_range {A} (l : list A) (i : Z) (x : A) :
  (0 ≤ i)%Z → l !! Z.to_nat i = Some x → getitem l i = Ok x.
Proof.
  intros Hi Hx. unfold getitem.
  pose proof (lookup_lt_Some _ _ _ Hx) as Hlt.
  rewrite (bool_decide_eq_false_2 (i < 0)%Z) by lia.
  rewrite bool_decide_eq_true_2 by lia.
  rewrite Hx. reflexivity.
Qed.

Lemma rect_row (g : grid) (i : nat) (row : list Z) :
  rect g → g !! i = Some row → length row = shape1 g.
Proof.
  intros Hrect Hrow. unfold rect in Hrect.
  rewrite Forall_lookup in Hrect. exact (Hrect i row Hrow).
Qed.

Lemma pixel_lookup (g : grid) (i j : Z) :
  rect g → (0 ≤ i < Z.of_nat (shape0 g))%Z → (0 ≤ j < Z.of_nat (shape1 g))%Z →
  ∃ row, g !! Z.to_nat i = Some row ∧ row !! Z.to_nat j = Some (pixel g (i, j)).
Proof.
  intros Hrect Hi Hj.
  destruct (lookup_lt_is_Some_2 g (Z.to_nat i)) as [row Hrow].
  { unfold shape0 in Hi. lia. }
  pose proof (rect_row g _ row Hrect Hrow) as Hlen.
  destruct (lookup_lt_is_Some_2 row (Z.to_nat j)) as [x Hx]; [lia |].
  exists row. split; [exact Hrow |].
  unfold pixel. cbn [fst snd]. rewrite Hrow. cbn. rewrite Hx. reflexivity.
Qed.

Lemma getitem2_pixel (g : grid) (i j : Z) :
  rect g → (0 ≤ i < Z.of_nat (shape0 g))%Z → (0 ≤ j < Z.of_nat (shape1 g))%Z →
  getitem2 g i j = Ok (pixel g (i, j)).
Proof.
  intros Hrect Hi Hj.
  destruct (pixel_lookup g i j Hrect Hi Hj) as (row & Hrow & Hx).
  unfold getitem2.
  rewrite (getitem_in_range g i row) by (lia || exact Hrow).
  rewrite bind_Ok. apply getitem_in_range; [lia | exact Hx].
Qed.

Lemma in_bounds_spec (g : grid) (ni nj : Z) :
  in_bounds g ni nj = true
  ↔ (0 ≤ ni < Z.of_nat (shape0 g))%Z ∧ (0 ≤ nj < Z.of_nat (shape1 g))%Z.
Proof.
  unfold in_bounds. rewrite andb_true_iff, !bool_decide_eq_true. reflexivity.
Qed.

Lemma pixel_in_ravel (g : grid) (i j : Z) :
  rect g → (0 ≤ i < Z.of_nat (shape0 g))%Z → (0 ≤ j < Z.of_nat (shape1 g))%Z →
  pixel g (i, j) ∈ ravel g.
Proof.
  intros Hrect Hi Hj.
  destruct (pixel_lookup g i j Hrect Hi Hj) as (row & Hrow & Hx).
  unfold ravel. apply list_elem_of_join. exists row.
  split; eapply list_elem_of_lookup_2; eassumption.
Qed.

(** ** The edge length loop *)

Section EdgeLength.
Variable g : grid.
Variable c : Z.
Variables res_x res_y : Qc.
Hypothesis g_rect : rect g.

Lemma edge_neighbor_loop (i j : Z) (s : Qc) :
  forM (neighbors i j) s (λ '(ni, nj) edge_length,
    if in_bounds g ni nj then
      w ← getitem2 g ni nj;
      if bool_decide (w ≠ c)
      then Ok (edge_length + (if bool_decide (ni = i) then res_x else res_y))%Qc
      else Ok edge_length
    else Ok edge_length)
  = Ok (s + Qc_sum_with (edge_term g c res_x res_y i) (neighbors i j))%Qc.
Proof.
  apply forM_sum_Qc. intros [ni nj] t _. unfold edge_term. cbn [fst snd].
  destruct (in_bounds g ni nj) eqn:Hin; cbn [andb].
  - apply in_bounds_spec in Hin as [Hi Hj].
    rewrite (getitem2_pixel g ni nj g_rect Hi Hj), bind_Ok.
    destruct (bool_decide (pixel g (ni, nj) ≠ c)); [reflexivity |].
    f_equal. ring.
  - f_equal. ring.
Qed.

Lemma edge_column_loop (i : Z) (s : Qc) :
  (0 ≤ i < Z.of_nat (shape0 g))%Z →
  forM (range (shape1 g)) s (λ j edge_length,
    v ← getitem2 g i j;
    if bool_decide (v ≠ c) then Ok edge_length
    else
      forM (neighbors i j) edge_length (λ '(ni, nj) edge_length,
        if in_bounds g ni nj then
          w ← getitem2 g ni nj;
          if bool_decide (w ≠ c)
          then Ok (edge_length + (if bool_decide (ni = i) then res_x else res_y))%Qc
          else Ok edge_length
        else Ok edge_length))
  = Ok (s + Qc_sum_with (edge_pixel g c res_x res_y i) (range (shape1 g)))%Qc.
Proof.
  intros Hi. apply forM_sum_Qc. intros j t Hj. apply elem_of_range in Hj.
  rewrite (getitem2_pixel g i j g_rect Hi Hj), bind_Ok. unfold edge_pixel.
  destruct (bool_decide (pixel g (i, j) ≠ c)).
  - f_equal. ring.
  - apply edge_neighbor_loop.
Qed.

Lemma edge_length_loop :
  PdEd._calculate_edge_length g c res_x res_y
  = Ok (Qc_sum_with
          (λ i, Qc_sum_with (edge_pixel g c res_x res_y i) (range (shape1 g)))
          (range (shape0 g))).
Proof.
  unfold PdEd._calculate_edge_length.
  rewrite (forM_sum_Qc
             (λ i, Qc_sum_with (edge_pixel g c res_x res_y i) (range (shape1 g)))).
  - f_equal. ring.
  - intros i t Hi. apply elem_of_range in Hi. apply edge_column_loop, Hi.
Qed.
End EdgeLength.

(** ** Neighbours counted over all the cells of the window *)

Lemma Qc_sum_ext {A} (f h : A → Qc) (l : list A) :
  (∀ x, x ∈ l → f x = h x) → Qc_sum_with f l = Qc_sum_with h l.
Proof.
  induction l as [| x l IH]; intros Hfh; cbn [Qc_sum_with foldr]; [reflexivity |].
  rewrite (Hfh x) by left. f_equal. apply IH.
  intros y Hy. apply Hfh. right. exact Hy.
Qed.

Lemma Qc_sum_app {A} (f : A → Qc) (l k : list A) :
  Qc_sum_with f (l ++ k) = (Qc_sum_with f l + Qc_sum_with f k)%Qc.
Proof.
  induction l as [| x l IH]; cbn [Qc_sum_with foldr app].
  - unfold Qc_sum_with. ring.
  - fold (Qc_sum_with f (l ++ k)). fold (Qc_sum_with f l). rewrite IH. ring.
Qed.

Lemma Qc_sum_fmap {A B} (h : A → B) (f : B → Qc) (l : list A) :
  Qc_sum_with f (h <$> l) = Qc_sum_with (λ x, f (h x)) l.
Proof.
  induction l as [| x l IH]; csimpl; [reflexivity |].
  cbn [Qc_sum_with foldr]. f_equal. exact IH.
Qed.

Lemma Qc_sum_bind {A B} (k : A → list B) (f : B → Qc) (l : list A) :
  Qc_sum_with f (l ≫= k) = Qc_sum_with (λ x, Qc_sum_with f (k x)) l.
Proof.
  induction l as [| x l IH]; csimpl; [reflexivity |].
  rewrite Qc_sum_app, IH. reflexivity.
Qed.

Lemma Qc_sum_filter {A} (P : A → Prop) `{∀ x, Decision (P x)} (f : A → Qc) (l : list A) :
  Qc_sum_with f (filter P l) = Qc_sum_with (λ x, if decide (P x) then f x else 0%Qc) l.
Proof.
  induction l as [| x l IH]; [reflexivity |].
  rewrite filter_cons. cbn [Qc_sum_with foldr].
  destruct (decide (P x)); cbn [Qc_sum_with foldr].
  - f_equal. exact IH.
  - fold (Qc_sum_with f (filter P l)). rewrite IH. unfold Qc_sum_with. ring.
Qed.

Lemma Qc_sum_cells (f : Z * Z → Qc) (g : grid) :
  Qc_sum_with f (cells g)
  = Qc_sum_with (λ i, Qc_sum_with (λ j, f (i, j)) (range (shape1 g))) (range (shape0 g)).
Proof.
  unfold cells. rewrite Qc_sum_bind. apply Qc_sum_ext. intros i _.
  apply Qc_sum_fmap.
Qed.

Lemma sum_cells (f : Z * Z → nat) (g : grid) :
  sum_list_with f (cells g)
  = sum_list_with (λ i, sum_list_with (λ j, f (i, j)) (range (shape1 g))) (range (shape0 g)).
Proof.
  unfold cells. rewrite sum_bind. apply sum_ext. intros i _.
  apply sum_fmap.
Qed.

Lemma Qc_of_nat_plus (a b : nat) : Qc_of_nat (a + b) = (Qc_of_nat a + Qc_of_nat b)%Qc.
Proof.
  unfold Qc_of_nat. apply Qc_is_canon. cbn.
  rewrite !Qred_correct, Nat2Z.inj_add, inject_Z_plus. reflexivity.
Qed.

Section NeighborCounts.
Variable g : grid.
Variable c : Z.

(** The differing same-row neighbours of an in-window pixel are its left and
    right neighbours, where they exist and differ. *)
Lemma count_same_row (i j : Z) :
  (0 ≤ i < Z.of_nat (shape0 g))%Z →
  length (differing_neighbors g c same_row_neighbor (i, j))
  = (if decide (0 ≤ j - 1 < Z.of_nat (shape1 g))%Z
     then ind (pixel g (i, j - 1)%Z ≠ c) else 0)
    + (if decide (0 ≤ j + 1 < Z.of_nat (shape1 g))%Z
       then ind (pixel g (i, j + 1)%Z ≠ c) else 0).
Proof.
  intros Hi. unfold differing_neighbors.
  rewrite length_filter_sum, sum_cells.
  rewrite (sum_ext _ (λ i', if decide (i' = i)
      then sum_list_with (λ j', if decide (Z.abs (j' - j) = 1)%Z
                                then ind (pixel g (i', j') ≠ c) else 0)
                         (range (shape1 g))
      else 0)).
  - rewrite sum_pick, decide_True by exact Hi. apply sum_pick_adjacent.
  - intros i' _. destruct (decide (i' = i)) as [-> | Hne].
    + apply sum_ext. intros j' _. unfold ind, same_row_neighbor. cbn [fst snd].
      repeat case_decide; try reflexivity; exfalso; intuition lia.
    + rewrite <- (sum_zero (range (shape1 g))). apply sum_ext. intros j' _.
      unfold ind, same_row_neighbor. cbn [fst snd].
      case_decide; [exfalso; intuition congruence | reflexivity].
Qed.

(** The differing same-column neighbours of an in-window pixel are its upper
    and lower neighbours, where they exist and differ. *)
Lemma count_same_col (i j : Z) :
  (0 ≤ j < Z.of_nat (shape1 g))%Z →
  length (differing_neighbors g c same_col_neighbor (i, j))
  = (if decide (0 ≤ i - 1 < Z.of_nat (shape0 g))%Z
     then ind (pixel g (i - 1, j)%Z ≠ c) else 0)
    + (if decide (0 ≤ i + 1 < Z.of_nat (shape0 g))%Z
       then ind (pixel g (i + 1, j)%Z ≠ c) else 0).
Proof.
  intros Hj. unfold differing_neighbors.
  rewrite length_filter_sum, sum_cells.
  rewrite (sum_ext _ (λ i', if decide (Z.abs (i' - i) = 1)%Z
                            then ind (pixel g (i', j) ≠ c) else 0)).
  - apply sum_pick_adjacent.
  - intros i' _.
    rewrite (sum_ext _ (λ j', if decide (j' = j)
        then (if decide (Z.abs (i' - i) = 1)%Z then ind (pixel g (i', j') ≠ c) else 0)
        else 0)).
    + rewrite sum_pick, decide_True by exact Hj. reflexivity.
    + intros j' _. unfold ind, same_col_neighbor. cbn [fst snd].
      repeat case_decide; subst; try reflexivity; exfalso; intuition lia.
Qed.
End NeighborCounts.

(** ** The edge length loop computes the edge length of the specification *)

Section EdgeLengthRefinement.
Variable g : grid.
Variable c : Z.
Variables res_x res_y : Qc.

Lemma edge_term_vertical (i i' j : Z) :
  i' ≠ i → (0 ≤ j < Z.of_nat (shape1 g))%Z →
  edge_term g c res_x res_y i (i', j)
  = (res_y * Qc_of_nat (if decide (0 ≤ i' < Z.of_nat (shape0 g))%Z
                        then ind (pixel g (i', j) ≠ c) else 0))%Qc.
Proof.
  intros Hne Hj. unfold edge_term, in_bounds, ind. cbn [fst snd].
  rewrite (bool_decide_eq_true_2 _ Hj), andb_true_r.
  rewrite (bool_decide_eq_false_2 _ Hne).
  rewrite (bool_decide_decide (0 ≤ i' < _)%Z), (bool_decide_decide (pixel g (i', j) ≠ c)).
  destruct (decide (0 ≤ i' < Z.of_nat (shape0 g))%Z);
    [destruct (decide (pixel g (i', j) ≠ c)) |]; cbn [andb];
    change (Qc_of_nat 1) with 1%Qc; change (Qc_of_nat 0) with 0%Qc; ring.
Qed.

Lemma edge_term_horizontal (i j j' : Z) :
  (0 ≤ i < Z.of_nat (shape0 g))%Z →
  edge_term g c res_x res_y i (i, j')
  = (res_x * Qc_of_nat (if decide (0 ≤ j' < Z.of_nat (shape1 g))%Z
                        then ind (pixel g (i, j') ≠ c) else 0))%Qc.
Proof.
  intros Hi. unfold edge_term, in_bounds, ind. cbn [fst snd].
  rewrite (bool_decide_eq_true_2 _ Hi), andb_true_l.
  rewrite (bool_decide_eq_true_2 (i = i)) by reflexivity.
  rewrite (bool_decide_decide (0 ≤ j' < _)%Z), (bool_decide_decide (pixel g (i, j') ≠ c)).
  destruct (decide (0 ≤ j' < Z.of_nat (shape1 g))%Z);
    [destruct (decide (pixel g (i, j') ≠ c)) |]; cbn [andb];
    change (Qc_of_nat 1) with 1%Qc; change (Qc_of_nat 0) with 0%Qc; ring.
Qed.

Lemma edge_pixel_counts (i j : Z) :
  (0 ≤ i < Z.of_nat (shape0 g))%Z → (0 ≤ j < Z.of_nat (shape1 g))%Z →
  Qc_sum_with (edge_term g c res_x res_y i) (neighbors i j)
  = (res_x * Qc_of_nat (length (differing_neighbors g c same_row_neighbor (i, j)))
     + res_y * Qc_of_nat (length (differing_neighbors g c same_col_neighbor (i, j))))%Qc.
Proof.
  intros Hi Hj.
  rewrite (count_same_row g c i j Hi), (count_same_col g c i j Hj), !Qc_of_nat_plus.
  unfold neighbors. cbn [Qc_sum_with foldr].
  rewrite !edge_term_vertical by lia.
  rewrite !(edge_term_horizontal i j) by exact Hi.
  ring.
Qed.

Lemma edge_length_refines :
  Qc_sum_with (λ i, Qc_sum_with (edge_pixel g c res_x res_y i) (range (shape1 g)))
              (range (shape0 g))
  = Spec.edge_length g c res_x res_y.
Proof.
  unfold Spec.edge_length, pixels_of_class.
  rewrite Qc_sum_filter, Qc_sum_cells.
  apply Qc_sum_ext. intros i Hi. apply Qc_sum_ext. intros j Hj.
  apply elem_of_range in Hi, Hj. unfold edge_pixel.
  rewrite (bool_decide_decide (pixel g (i, j) ≠ c)).
  destruct (decide (pixel g (i, j) = c)) as [Hc | Hc].
  - rewrite decide_False by (intros Hne; apply Hne, Hc).
    apply edge_pixel_counts; assumption.
  - rewrite decide_True by exact Hc. reflexivity.
Qed.
End EdgeLengthRefinement.

Lemma calculate_edge_length_spec (g : grid) (c : Z) (res_x res_y : Qc) :
  rect g →
  PdEd._calculate_edge_length g c res_x res_y = Ok (Spec.edge_length g c res_x res_y).
Proof.
  intros Hrect. rewrite (edge_length_loop g c res_x res_y Hrect).
  f_equal. apply edge_length_refines.
Qed.

(** ** The row of a valid window in pdanded.py *)

Lemma forM_pure {S A} (step : A → S → S) (body : A → S → result S) (l : list A) :
  (∀ x s, x ∈ l → body x s = Ok (step x s)) →
  ∀ s, forM l s body = Ok (foldl (λ s x, step x s) s l).
Proof.
  induction l as [| x l IH]; intros Hbody s; [reflexivity |].
  cbn [forM foldl]. rewrite Hbody by left. rewrite bind_Ok.
  apply IH. intros y t Hy. apply Hbody. right. exact Hy.
Qed.

Lemma pded_row_lookup (pd ed : Z → float Qc) (classes : list Z) (c : Z) :
  c ∈ classes →
  PdEd.PD (pded_row pd ed classes) !! c = Some (pd c)
  ∧ PdEd.ED (pded_row pd ed classes) !! c = Some (ed c).
Proof.
  unfold pded_row. induction classes as [| x l IH] using rev_ind; intros Hc.
  - apply elem_of_nil in Hc. contradiction.
  - rewrite foldl_app. cbn [foldl]. unfold PdEd.set_ED, PdEd.set_PD. cbn [PdEd.PD PdEd.ED].
    destruct (decide (x = c)) as [-> | Hne].
    + rewrite !lookup_insert_eq. auto.
    + rewrite !lookup_insert_ne by exact Hne. apply IH.
      apply elem_of_app in Hc as [Hc | Hc]; [exact Hc |].
      apply list_elem_of_singleton in Hc. congruence.
Qed.

Lemma pded_window_metrics (w : grid) (res_x res_y : Qc) :
  rect w → (Qc_of_nat (size w) * (res_x * res_y))%Qc ≠ 0%Qc →
  PdEd.window_metrics w res_x res_y
  = Ok (pded_row
          (λ c, PdEd.patch_density w c (res_x * res_y)
                  (Qc_of_nat (size w) * (res_x * res_y)))
          (λ c, Fin (Spec.edge_length w c res_x res_y
                     / (Qc_of_nat (size w) * (res_x * res_y)))%Qc)
          (range2 1 7)).
Proof.
  intros Hrect Harea. unfold PdEd.window_metrics, pded_row.
  apply (forM_pure (λ class_val row, PdEd.set_ED class_val _ (PdEd.set_PD class_val _ row))).
  intros c row _. rewrite (calculate_edge_length_spec w c res_x res_y Hrect), bind_Ok.
  unfold PdEd.truediv. rewrite bool_decide_eq_false_2 by exact Harea.
  reflexivity.
Qed.

(** With a total area of zero the division of the first class raises. *)
Lemma pded_window_metrics_zero_area (w : grid) (res_x res_y : Qc) :
  rect w → (Qc_of_nat (size w) * (res_x * res_y))%Qc = 0%Qc →
  PdEd.window_metrics w res_x res_y = Raise ZeroDivisionError.
Proof.
  intros Hrect Harea. unfold PdEd.window_metrics.
  change (range2 1 7) with (1%Z :: range2 2 7). cbn [forM].
  rewrite (calculate_edge_length_spec w 1 res_x res_y Hrect), bind_Ok.
  unfold PdEd.truediv. rewrite bool_decide_eq_true_2 by exact Harea.
  reflexivity.
Qed.

Lemma elem_of_classes (c : Z) : c ∈ range2 1 7 ↔ (1 ≤ c ≤ 6)%Z.
Proof. unfold range2. rewrite elem_of_seqZ. lia. Qed.

(** ** Signs and finite quotients *)

Lemma Qc_sign_Eq (q : Qc) : Qc_sign q = Eq ↔ q = 0%Qc.
Proof.
  unfold Qc_sign. rewrite Z.compare_eq_iff. split.
  - intros Hnum. apply Qc_is_canon. destruct q as [[n d] Hq]. cbn in *.
    subst n. reflexivity.
  - intros ->. reflexivity.
Qed.

Lemma Qc_div_finite (a b : Qc) :
  b ≠ 0%Qc → fl_div (Fin a) (Fin b) = Fin (a / b)%Qc.
Proof.
  intros Hb. unfold fl_div. cbn [c_sgn c_div Qc_carrier].
  destruct (Qc_sign b) eqn:Hs; [| reflexivity | reflexivity].
  apply Qc_sign_Eq in Hs. contradiction.
Qed.

Lemma Qc_of_nat_eq_0 (n : nat) : Qc_of_nat n = 0%Qc → n = 0.
Proof.
  unfold Qc_of_nat. intros Hq.
  apply (Q2Qc_eq_iff (inject_Z (Z.of_nat n)) 0%Q) in Hq.
  unfold Qeq in Hq. cbn in Hq. lia.
Qed.

(** C5. For a rectangular window and a class [c] in 1..6, the edge length
    loop returns the edge length of the specification: over every pixel of
    class [c], one pixel width per differing same-row neighbour and one pixel
    height per differing same-column neighbour, all inside the window. With
    a non-zero total area [size * (res_x * res_y)], the row of the window is
    built and its ED column of [c] is the finite number
    [edge_length / total_area]. With a total area of zero no row is built:
    the division raises [ZeroDivisionError]. *)
Theorem edge_density_is_edge_length_over_area
    (w : grid) (res_x res_y : Qc) (c : Z) :
  rect w → (1 ≤ c ≤ 6)%Z →
  let total_area := (Qc_of_nat (size w) * (res_x * res_y))%Qc in
  PdEd._calculate_edge_length w c res_x res_y = Ok (Spec.edge_length w c res_x res_y)
  ∧ (total_area ≠ 0%Qc →
     ∃ row, PdEd.window_metrics w res_x res_y = Ok row
       ∧ PdEd.ED row !! c = Some (Fin (Spec.edge_length w c res_x res_y / total_area)%Qc))
  ∧ (total_area = 0%Qc →
     PdEd.window_metrics w res_x res_y = Raise ZeroDivisionError).
Proof.
  intros Hrect Hc total_area.
  split; [apply calculate_edge_length_spec, Hrect |].
  split.
  - intros Harea.
    eexists. split; [apply pded_window_metrics; [exact Hrect | exact Harea] |].
    apply elem_of_classes in Hc.
    destruct (pded_row_lookup
                (λ c, PdEd.patch_density w c (res_x * res_y)
                        (Qc_of_nat (size w) * (res_x * res_y)))
                (λ c, Fin (Spec.edge_length w c res_x res_y
                           / (Qc_of_nat (size w) * (res_x * res_y)))%Qc)
                (range2 1 7) c Hc) as [_ Hed].
    exact Hed.
  - intros Harea. apply pded_window_metrics_zero_area; [exact Hrect | exact Harea].
Qed.

(** ** Counting the pixels of each class *)

Lemma length_ravel (g : grid) : rect g → length (ravel g) = size g.
Proof.
  intros Hrect. unfold ravel, size, shape0.
  rewrite length_join. apply sum_list_fmap_same. exact Hrect.
Qed.

Lemma class_counts_partition (l : list Z) :
  Forall (λ v, (1 ≤ v ≤ 6)%Z) l →
  sum_list_with (λ c, length (filter (λ x, x = c) l)) [1; 2; 3; 4; 5; 6]%Z = length l.
Proof.
  induction 1 as [| v l Hv _ IH]; [reflexivity |].
  cbn [sum_list_with] in *. rewrite !filter_cons. cbn [length]. rewrite <- IH.
  assert (v = 1 ∨ v = 2 ∨ v = 3 ∨ v = 4 ∨ v = 5 ∨ v = 6)%Z
    as [-> | [-> | [-> | [-> | [-> | ->]]]]] by lia;
    repeat case_decide; try discriminate; try contradiction; cbn [length]; lia.
Qed.

(** C6. In the row of a non-empty rectangular window whose pixels all carry a
    class in 1..6 (so none is nodata), over pixels of non-zero area, the six
    PD columns are the finite numbers
    [count_c * cell_area / (size * cell_area)], and they add up to exactly 1. *)
Theorem patch_densities_sum_to_one (w : grid) (res_x res_y : Qc) :
  rect w → size w ≠ 0 → (res_x * res_y)%Qc ≠ 0%Qc →
  Forall (λ v, (1 ≤ v ≤ 6)%Z) (ravel w) →
  let cell_area := (res_x * res_y)%Qc in
  let pd := λ c : Z,
    (Qc_of_nat (count_eq w c) * cell_area / (Qc_of_nat (size w) * cell_area))%Qc in
  ∃ row, PdEd.window_metrics w res_x res_y = Ok row
    ∧ (∀ c, (1 ≤ c ≤ 6)%Z →
         PdEd.patch_density w c cell_area (Qc_of_nat (size w) * cell_area) = Fin (pd c)
         ∧ PdEd.PD row !! c = Some (Fin (pd c)))
    ∧ (pd 1%Z + pd 2%Z + pd 3%Z + pd 4%Z + pd 5%Z + pd 6%Z = 1)%Qc.
Proof.
  intros Hrect Hsize Hcell Hdom cell_area pd.
  assert (Qc_of_nat (size w) ≠ 0%Qc) as Hn.
  { intros H0. apply Hsize, Qc_of_nat_eq_0, H0. }
  assert (Qc_of_nat (size w) * cell_area ≠ 0)%Qc as Harea.
  { intros H0. apply Qcmult_integral in H0 as [H0 | H0]; contradiction. }
  assert (∀ c, PdEd.patch_density w c cell_area (Qc_of_nat (size w) * cell_area)
               = Fin (pd c)) as Hpd.
  { intros c. unfold PdEd.patch_density. apply Qc_div_finite, Harea. }
  eexists. split; [apply pded_window_metrics; [exact Hrect | exact Harea] |].
  split.
  - intros c Hc. split; [apply Hpd |].
    apply elem_of_classes in Hc.
    destruct (pded_row_lookup
                (λ c, PdEd.patch_density w c (res_x * res_y)
                        (Qc_of_nat (size w) * (res_x * res_y)))
                (λ c, Fin (Spec.edge_length w c res_x res_y
                           / (Qc_of_nat (size w) * (res_x * res_y)))%Qc)
                (range2 1 7) c Hc) as [Hrow _].
    rewrite Hrow. f_equal. apply Hpd.
  - pose proof (class_counts_partition (ravel w) Hdom) as Hsum.
    rewrite (length_ravel w Hrect) in Hsum. cbn [sum_list_with] in Hsum.
    fold (count_eq w 1) (count_eq w 2) (count_eq w 3) (count_eq w 4)
         (count_eq w 5) (count_eq w 6) in Hsum.
    assert (Qc_of_nat (size w)
            = Qc_of_nat (count_eq w 1) + Qc_of_nat (count_eq w 2)
              + Qc_of_nat (count_eq w 3) + Qc_of_nat (count_eq w 4)
              + Qc_of_nat (count_eq w 5) + Qc_of_nat (count_eq w 6))%Qc as Htotal.
    { rewrite <- Hsum, !Qc_of_nat_plus. change (Qc_of_nat 0) with 0%Qc. ring. }
    assert (∀ a : Qc, a * cell_area / (Qc_of_nat (size w) * cell_area)
                      = a / Qc_of_nat (size w))%Qc as Hcancel.
    { intros a. field. split; assumption. }
    subst pd. cbv beta. rewrite !Hcancel.
    transitivity (Qc_of_nat (size w) / Qc_of_nat (size w))%Qc.
    + rewrite Htotal at 7. field. exact Hn.
    + field. exact Hn.
Qed.

(** ** [np.unique] with counts *)

Lemma tally_keys (x : Z) (u : list (Z * nat)) (y : Z) :
  y ∈ (tally x u).*1 ↔ y = x ∨ y ∈ u.*1.
Proof.
  induction u as [| [k n] u IH]; cbn [tally].
  - cbn. rewrite list_elem_of_singleton, elem_of_nil. tauto.
  - repeat case_bool_decide; subst; csimpl; rewrite ?elem_of_cons, ?IH;
      csimpl; rewrite ?elem_of_cons; tauto.
Qed.

Lemma tally_sorted (x : Z) (u : list (Z * nat)) :
  StronglySorted Z.lt u.*1 → StronglySorted Z.lt (tally x u).*1.
Proof.
  induction u as [| [k n] u IH]; cbn [tally]; intros Hs.
  - repeat constructor.
  - csimpl in Hs. apply StronglySorted_inv in Hs as [Hs Hall].
    repeat case_bool_decide; subst; csimpl.
    + constructor; [constructor; assumption |].
      constructor; [assumption |].
      eapply Forall_impl; [exact Hall |]. cbn. intros; lia.
    + constructor; assumption.
    + constructor; [apply IH, Hs |].
      apply Forall_forall. intros y Hy. apply tally_keys in Hy as [-> | Hy]; [lia |].
      rewrite Forall_forall in Hall. apply Hall, Hy.
Qed.

Lemma tally_count (x : Z) (u : list (Z * nat)) (y : Z) :
  table_count (tally x u) y = table_count u y + ind (x = y).
Proof.
  unfold table_count, ind.
  induction u as [| [k n] u IH]; cbn [tally sum_list_with fst snd].
  - repeat case_decide; lia.
  - repeat case_bool_decide; subst; cbn [sum_list_with fst snd]; rewrite ?IH;
      repeat case_decide; lia.
Qed.

Lemma unique_counts_keys (l : list Z) (y : Z) :
  y ∈ (unique_counts l).*1 ↔ y ∈ l.
Proof.
  unfold unique_counts. induction l as [| x l IH]; cbn [foldr].
  - reflexivity.
  - rewrite tally_keys, IH, elem_of_cons. reflexivity.
Qed.

Lemma unique_counts_sorted (l : list Z) :
  StronglySorted Z.lt (unique_counts l).*1.
Proof.
  unfold unique_counts. induction l as [| x l IH]; cbn [foldr].
  - constructor.
  - apply tally_sorted, IH.
Qed.

Lemma sorted_NoDup (ks : list Z) : StronglySorted Z.lt ks → NoDup ks.
Proof.
  induction 1 as [| k ks _ IH Hall]; constructor; [| exact IH].
  intros Hin. rewrite Forall_forall in Hall. specialize (Hall k Hin). lia.
Qed.

Lemma unique_counts_NoDup (l : list Z) : NoDup (unique_counts l).*1.
Proof. apply sorted_NoDup, unique_counts_sorted. Qed.

Lemma unique_counts_count (l : list Z) (y : Z) :
  table_count (unique_counts l) y = length (filter (λ x, x = y) l).
Proof.
  unfold unique_counts. induction l as [| x l IH]; cbn [foldr].
  - reflexivity.
  - rewrite tally_count, IH, filter_cons. unfold ind.
    case_decide; cbn [length]; lia.
Qed.

Lemma table_count_entry (u : list (Z * nat)) (c : Z) (n : nat) :
  NoDup u.*1 → (c, n) ∈ u → table_count u c = n.
Proof.
  unfold table_count. induction u as [| [k m] u IH]; intros Hnd Hin.
  - apply elem_of_nil in Hin. contradiction.
  - csimpl in Hnd. apply NoDup_cons in Hnd as [Hk Hnd].
    cbn [sum_list_with fst snd]. apply elem_of_cons in Hin as [Heq | Hin].
    + injection Heq as -> ->. rewrite decide_True by reflexivity.
      rewrite (sum_ext _ (λ _, 0)), sum_zero; [lia |].
      intros [k' m'] Hin'. cbn [fst snd]. case_decide; [| reflexivity].
      subst k'. exfalso. apply Hk. apply list_elem_of_fmap. exists (k, m'). auto.
    + rewrite decide_False.
      * rewrite IH by assumption. reflexivity.
      * intros ->. apply Hk. apply list_elem_of_fmap. exists (c, n). auto.
Qed.

(** Every entry of the table is a value of the list with its number of
    occurrences there, which is positive. *)
Lemma unique_counts_entry (l : list Z) (c : Z) (n : nat) :
  (c, n) ∈ unique_counts l → c ∈ l ∧ n = length (filter (λ x, x = c) l) ∧ 0 < n.
Proof.
  intros Hin.
  assert (c ∈ l) as Hc.
  { apply unique_counts_keys. apply list_elem_of_fmap. exists (c, n). auto. }
  assert (n = length (filter (λ x, x = c) l)) as Hn.
  { rewrite <- unique_counts_count.
    symmetry. apply table_count_entry; [apply unique_counts_NoDup | exact Hin]. }
  split; [exact Hc |]. split; [exact Hn |].
  rewrite Hn. destruct (filter (λ x, x = c) l) eqn:Hf; cbn [length]; [| lia].
  exfalso. eapply (filter_nil_not_elem_of (λ x, x = c)); [exact Hf | reflexivity | exact Hc].
Qed.

Lemma unique_counts_table (l : list Z) :
  unique_counts l
  = (λ c, (c, length (filter (λ x, x = c) l))) <$> (unique_counts l).*1.
Proof.
  pose proof (unique_counts_entry l) as Hentry.
  induction (unique_counts l) as [| [c n] u IH]; [reflexivity |].
  csimpl. f_equal.
  - f_equal. apply Hentry. left.
  - apply IH. intros c' n' Hin. apply Hentry. right. exact Hin.
Qed.

(** A list that holds one value only has a one-line table. *)
Lemma unique_counts_single (l : list Z) (c : Z) :
  l ≠ [] → Forall (λ x, x = c) l → unique_counts l = [(c, length l)].
Proof.
  unfold unique_counts. intros Hne Hall.
  induction Hall as [| x l -> Hall IH]; [contradiction |].
  cbn [foldr]. destruct l as [| y l].
  - reflexivity.
  - rewrite IH by discriminate. cbn [tally].
    rewrite bool_decide_eq_false_2 by lia.
    rewrite bool_decide_eq_true_2 by reflexivity. reflexivity.
Qed.

(** ** The dictionary from class values to indices *)

Lemma class_index_snoc (keys : list Z) (k : Z) :
  class_index (keys ++ [k]) = <[k := length keys]> (class_index keys).
Proof.
  unfold class_index. rewrite length_app. cbn [length].
  rewrite Nat.add_1_r, seq_S. cbn [plus].
  rewrite zip_with_app by (rewrite length_seq; reflexivity).
  rewrite foldl_app. reflexivity.
Qed.

Lemma class_index_lookup (keys : list Z) (x : Z) (idx : nat) :
  class_index keys !! x = Some idx → idx < length keys.
Proof.
  revert idx. induction keys as [| k keys IH] using rev_ind; intros idx.
  - unfold class_index. cbn. rewrite lookup_empty. discriminate.
  - rewrite class_index_snoc, length_app. cbn [length].
    destruct (decide (k = x)) as [-> | Hne].
    + rewrite lookup_insert_eq. intros [= <-]. lia.
    + rewrite lookup_insert_ne by exact Hne. intros Hl. apply IH in Hl. lia.
Qed.

Lemma class_index_elem (keys : list Z) (x : Z) :
  x ∈ keys → is_Some (class_index keys !! x).
Proof.
  induction keys as [| k keys IH] using rev_ind; intros Hin.
  - apply elem_of_nil in Hin. contradiction.
  - rewrite class_index_snoc.
    destruct (decide (k = x)) as [-> | Hne].
    + rewrite lookup_insert_eq. eauto.
    + rewrite lookup_insert_ne by exact Hne. apply IH.
      apply elem_of_app in Hin as [Hin | Hin]; [exact Hin |].
      apply list_elem_of_singleton in Hin. congruence.
Qed.

(** Every pixel of a rectangular window has its class in the dictionary, at
    an index below the number of classes. *)
Lemma class_of_pixel (g : grid) (i j : Z) :
  rect g → (0 ≤ i < Z.of_nat (shape0 g))%Z → (0 ≤ j < Z.of_nat (shape1 g))%Z →
  class_index (np_unique g).1 !! pixel g (i, j) = Some (class_of g (i, j))
  ∧ class_of g (i, j) < length (np_unique g).1.
Proof.
  intros Hrect Hi Hj. unfold class_of.
  destruct (class_index_elem (np_unique g).1 (pixel g (i, j))) as [idx Hidx].
  { unfold np_unique. cbn [fst]. apply unique_counts_keys.
    apply pixel_in_ravel; assumption. }
  rewrite Hidx. cbn [default]. split; [reflexivity |].
  eapply class_index_lookup, Hidx.
Qed.

(** ** The matrix of counts *)

Lemma square_zeros (m : nat) : square m (np_zeros m).
Proof.
  unfold square, np_zeros. rewrite length_replicate. split; [reflexivity |].
  apply Forall_replicate, length_replicate.
Qed.

Lemma entry_zeros (m a b : nat) : entry (np_zeros m) a b = 0.
Proof.
  unfold entry, np_zeros.
  destruct (replicate m (replicate m 0) !! a) as [row |] eqn:Hrow; [| reflexivity].
  apply lookup_replicate in Hrow as [-> _]. cbn.
  destruct (replicate m 0 !! b) as [x |] eqn:Hx; [| reflexivity].
  apply lookup_replicate in Hx as [-> _]. reflexivity.
Qed.

Lemma np_sum_zeros (m : nat) : np_sum (np_zeros m) = 0.
Proof.
  unfold np_sum, np_zeros.
  rewrite (sum_list_fmap_same 0).
  - lia.
  - apply Forall_replicate. rewrite sum_list_replicate. lia.
Qed.

Lemma sum_list_insert (l : list nat) (i : nat) (x y : nat) :
  l !! i = Some x → sum_list (<[i := y]> l) + x = sum_list l + y.
Proof.
  revert i. induction l as [| z l IH]; intros [| i] Hl; try discriminate.
  - injection Hl as ->. cbn. lia.
  - cbn in Hl. specialize (IH i Hl).
    change (<[S i := y]> (z :: l)) with (z :: <[i := y]> l).
    cbn [sum_list_with]. lia.
Qed.

Lemma np_sum_insert (M : list (list nat)) (a : nat) (row row' : list nat) :
  M !! a = Some row →
  np_sum (<[a := row']> M) + sum_list row = np_sum M + sum_list row'.
Proof.
  unfold np_sum. revert a. induction M as [| r M IH]; intros [| a] HM; try discriminate.
  - injection HM as ->. csimpl. lia.
  - cbn in HM. csimpl. specialize (IH a HM). lia.
Qed.

(** An increment inside the matrix succeeds, keeps the shape, adds one to
    the sum of the entries and one to the entry it addresses only. *)
Lemma incr_square (m : nat) (M : list (list nat)) (a b : nat) :
  square m M → a < m → b < m →
  ∃ M', incr M a b = Ok M' ∧ square m M'
        ∧ np_sum M' = np_sum M + 1
        ∧ ∀ a' b', entry M' a' b' = entry M a' b' + ind (a = a' ∧ b = b').
Proof.
  intros [Hlen Hrows] Ha Hb.
  destruct (lookup_lt_is_Some_2 M a) as [row Hrow]; [lia |].
  assert (length row = m) as Hrl.
  { rewrite Forall_lookup in Hrows. exact (Hrows a row Hrow). }
  destruct (lookup_lt_is_Some_2 row b) as [x Hx]; [lia |].
  exists (<[a := <[b := S x]> row]> M). unfold incr. rewrite Hrow, Hx.
  split; [reflexivity |]. split; [| split].
  - split; [rewrite length_insert; exact Hlen |].
    apply Forall_insert; [exact Hrows |]. rewrite length_insert. exact Hrl.
  - pose proof (np_sum_insert M a row (<[b := S x]> row) Hrow) as H1.
    pose proof (sum_list_insert row b x (S x) Hx) as H2. lia.
  - intros a' b'. unfold entry, ind.
    destruct (decide (a = a')) as [<- | Hna].
    + rewrite list_lookup_insert_eq by lia. rewrite Hrow. cbn.
      destruct (decide (b = b')) as [<- | Hnb].
      * rewrite list_lookup_insert_eq by lia. rewrite Hx. cbn.
        rewrite decide_True by auto. lia.
      * rewrite list_lookup_insert_ne by exact Hnb.
        rewrite decide_False by (intros [_ ?]; contradiction). lia.
    + rewrite list_lookup_insert_ne by exact Hna.
      rewrite decide_False by (intros [? _]; contradiction). lia.
Qed.

(** ** The scan that fills the adjacency matrix

    The scan is followed through a quantity [μ] of the matrix that every
    increment at [(a, b)] raises by [δ a b]: the sum of the entries
    ([δ a b = 1]) or one entry. *)

Section AdjacencyScan.
Variable g : grid.
Hypothesis g_rect : rect g.
Variable μ : list (list nat) → nat.
Variable δ : nat → nat → nat.
Hypothesis μ_incr : ∀ M a b M',
  square (length (np_unique g).1) M →
  a < length (np_unique g).1 → b < length (np_unique g).1 →
  incr M a b = Ok M' → μ M' = μ M + δ a b.

Lemma scan_neighbor_loop (i j : Z) (M : list (list nat)) :
  (0 ≤ i < Z.of_nat (shape0 g))%Z → (0 ≤ j < Z.of_nat (shape1 g))%Z →
  square (length (np_unique g).1) M →
  ∃ M',
    forM (neighbors i j) M (λ '(ni, nj) adjacency_matrix,
      if in_bounds g ni nj then
        neighbor_class ← getitem2 g ni nj;
        match class_index (np_unique g).1 !! neighbor_class with
        | Some neighbor_index => incr adjacency_matrix (class_of g (i, j)) neighbor_index
        | None => Ok adjacency_matrix
        end
      else Ok adjacency_matrix) = Ok M'
    ∧ square (length (np_unique g).1) M'
    ∧ μ M' = μ M + scan_pixel g δ i j.
Proof.
  intros Hi Hj HM. unfold scan_pixel.
  apply (forM_count (square (length (np_unique g).1)) μ); [| exact HM].
  intros [ni nj] N _ HN. unfold scan_term. cbn [fst snd].
  destruct (in_bounds g ni nj) eqn:Hin.
  - apply in_bounds_spec in Hin as [Hni Hnj].
    rewrite (getitem2_pixel g ni nj g_rect Hni Hnj), bind_Ok.
    destruct (class_of_pixel g ni nj g_rect Hni Hnj) as [Hidx Hlt].
    destruct (class_of_pixel g i j g_rect Hi Hj) as [_ Hlt0].
    rewrite Hidx.
    destruct (incr_square _ N _ _ HN Hlt0 Hlt) as (N' & Hincr & HN' & _ & _).
    exists N'. split; [exact Hincr |]. split; [exact HN' |].
    eapply μ_incr; eassumption.
  - exists N. split; [reflexivity |]. split; [exact HN | lia].
Qed.

Lemma scan_column_loop (i : Z) (M : list (list nat)) :
  (0 ≤ i < Z.of_nat (shape0 g))%Z →
  square (length (np_unique g).1) M →
  ∃ M',
    forM (range (shape1 g)) M (λ j adjacency_matrix,
      current_class ← getitem2 g i j;
      match class_index (np_unique g).1 !! current_class with
      | None => Ok adjacency_matrix
      | Some current_index =>
          forM (neighbors i j) adjacency_matrix (λ '(ni, nj) adjacency_matrix,
            if in_bounds g ni nj then
              neighbor_class ← getitem2 g ni nj;
              match class_index (np_unique g).1 !! neighbor_class with
              | Some neighbor_index => incr adjacency_matrix current_index neighbor_index
              | None => Ok adjacency_matrix
              end
            else Ok adjacency_matrix)
      end) = Ok M'
    ∧ square (length (np_unique g).1) M'
    ∧ μ M' = μ M + sum_list_with (scan_pixel g δ i) (range (shape1 g)).
Proof.
  intros Hi HM.
  apply (forM_count (square (length (np_unique g).1)) μ); [| exact HM].
  intros j N Hj HN. apply elem_of_range in Hj.
  rewrite (getitem2_pixel g i j g_rect Hi Hj), bind_Ok.
  destruct (class_of_pixel g i j g_rect Hi Hj) as [Hidx _]. rewrite Hidx.
  apply scan_neighbor_loop; assumption.
Qed.

Lemma scan_loop :
  ∃ M,
    ShdiLpi.adjacency_scan g (class_index (np_unique g).1) (length (np_unique g).1) = Ok M
    ∧ square (length (np_unique g).1) M
    ∧ μ M = μ (np_zeros (length (np_unique g).1))
            + sum_list_with (λ i, sum_list_with (scan_pixel g δ i) (range (shape1 g)))
                            (range (shape0 g)).
Proof.
  unfold ShdiLpi.adjacency_scan.
  apply (forM_count (square (length (np_unique g).1)) μ); [| apply square_zeros].
  intros i N Hi HN. apply elem_of_range in Hi.
  apply scan_column_loop; assumption.
Qed.
End AdjacencyScan.

(** ** Sums over neighbours, direction by direction *)

Lemma sum_if {A} (P : Prop) `{Decision P} (f : A → nat) (l : list A) :
  sum_list_with (λ x, if decide P then f x else 0) l
  = if decide P then sum_list_with f l else 0.
Proof. destruct (decide P); [reflexivity | apply sum_zero]. Qed.

(** The terms that look one step back are those of the range shortened by
    one, ... *)
Lemma sum_shift_down (F f : Z → nat) (n : nat) :
  (∀ k, (0 ≤ k - 1)%Z → F k = f (k - 1)%Z) →
  sum_list_with (λ k, if decide (0 ≤ k - 1)%Z then F k else 0) (range n)
  = sum_list_with f (range (n - 1)).
Proof.
  intros HF. induction n as [| n IH]; [reflexivity |].
  rewrite range_S, sum_list_with_app, IH. cbn [sum_list_with].
  replace (S n - 1) with n by lia.
  destruct n as [| n].
  - rewrite decide_False by lia. reflexivity.
  - rewrite decide_True by lia. rewrite HF by lia.
    replace (S n - 1) with n by lia.
    rewrite range_S, sum_list_with_app. cbn [sum_list_with].
    replace (Z.of_nat (S n) - 1)%Z with (Z.of_nat n) by lia. lia.
Qed.

Lemma sum_shift_up_le (f : Z → nat) (N n : nat) :
  n ≤ N →
  sum_list_with (λ k, if decide (k + 1 < Z.of_nat N)%Z then f k else 0) (range n)
  = sum_list_with f (range (n `min` (N - 1))).
Proof.
  induction n as [| n IH]; intros Hn; [reflexivity |].
  rewrite range_S, sum_list_with_app, IH by lia. cbn [sum_list_with].
  destruct (decide (S n ≤ N - 1)) as [Hlt | Hge].
  - rewrite decide_True by lia.
    replace (n `min` (N - 1)) with n by lia.
    replace (S n `min` (N - 1)) with (S n) by lia.
    rewrite range_S, sum_list_with_app. reflexivity.
  - rewrite decide_False by lia.
    replace (S n `min` (N - 1)) with (n `min` (N - 1)) by lia. lia.
Qed.

(** ... and so are the terms that look one step ahead. *)
Lemma sum_shift_up (f : Z → nat) (n : nat) :
  sum_list_with (λ k, if decide (k + 1 < Z.of_nat n)%Z then f k else 0) (range n)
  = sum_list_with f (range (n - 1)).
Proof.
  rewrite (sum_shift_up_le f n n) by lia.
  replace (n `min` (n - 1)) with (n - 1) by lia. reflexivity.
Qed.

Section Directions.
Variable g : grid.
Variable δ : nat → nat → nat.

Lemma scan_pixel_directions (i j : Z) :
  (0 ≤ i < Z.of_nat (shape0 g))%Z → (0 ≤ j < Z.of_nat (shape1 g))%Z →
  scan_pixel g δ i j
  = (if decide (0 ≤ i - 1)%Z
     then δ (class_of g (i, j)) (class_of g (i - 1, j)%Z) else 0)
    + (if decide (i + 1 < Z.of_nat (shape0 g))%Z
       then δ (class_of g (i, j)) (class_of g (i + 1, j)%Z) else 0)
    + (if decide (0 ≤ j - 1)%Z
       then δ (class_of g (i, j)) (class_of g (i, j - 1)%Z) else 0)
    + (if decide (j + 1 < Z.of_nat (shape1 g))%Z
       then δ (class_of g (i, j)) (class_of g (i, j + 1)%Z) else 0).
Proof.
  intros Hi Hj. unfold scan_pixel, neighbors, scan_term, in_bounds.
  cbn [sum_list_with fst snd].
  rewrite !(bool_decide_decide (0 ≤ _ < _)%Z).
  repeat case_decide; cbn [andb]; lia.
Qed.

Lemma scan_directions :
  sum_list_with (λ i, sum_list_with (scan_pixel g δ i) (range (shape1 g)))
                (range (shape0 g))
  = sum_list_with (λ i, sum_list_with
        (λ j, δ (class_of g (i + 1, j)%Z) (class_of g (i, j)))
        (range (shape1 g))) (range (shape0 g - 1))
    + sum_list_with (λ i, sum_list_with
        (λ j, δ (class_of g (i, j)) (class_of g (i + 1, j)%Z))
        (range (shape1 g))) (range (shape0 g - 1))
    + sum_list_with (λ i, sum_list_with
        (λ j, δ (class_of g (i, j + 1)%Z) (class_of g (i, j)))
        (range (shape1 g - 1))) (range (shape0 g))
    + sum_list_with (λ i, sum_list_with
        (λ j, δ (class_of g (i, j)) (class_of g (i, j + 1)%Z))
        (range (shape1 g - 1))) (range (shape0 g)).
Proof.
  rewrite <- (sum_shift_down
    (λ i, sum_list_with (λ j, δ (class_of g (i, j)) (class_of g (i - 1, j)%Z))
                        (range (shape1 g)))
    (λ i, sum_list_with (λ j, δ (class_of g (i + 1, j)%Z) (class_of g (i, j)))
                        (range (shape1 g)))).
  2:{ intros k _. apply sum_ext. intros j _.
      replace (k - 1 + 1)%Z with k by lia. reflexivity. }
  rewrite <- (sum_shift_up
    (λ i, sum_list_with (λ j, δ (class_of g (i, j)) (class_of g (i + 1, j)%Z))
                        (range (shape1 g)))).
  rewrite <- !sum_plus. apply sum_ext. intros i Hi. apply elem_of_range in Hi.
  rewrite <- (sum_shift_down
    (λ j, δ (class_of g (i, j)) (class_of g (i, j - 1)%Z))
    (λ j, δ (class_of g (i, j + 1)%Z) (class_of g (i, j)))).
  2:{ intros k _. replace (k - 1 + 1)%Z with k by lia. reflexivity. }
  rewrite <- (sum_shift_up (λ j, δ (class_of g (i, j)) (class_of g (i, j + 1)%Z))).
  rewrite <- !(sum_if _ _ (range (shape1 g))).
  rewrite <- !sum_plus. apply sum_ext. intros j Hj. apply elem_of_range in Hj.
  apply scan_pixel_directions; assumption.
Qed.
End Directions.

(** ** The adjacency matrix of a window *)

Lemma incr_adds_to_sum (m : nat) (M : list (list nat)) (a b : nat) (M' : list (list nat)) :
  square m M → a < m → b < m → incr M a b = Ok M' → np_sum M' = np_sum M + 1.
Proof.
  intros HM Ha Hb Hincr.
  destruct (incr_square m M a b HM Ha Hb) as (N & HN & _ & Hsum & _).
  rewrite Hincr in HN. injection HN as ->. exact Hsum.
Qed.

Lemma incr_adds_to_entry (m : nat) (M : list (list nat)) (a b a' b' : nat)
    (M' : list (list nat)) :
  square m M → a < m → b < m → incr M a b = Ok M' →
  entry M' a' b' = entry M a' b' + ind (a = a' ∧ b = b').
Proof.
  intros HM Ha Hb Hincr.
  destruct (incr_square m M a b HM Ha Hb) as (N & HN & _ & _ & Hentry).
  rewrite Hincr in HN. injection HN as ->. apply Hentry.
Qed.

Lemma adjacency_matrix_of_scan (g : grid) :
  ShdiLpi.adjacency_matrix_of g
  = ShdiLpi.adjacency_scan g (class_index (np_unique g).1) (length (np_unique g).1).
Proof. reflexivity. Qed.

(** The matrix is built without error; its sum counts every visit of an
    in-window neighbour, and its entry [(a, b)] the visits from a pixel of
    class index [a] to a neighbour of class index [b]. *)
Lemma adjacency_matrix_built (g : grid) :
  rect g →
  ∃ M, ShdiLpi.adjacency_matrix_of g = Ok M
    ∧ square (length (np_unique g).1) M
    ∧ np_sum M
      = sum_list_with (λ i, sum_list_with (scan_pixel g (λ _ _, 1) i) (range (shape1 g)))
                      (range (shape0 g))
    ∧ ∀ a b, entry M a b
        = sum_list_with
            (λ i, sum_list_with (scan_pixel g (λ x y, ind (x = a ∧ y = b)) i)
                                (range (shape1 g)))
            (range (shape0 g)).
Proof.
  intros Hrect. rewrite adjacency_matrix_of_scan.
  destruct (scan_loop g Hrect np_sum (λ _ _, 1)) as (M & Hrun & Hsq & Hsum).
  { intros N a b N'. apply incr_adds_to_sum. }
  exists M. split; [exact Hrun |]. split; [exact Hsq |].
  split; [rewrite Hsum, np_sum_zeros; reflexivity |].
  intros a b.
  destruct (scan_loop g Hrect (λ N, entry N a b) (λ x y, ind (x = a ∧ y = b)))
    as (M' & Hrun' & _ & Hentry).
  { intros N x y N'. apply incr_adds_to_entry. }
  rewrite Hrun in Hrun'. injection Hrun' as <-.
  rewrite Hentry, entry_zeros. reflexivity.
Qed.

(** C7. The adjacency matrix of a non-empty rectangular window of [H] rows
    and [W] columns is built without error, and the sum of its entries is
    [2 * (H * (W - 1) + (H - 1) * W)], the number of ordered pairs of
    4-connected pixels of the window. *)
Theorem adjacency_sum_is_twice_the_adjacent_pairs (w : grid) :
  rect w → size w ≠ 0 →
  ∃ M, ShdiLpi.adjacency_matrix_of w = Ok M
    ∧ Z.of_nat (np_sum M)
      = (2 * (Z.of_nat (shape0 w) * (Z.of_nat (shape1 w) - 1)
              + (Z.of_nat (shape0 w) - 1) * Z.of_nat (shape1 w)))%Z.
Proof.
  intros Hrect Hsize.
  destruct (adjacency_matrix_built w Hrect) as (M & Hrun & _ & Hsum & _).
  exists M. split; [exact Hrun |].
  rewrite Hsum, scan_directions.
  rewrite !(sum_ext _ (λ _, shape1 w) (range (shape0 w - 1)))
    by (intros i _; rewrite sum_const, length_range; lia).
  rewrite !(sum_ext _ (λ _, shape1 w - 1) (range (shape0 w)))
    by (intros i _; rewrite sum_const, length_range; lia).
  rewrite !sum_const, !length_range.
  unfold size in Hsize.
  destruct (shape0 w) as [| h]; [lia |]. destruct (shape1 w) as [| k]; [lia |].
  replace (S h - 1) with h by lia. replace (S k - 1) with k by lia. nia.
Qed.

(** C10. The adjacency matrix of a rectangular window is built without
    error, is square of the size of the number of distinct values, and is
    symmetric. *)
Theorem adjacency_matrix_is_symmetric (w : grid) :
  rect w →
  ∃ M, ShdiLpi.adjacency_matrix_of w = Ok M
    ∧ square (length (np_unique w).1) M
    ∧ ∀ i k, entry M i k = entry M k i.
Proof.
  intros Hrect.
  destruct (adjacency_matrix_built w Hrect) as (M & Hrun & Hsq & _ & Hentry).
  exists M. split; [exact Hrun |]. split; [exact Hsq |].
  intros a b. rewrite !Hentry, !scan_directions.
  assert (∀ x y : nat, ind (x = a ∧ y = b) = ind (y = b ∧ x = a)) as Hswap.
  { intros x y. unfold ind. repeat case_decide; try reflexivity; exfalso; tauto. }
  rewrite (sum_ext
    (λ i, sum_list_with
       (λ j, ind (class_of w (i + 1, j)%Z = a ∧ class_of w (i, j) = b)) (range (shape1 w)))
    (λ i, sum_list_with
       (λ j, ind (class_of w (i, j) = b ∧ class_of w (i + 1, j)%Z = a)) (range (shape1 w))))
    by (intros i _; apply sum_ext; intros j _; apply Hswap).
  rewrite (sum_ext
    (λ i, sum_list_with
       (λ j, ind (class_of w (i, j) = a ∧ class_of w (i + 1, j)%Z = b)) (range (shape1 w)))
    (λ i, sum_list_with
       (λ j, ind (class_of w (i + 1, j)%Z = b ∧ class_of w (i, j) = a)) (range (shape1 w))))
    by (intros i _; apply sum_ext; intros j _; apply Hswap).
  rewrite (sum_ext
    (λ i, sum_list_with
       (λ j, ind (class_of w (i, j + 1)%Z = a ∧ class_of w (i, j) = b)) (range (shape1 w - 1)))
    (λ i, sum_list_with
       (λ j, ind (class_of w (i, j) = b ∧ class_of w (i, j + 1)%Z = a)) (range (shape1 w - 1))))
    by (intros i _; apply sum_ext; intros j _; apply Hswap).
  rewrite (sum_ext
    (λ i, sum_list_with
       (λ j, ind (class_of w (i, j) = a ∧ class_of w (i, j + 1)%Z = b)) (range (shape1 w - 1)))
    (λ i, sum_list_with
       (λ j, ind (class_of w (i, j + 1)%Z = b ∧ class_of w (i, j) = a)) (range (shape1 w - 1))))
    by (intros i _; apply sum_ext; intros j _; apply Hswap).
  lia.
Qed.

(** ** Floats over the reals *)

Lemma R_sign_pos (x : R) : (0 < x)%R → R_sign x = Gt.
Proof.
  intros Hx. unfold R_sign.
  destruct (total_order_T x 0) as [[Hlt | Heq] | Hgt]; [lra | lra | reflexivity].
Qed.

Lemma R_sign_zero (x : R) : x = 0%R → R_sign x = Eq.
Proof.
  intros Hx. unfold R_sign.
  destruct (total_order_T x 0) as [[Hlt | Heq] | Hgt]; [lra | reflexivity | lra].
Qed.

Lemma R_div_finite (x y : R) : (0 < y)%R → fl_div (Fin x) (Fin y) = Fin (x / y)%R.
Proof.
  intros Hy. unfold fl_div. cbn [c_sgn c_div R_carrier].
  rewrite (R_sign_pos y Hy). reflexivity.
Qed.

Lemma np_log_finite (x : R) : (0 < x)%R → np_log (Fin x) = Fin (ln x).
Proof. intros Hx. unfold np_log. rewrite (R_sign_pos x Hx). reflexivity. Qed.

Lemma INR_pos (n : nat) : 0 < n → (0 < INR n)%R.
Proof. intros Hn. apply lt_0_INR. lia. Qed.

Lemma foldl_fl_add_finite (xs : list R) (a : R) :
  foldl fl_add (Fin a) (Fin <$> xs) = Fin (a + R_sum_with (λ x, x) xs)%R.
Proof.
  revert a. induction xs as [| x xs IH]; intros a; csimpl.
  - f_equal. lra.
  - rewrite IH. f_equal. cbn [c_add R_carrier]. lra.
Qed.

Lemma fl_sum_finite (xs : list R) : fl_sum (Fin <$> xs) = Fin (R_sum_with (λ x, x) xs).
Proof.
  unfold fl_sum. cbn [c_zero R_carrier]. rewrite foldl_fl_add_finite. f_equal. lra.
Qed.

Lemma R_sum_fmap {A B} (h : A → B) (f : B → R) (l : list A) :
  R_sum_with f (h <$> l) = R_sum_with (λ x, f (h x)) l.
Proof.
  induction l as [| x l IH]; csimpl; [reflexivity | rewrite IH; reflexivity].
Qed.

Lemma R_sum_perm {A} (f : A → R) (l k : list A) :
  l ≡ₚ k → R_sum_with f l = R_sum_with f k.
Proof.
  induction 1 as [| x l k _ IH | x y l | l k1 k2 _ IH1 _ IH2]; cbn [R_sum_with foldr].
  - reflexivity.
  - fold (R_sum_with f l) (R_sum_with f k). rewrite IH. reflexivity.
  - lra.
  - congruence.
Qed.

(** ** Shares of the classes *)

Lemma np_unique_counts (g : grid) :
  (np_unique g).2 = occurrences (ravel g) <$> (np_unique g).1.
Proof.
  unfold np_unique. cbn [fst snd].
  rewrite (unique_counts_table (ravel g)) at 1.
  rewrite <- list_fmap_compose. reflexivity.
Qed.

Lemma np_unique_values (g : grid) : (np_unique g).1 ≡ₚ remove_dups (ravel g).
Proof.
  unfold np_unique. cbn [fst]. apply NoDup_Permutation.
  - apply unique_counts_NoDup.
  - apply NoDup_remove_dups.
  - intros x. rewrite unique_counts_keys, elem_of_remove_dups. reflexivity.
Qed.

Lemma occurrences_pos (px : list Z) (c : Z) : c ∈ px → 0 < occurrences px c.
Proof.
  intros Hc. unfold occurrences.
  destruct (filter (λ x, x = c) px) eqn:Hf; cbn [length]; [| lia].
  exfalso. eapply (filter_nil_not_elem_of (λ x, x = c)); [exact Hf | reflexivity | exact Hc].
Qed.

Lemma occurrences_absent (px : list Z) (c : Z) : c ∉ px → occurrences px c = 0.
Proof.
  unfold occurrences. induction px as [| x px IH]; intros Hc; [reflexivity |].
  apply not_elem_of_cons in Hc as [Hne Hc].
  rewrite filter_cons_False by congruence. apply IH, Hc.
Qed.

Lemma occurrences_le (px : list Z) (c : Z) : occurrences px c ≤ length px.
Proof. apply length_filter. Qed.

(** The term of one class in the sum of [_calculate_shdi]. *)
Lemma shdi_term (n N : nat) :
  0 < n → 0 < N →
  (let p := fl_div (Fin (INR n)) (Fin (INR N)) in fl_mul p (np_log p))
  = Fin (INR n / INR N * ln (INR n / INR N))%R.
Proof.
  intros Hn HN. cbv zeta.
  rewrite R_div_finite by (apply INR_pos, HN).
  rewrite np_log_finite; [reflexivity |].
  apply Rdiv_lt_0_compat; apply INR_pos; assumption.
Qed.

Lemma calculate_shdi_value (g : grid) :
  rect g → ShdiLpi._calculate_shdi g = Fin (shdi_of_all_values g).
Proof.
  intros Hrect. unfold ShdiLpi._calculate_shdi, ShdiLpi.proportions_of.
  destruct (np_unique g) as [unique counts] eqn:Hu.
  assert (counts = occurrences (ravel g) <$> unique) as ->.
  { pose proof (np_unique_counts g) as H. rewrite Hu in H. exact H. }
  assert (unique ≡ₚ remove_dups (ravel g)) as Hperm.
  { pose proof (np_unique_values g) as H. rewrite Hu in H. exact H. }
  rewrite <- !list_fmap_compose.
  rewrite (list_fmap_ext _
    (Fin ∘ (λ c, INR (occurrences (ravel g) c) / INR (length (ravel g))
                 * ln (INR (occurrences (ravel g) c) / INR (length (ravel g))))%R)
    unique).
  - rewrite list_fmap_compose, fl_sum_finite. cbn [fl_neg c_opp R_carrier].
    f_equal. unfold shdi_of_all_values, shannon.
    rewrite R_sum_fmap, (R_sum_perm _ _ _ Hperm). reflexivity.
  - intros k c Hc. cbn [compose].
    assert (c ∈ ravel g) as Hin.
    { apply elem_of_remove_dups. rewrite <- Hperm.
      eapply list_elem_of_lookup_2, Hc. }
    rewrite <- (length_ravel g Hrect).
    apply (shdi_term (occurrences (ravel g) c) (length (ravel g))).
    + apply occurrences_pos, Hin.
    + destruct (ravel g); [apply elem_of_nil in Hin; contradiction | cbn; lia].
Qed.

(** C1, with the nodata value as a class. For every rectangular window,
    [_calculate_shdi] returns the finite number [-Σ p_c ln p_c] summed over
    all the distinct pixel
    values of the window, the nodata value 255 being a class like the others
    when it is present, where [p_c] is the number of pixels of value [c] over
    the number of all the pixels of the window, nodata pixels included. On a
    window without nodata pixels this is the value the specification states. *)
Theorem shdi_sums_over_every_pixel_value (w : grid) :
  rect w →
  ShdiLpi._calculate_shdi w = Fin (shdi_of_all_values w)
  ∧ (Forall (λ x, x ≠ 255%Z) (ravel w) → shdi_of_all_values w = shdi_stated w).
Proof.
  intros Hrect. split; [apply calculate_shdi_value, Hrect |].
  intros Hvalid. unfold shdi_stated, shdi_of_all_values, valid_pixels.
  assert (filter (λ x, x ≠ 255%Z) (ravel w) = ravel w) as ->; [| reflexivity].
  induction Hvalid as [| x l Hx _ IH]; [reflexivity |].
  rewrite filter_cons_True by exact Hx. f_equal. exact IH.
Qed.

Lemma ln_half_neg : (ln (1 / 2) < 0)%R.
Proof. rewrite <- ln_1. apply ln_increasing; lra. Qed.

(** C1 in the words of the specification fails on the valid window
    [[1, 255]]: the code counts the nodata pixel as a class and in the
    denominator and returns [ln 2], where the stated formula gives 0. *)
Lemma shdi_stated_fails_on_nodata :
  rect window_1_nodata
  ∧ empty_or_nodata window_1_nodata = false
  ∧ ShdiLpi._calculate_shdi window_1_nodata ≠ Fin (shdi_stated window_1_nodata).
Proof.
  assert (rect window_1_nodata) as Hrect by (repeat constructor).
  split; [exact Hrect |]. split; [reflexivity |].
  rewrite (calculate_shdi_value _ Hrect).
  assert (shdi_of_all_values window_1_nodata
          = - (1 / 2 * ln (1 / 2) + (1 / 2 * ln (1 / 2) + 0)))%R as ->.
  { unfold shdi_of_all_values, shannon.
    change (remove_dups (ravel window_1_nodata)) with [1; 255]%Z.
    change (length (ravel window_1_nodata)) with 2.
    cbn [R_sum_with foldr].
    change (occurrences (ravel window_1_nodata) 1) with 1.
    change (occurrences (ravel window_1_nodata) 255) with 1.
    cbn [INR]. replace (1 + 1)%R with 2%R by lra. reflexivity. }
  assert (shdi_stated window_1_nodata = - (1 / 1 * ln (1 / 1) + 0))%R as ->.
  { unfold shdi_stated, shannon.
    change (remove_dups (valid_pixels window_1_nodata)) with [1]%Z.
    change (valid_pixels window_1_nodata) with [1]%Z.
    reflexivity. }
  intros Heq. injection Heq as Heq.
  replace (1 / 1)%R with 1%R in Heq by lra. rewrite ln_1 in Heq.
  pose proof ln_half_neg. lra.
Qed.

(** ** The largest count *)

Lemma max_with_ge {A} (f : A → nat) (l : list A) (x : A) :
  x ∈ l → f x ≤ max_list_with f l.
Proof.
  induction 1 as [x l | x y l _ IH]; cbn [max_list_with]; lia.
Qed.

Lemma max_with_le {A} (f : A → nat) (l : list A) (n : nat) :
  (∀ x, x ∈ l → f x ≤ n) → max_list_with f l ≤ n.
Proof.
  induction l as [| x l IH]; intros Hle; cbn [max_list_with]; [lia |].
  assert (f x ≤ n) by (apply Hle; left).
  assert (max_list_with f l ≤ n) by (apply IH; intros y Hy; apply Hle; right; exact Hy).
  lia.
Qed.

Lemma max_with_attained {A} (f : A → nat) (l : list A) :
  l ≠ [] → ∃ x, x ∈ l ∧ f x = max_list_with f l.
Proof.
  induction l as [| x l IH]; intros Hne; [contradiction |].
  cbn [max_list_with]. destruct l as [| y l].
  - exists x. split; [left | cbn; lia].
  - destruct IH as (z & Hz & Hfz); [discriminate |].
    destruct (decide (max_list_with f (y :: l) ≤ f x)).
    + exists x. split; [left | lia].
    + exists z. split; [right; exact Hz | lia].
Qed.

Lemma max_with_same_elements {A} (f : A → nat) (l k : list A) :
  (∀ x, x ∈ l ↔ x ∈ k) → max_list_with f l = max_list_with f k.
Proof.
  intros Hlk. apply Nat.le_antisymm; apply max_with_le; intros x Hx;
    apply max_with_ge, Hlk, Hx.
Qed.

Lemma max_list_fmap {A} (f : A → nat) (l : list A) :
  max_list (f <$> l) = max_list_with f l.
Proof. induction l as [| x l IH]; csimpl; [reflexivity | rewrite IH; reflexivity]. Qed.

Lemma calculate_lpi_value (g : grid) :
  rect g → size g ≠ 0 →
  ShdiLpi._calculate_lpi g (size g) = Ok (Fin (lpi_of_all_values g)).
Proof.
  intros Hrect Hsize. unfold ShdiLpi._calculate_lpi.
  pose proof (np_unique_counts g) as Hcounts.
  pose proof (np_unique_values g) as Hperm.
  destruct (np_unique g) as [unique counts]. cbn [fst snd] in *. subst counts.
  assert (ravel g ≠ []) as Hne.
  { intros Hnil. apply Hsize. rewrite <- (length_ravel g Hrect), Hnil. reflexivity. }
  destruct unique as [| c unique].
  { exfalso. destruct (ravel g) as [| x px]; [contradiction |].
    apply Permutation_nil_l in Hperm.
    assert (x ∈ remove_dups (x :: px)) as Hx by (apply elem_of_remove_dups; left).
    rewrite <- Hperm in Hx. apply elem_of_nil in Hx. exact Hx. }
  rewrite fmap_cons. cbn [ShdiLpi.np_max]. rewrite bind_Ok.
  rewrite R_div_finite by (apply INR_pos; lia).
  do 2 f_equal. unfold lpi_of_all_values. do 2 f_equal.
  rewrite <- fmap_cons, max_list_fmap. apply max_with_same_elements.
  intros x. rewrite Hperm. reflexivity.
Qed.

Lemma filter_all {A} (P : A → Prop) `{∀ x, Decision (P x)} (l : list A) :
  Forall P l → filter P l = l.
Proof.
  induction 1 as [| x l Hx _ IH]; [reflexivity |].
  rewrite filter_cons_True by exact Hx. f_equal. exact IH.
Qed.

(** C4, with the nodata value as a candidate. For every non-empty
    rectangular window, [_calculate_lpi] returns without error the finite number [largest / size], where
    [largest] is the largest pixel count among all the distinct pixel values
    of the window, the nodata value 255 being a candidate like the others,
    and [size] is the raw pixel count of the window; the number lies in
    [0, 1]. On a window without nodata pixels this is the value the
    specification states. *)
Theorem lpi_is_largest_count_over_size (w : grid) :
  rect w → size w ≠ 0 →
  let largest := max_list_with (occurrences (ravel w)) (remove_dups (ravel w)) in
  ShdiLpi._calculate_lpi w (size w) = Ok (Fin (INR largest / INR (size w))%R)
  ∧ (∃ c, c ∈ ravel w ∧ occurrences (ravel w) c = largest)
  ∧ (∀ c, occurrences (ravel w) c ≤ largest)
  ∧ (0 <= INR largest / INR (size w) <= 1)%R
  ∧ (Forall (λ x, x ≠ 255%Z) (ravel w) → lpi_of_all_values w = lpi_stated w).
Proof.
  intros Hrect Hsize largest.
  assert (ravel w ≠ []) as Hne.
  { intros Hnil. apply Hsize. rewrite <- (length_ravel w Hrect), Hnil. reflexivity. }
  assert (∀ c, occurrences (ravel w) c ≤ largest) as Hle.
  { intros c. destruct (decide (c ∈ ravel w)) as [Hc | Hc].
    - apply (max_with_ge (occurrences (ravel w))), elem_of_remove_dups, Hc.
    - rewrite (occurrences_absent _ _ Hc). lia. }
  assert (largest ≤ size w) as Hbound.
  { apply max_with_le. intros c _. rewrite <- (length_ravel w Hrect).
    apply occurrences_le. }
  split; [apply calculate_lpi_value; assumption |].
  split.
  { destruct (max_with_attained (occurrences (ravel w)) (remove_dups (ravel w)))
      as (c & Hc & Hmax).
    - destruct (ravel w) as [| x px]; [contradiction |].
      intros Hnil.
      assert (x ∈ remove_dups (x :: px)) as Hx by (apply elem_of_remove_dups; left).
      rewrite Hnil in Hx. apply elem_of_nil in Hx. exact Hx.
    - exists c. split; [apply elem_of_remove_dups, Hc | exact Hmax]. }
  split; [exact Hle |].
  split.
  { assert (0 < INR (size w))%R as Hpos by (apply INR_pos; lia).
    assert (0 <= INR largest)%R as H0 by apply pos_INR.
    assert (INR largest <= INR (size w))%R as H1 by (apply le_INR; lia).
    split.
    - apply Rmult_le_pos; [exact H0 |]. left. apply Rinv_0_lt_compat, Hpos.
    - apply (Rmult_le_reg_r (INR (size w))); [exact Hpos |].
      unfold Rdiv. rewrite Rmult_assoc, Rinv_l by lra. lra. }
  intros Hvalid. unfold lpi_of_all_values, lpi_stated, valid_pixels.
  rewrite (filter_all _ _ Hvalid). reflexivity.
Qed.

(** C4 in the words of the specification fails on the valid window
    [[255, 255, 1]]: the largest count is that of the nodata value, so the code returns 2/3 where the
    stated formula gives 1/3. *)
Lemma lpi_stated_fails_on_nodata :
  rect window_nodata_nodata_1
  ∧ empty_or_nodata window_nodata_nodata_1 = false
  ∧ ShdiLpi._calculate_lpi window_nodata_nodata_1 (size window_nodata_nodata_1)
    ≠ Ok (Fin (lpi_stated window_nodata_nodata_1)).
Proof.
  assert (rect window_nodata_nodata_1) as Hrect by (repeat constructor).
  split; [exact Hrect |]. split; [reflexivity |].
  rewrite (calculate_lpi_value _ Hrect) by discriminate.
  unfold lpi_of_all_values, lpi_stated.
  change (max_list_with (occurrences (ravel window_nodata_nodata_1))
            (remove_dups (ravel window_nodata_nodata_1))) with 2.
  change (max_list_with (occurrences (ravel window_nodata_nodata_1))
            (remove_dups (valid_pixels window_nodata_nodata_1))) with 1.
  change (size window_nodata_nodata_1) with 3.
  intros Heq. injection Heq as Heq. cbn [INR] in Heq. lra.
Qed.

(** ** Contagion of a window with one class *)

Lemma R_div_zero_by_zero (x y : R) :
  x = 0%R → y = 0%R → fl_div (Fin x) (Fin y) = NaN.
Proof.
  intros Hx Hy. unfold fl_div. cbn [c_sgn R_carrier].
  rewrite (R_sign_zero y Hy), (R_sign_zero x Hx). reflexivity.
Qed.

Lemma contag_divisor_one : ShdiLpi.contag_divisor 1 = Fin (2 * ln 1)%R.
Proof.
  unfold ShdiLpi.contag_divisor. cbn [INR].
  rewrite np_log_finite by lra. reflexivity.
Qed.

Lemma np_unique_single (g : grid) (c : Z) :
  rect g → size g ≠ 0 → Forall (λ x, x = c) (ravel g) →
  np_unique g = ([c], [size g]).
Proof.
  intros Hrect Hsize Hall. unfold np_unique.
  rewrite (unique_counts_single (ravel g) c), (length_ravel g Hrect); [reflexivity | | exact Hall].
  intros Hnil. apply Hsize. rewrite <- (length_ravel g Hrect), Hnil. reflexivity.
Qed.

Lemma square_one (M : list (list nat)) : square 1 M → ∃ x, M = [[x]].
Proof.
  intros [Hlen Hrows].
  destruct M as [| row [| row' M]]; try discriminate.
  apply Forall_cons in Hrows as [Hrow _].
  destruct row as [| x [| y row]]; try discriminate.
  exists x. reflexivity.
Qed.

(** The double sum over a one by one matrix: its only term is [1 * ln 1]. *)
Lemma contag_sum_single (N x : nat) :
  0 < N →
  ∃ z, ShdiLpi.contag_sum 1 [Fin (INR N / INR N)%R] [[x]] x = Ok (Fin z) ∧ z = 0%R.
Proof.
  intros HN. unfold ShdiLpi.contag_sum.
  change (range 1) with [0%Z]. cbn [forM].
  assert (INR N / INR N = 1)%R as Hp.
  { apply Rdiv_diag. apply not_0_INR. lia. }
  destruct (decide (0 < x)) as [Hx | Hx].
  - rewrite bool_decide_eq_true_2 by exact Hx.
    change (getitem [Fin (INR N / INR N)%R] 0) with (Ok (Fin (A := R) (INR N / INR N)%R)).
    change (getitem2 [[x]] 0 0) with (Ok x).
    rewrite !bind_Ok.
    rewrite R_div_finite by (apply INR_pos, Hx).
    assert (INR x / INR x = 1)%R as Hq.
    { apply Rdiv_diag. apply not_0_INR. lia. }
    cbn [fl_mul c_mul R_carrier]. rewrite Hp, Hq.
    replace (1 * 1)%R with 1%R by lra.
    cbn [fl_gt0 c_sgn R_carrier]. rewrite (R_sign_pos 1) by lra. cbn [is_pos].
    rewrite np_log_finite by lra. rewrite ln_1.
    cbn [fl_mul fl_add c_mul c_add R_carrier]. rewrite !bind_Ok.
    eexists. split; [reflexivity | lra].
  - rewrite bool_decide_eq_false_2 by exact Hx. rewrite !bind_Ok.
    eexists. split; reflexivity.
Qed.

(** C2. In a non-empty rectangular window whose pixels all carry one value,
    the number [m] of distinct values is 1, the divisor [2 * np.log(m)] is the
    float zero, the scan and the double sum run without error up to the
    division, whose dividend is zero as well, and [_calculate_contag] returns
    nan: not a finite number. *)
Theorem contag_of_one_class_window_is_nan (w : grid) (c : Z) :
  rect w → size w ≠ 0 → Forall (λ x, x = c) (ravel w) →
  length (np_unique w).1 = 1
  ∧ ShdiLpi.contag_divisor (length (np_unique w).1) = Fin 0%R
  ∧ (∃ adjacency_matrix contag,
       ShdiLpi.adjacency_matrix_of w = Ok adjacency_matrix
       ∧ ShdiLpi.contag_sum 1 (ShdiLpi.proportions_of (np_unique w).2 (size w))
           adjacency_matrix (np_sum adjacency_matrix) = Ok contag
       ∧ fl_div contag (ShdiLpi.contag_divisor 1) = NaN)
  ∧ ShdiLpi._calculate_contag w (size w) = Ok NaN.
Proof.
  intros Hrect Hsize Hall.
  pose proof (np_unique_single w c Hrect Hsize Hall) as Hu.
  destruct (adjacency_matrix_built w Hrect) as (M & Hrun & Hsq & _ & _).
  rewrite Hu in Hsq. cbn [fst length] in Hsq.
  destruct (square_one M Hsq) as [x ->].
  assert (np_sum [[x]] = x) as Hsum by (cbn; lia).
  assert (ShdiLpi.proportions_of [size w] (size w) = [Fin (INR (size w) / INR (size w))%R])
    as Hprop.
  { unfold ShdiLpi.proportions_of. cbn [fmap list_fmap].
    rewrite R_div_finite by (apply INR_pos; lia). reflexivity. }
  destruct (contag_sum_single (size w) x) as (z & Hz & Hz0); [lia |].
  assert (fl_div (Fin z) (ShdiLpi.contag_divisor 1) = NaN) as Hnan.
  { rewrite contag_divisor_one. apply R_div_zero_by_zero; [exact Hz0 |].
    rewrite ln_1. lra. }
  rewrite Hu. cbn [fst snd length].
  split; [reflexivity |].
  split; [rewrite contag_divisor_one, ln_1; f_equal; lra |].
  split.
  { exists [[x]], (Fin z). rewrite Hprop, Hsum. auto. }
  unfold ShdiLpi._calculate_contag. rewrite Hu. cbn [length].
  rewrite adjacency_matrix_of_scan, Hu in Hrun. cbn [fst length] in Hrun.
  rewrite Hrun, bind_Ok, Hprop, Hsum, Hz, bind_Ok, Hnan. reflexivity.
Qed.

(** ** The windows that reach the metric functions *)




(** ** The scenarios of the specification *)

Example four_blocks_counts :
  np_unique four_blocks = ([1; 2; 3; 4]%Z, [4; 4; 4; 4]).
Proof. reflexivity. Qed.

Example four_blocks_adjacency :
  ShdiLpi.adjacency_matrix_of four_blocks
  = Ok [[8; 2; 2; 0]; [2; 8; 0; 2]; [2; 0; 8; 2]; [0; 2; 2; 8]].
Proof. vm_compute. reflexivity. Qed.

Example four_blocks_patch_density :
  PdEd.patch_density four_blocks 1 (thirty * thirty) (Qc_of_nat 16 * (thirty * thirty))
  = Fin (Q2Qc (1 # 4)).
Proof.
  unfold PdEd.patch_density. rewrite Qc_div_finite.
  - f_equal; apply Qc_is_canon; vm_compute; reflexivity.
  - intros H. apply (f_equal this) in H. vm_compute in H. discriminate.
Qed.

Example all_fives_edge_length :
  PdEd._calculate_edge_length all_fives 5 thirty thirty = Ok 0%Qc.
Proof.
  rewrite edge_length_loop by (repeat constructor).
  f_equal; apply Qc_is_canon; vm_compute; reflexivity.
Qed.

Example four_blocks_edge_length :
  PdEd._calculate_edge_length four_blocks 1 thirty thirty = Ok (Q2Qc (120 # 1)).
Proof.
  rewrite edge_length_loop by (repeat constructor).
  f_equal; apply Qc_is_canon; vm_compute; reflexivity.
Qed.

Example zone_west_window :
  zone_window four_blocks utm49 zone_west = Ok None.
Proof. vm_compute. reflexivity. Qed.

(** ** The properties at concrete inputs *)

Lemma four_blocks_rect : rect four_blocks.
Proof. repeat constructor. Defined.

Lemma all_fives_rect : rect all_fives.
Proof. repeat constructor. Defined.

Lemma four_blocks_classified : Forall (λ v, (1 ≤ v ≤ 6)%Z) (ravel four_blocks).
Proof. repeat constructor; lia. Defined.

Lemma four_blocks_no_nodata : Forall (λ x, x ≠ 255%Z) (ravel four_blocks).
Proof. repeat constructor; discriminate. Defined.

Lemma all_fives_one_class : Forall (λ x, x = 5%Z) (ravel all_fives).
Proof. repeat constructor. Defined.

Lemma thirty_squared_nonzero : (thirty * thirty)%Qc ≠ 0%Qc.
Proof. intros H. apply (f_equal this) in H. vm_compute in H. discriminate. Defined.

Lemma shdi_sums_over_every_pixel_value_witness :
  ShdiLpi._calculate_shdi four_blocks = Fin (shdi_of_all_values four_blocks)
  ∧ shdi_of_all_values four_blocks = shdi_stated four_blocks.
Proof.
  destruct (shdi_sums_over_every_pixel_value four_blocks four_blocks_rect)
    as [Hcode Hstated].
  split; [exact Hcode | exact (Hstated four_blocks_no_nodata)].
Defined.

Lemma contag_of_one_class_window_is_nan_witness :
  ShdiLpi.contag_divisor (length (np_unique all_fives).1) = Fin 0%R
  ∧ ShdiLpi._calculate_contag all_fives (size all_fives) = Ok NaN.
Proof.
  destruct (contag_of_one_class_window_is_nan all_fives 5%Z all_fives_rect)
    as (_ & Hdiv & _ & Hnan); [discriminate | exact all_fives_one_class |].
  split; [exact Hdiv | exact Hnan].
Defined.

Lemma invalid_window_gives_nan_row_witness :
  PdEd.zone_row four_blocks utm49 thirty thirty zone_west = Ok PdEd.nan_row
  ∧ ShdiLpi.zone_row four_blocks utm49 zone_west = Ok ShdiLpi.nan_row
  ∧ eachM (ShdiLpi.zone_row four_blocks utm49) [zone_west; zone_inside]
    = (cons ShdiLpi.nan_row) <$> eachM (ShdiLpi.zone_row four_blocks utm49) [zone_inside].
Proof.
  edestruct (invalid_window_gives_nan_row four_blocks utm49 thirty thirty
               zone_west [zone_inside])
    as [(Hpd & _) (Hsh & _ & Hloop)].
  - reflexivity.
  - left. left. vm_compute. reflexivity.
  - split; [exact Hpd |]. split; [exact Hsh | exact Hloop].
Defined.

Lemma lpi_is_largest_count_over_size_witness :
  ShdiLpi._calculate_lpi four_blocks (size four_blocks)
  = Ok (Fin (INR (max_list_with (occurrences (ravel four_blocks))
                                (remove_dups (ravel four_blocks)))
             / INR (size four_blocks))%R)
  ∧ lpi_of_all_values four_blocks = lpi_stated four_blocks.
Proof.
  destruct (lpi_is_largest_count_over_size four_blocks four_blocks_rect)
    as (Hcode & _ & _ & _ & Hstated); [discriminate |].
  split; [exact Hcode | exact (Hstated four_blocks_no_nodata)].
Defined.

Lemma four_blocks_area_nonzero :
  (Qc_of_nat (size four_blocks) * (thirty * thirty))%Qc ≠ 0%Qc.
Proof. intros H. apply (f_equal this) in H. vm_compute in H. discriminate. Defined.

Lemma edge_density_is_edge_length_over_area_witness :
  PdEd._calculate_edge_length four_blocks 1 thirty thirty
  = Ok (Spec.edge_length four_blocks 1 thirty thirty)
  ∧ (∃ row, PdEd.window_metrics four_blocks thirty thirty = Ok row
       ∧ PdEd.ED row !! 1%Z
         = Some (Fin (Spec.edge_length four_blocks 1 thirty thirty
                      / (Qc_of_nat (size four_blocks) * (thirty * thirty)))%Qc))
  ∧ PdEd.window_metrics four_blocks 0 thirty = Raise ZeroDivisionError.
Proof.
  destruct (edge_density_is_edge_length_over_area four_blocks thirty thirty 1
              four_blocks_rect) as (Hcode & Hrow & _); [lia |].
  destruct (edge_density_is_edge_length_over_area four_blocks 0 thirty 1
              four_blocks_rect) as (_ & _ & Hzero); [lia |].
  split; [exact Hcode |].
  split; [exact (Hrow four_blocks_area_nonzero) |].
  apply Hzero. apply Qc_is_canon. vm_compute. reflexivity.
Defined.

Lemma patch_densities_sum_to_one_witness :
  ∃ row, PdEd.window_metrics four_blocks thirty thirty = Ok row.
Proof.
  destruct (patch_densities_sum_to_one four_blocks thirty thirty four_blocks_rect)
    as (row & Hrow & _).
  - discriminate.
  - exact thirty_squared_nonzero.
  - exact four_blocks_classified.
  - exists row. exact Hrow.
Defined.

Lemma adjacency_sum_is_twice_the_adjacent_pairs_witness :
  ∃ M, ShdiLpi.adjacency_matrix_of four_blocks = Ok M
    ∧ Z.of_nat (np_sum M) = 48%Z.
Proof.
  destruct (adjacency_sum_is_twice_the_adjacent_pairs four_blocks four_blocks_rect)
    as (M & Hrun & Hsum); [discriminate |].
  exists M. split; [exact Hrun | exact Hsum].
Defined.

Lemma mismatched_raster_fails_on_unbound_meta_witness :
  PdEd._calculate_metrics warp_returns relabel raster_wgs84 fishnet_two_zones
  = Raise (UnboundLocalError "meta")
  ∧ ShdiLpi._calculate_metrics warp_returns relabel raster_wgs84 fishnet_two_zones
    = Raise (UnboundLocalError "meta").
Proof.
  apply (mismatched_raster_fails_on_unbound_meta warp_returns relabel
           raster_wgs84 fishnet_two_zones).
  discriminate.
Defined.

Lemma crs_check_never_fires_witness :
  check_crs (meta_copy raster_utm49) = Ok ()
  ∧ ∃ e, _load_raster warp_raises raster_wgs84 = Raise e.
Proof.
  destruct (crs_check_never_fires warp_raises relabel raster_utm49 fishnet_two_zones)
    as (Hret & _).
  destruct (crs_check_never_fires warp_raises relabel raster_wgs84 fishnet_two_zones)
    as (_ & Hraise & _).
  split.
  - apply (Hret (ds_band1 raster_utm49) (meta_copy raster_utm49)). reflexivity.
  - apply Hraise. discriminate.
Defined.

Lemma adjacency_matrix_is_symmetric_witness :
  ∃ M, ShdiLpi.adjacency_matrix_of four_blocks = Ok M
    ∧ ∀ i k, entry M i k = entry M k i.
Proof.
  destruct (adjacency_matrix_is_symmetric four_blocks four_blocks_rect)
    as (M & Hrun & _ & Hsym).
  exists M. split; [exact Hrun | exact Hsym].
Defined.

(** * Further properties of the two scripts *)

(** ** Sums of reals over lists *)

Lemma R_sum_ext {A} (f h : A → R) (l : list A) :
  (∀ x, x ∈ l → f x = h x) → R_sum_with f l = R_sum_with h l.
Proof.
  induction l as [| x l IH]; intros Hfh; cbn [R_sum_with foldr]; [reflexivity |].
  fold (R_sum_with f l) (R_sum_with h l).
  rewrite (Hfh x) by left. rewrite IH; [reflexivity |].
  intros y Hy. apply Hfh. right. exact Hy.
Qed.

Lemma R_sum_le {A} (f h : A → R) (l : list A) :
  (∀ x, x ∈ l → (f x <= h x)%R) → (R_sum_with f l <= R_sum_with h l)%R.
Proof.
  induction l as [| x l IH]; intros Hfh; cbn [R_sum_with foldr]; [lra |].
  fold (R_sum_with f l) (R_sum_with h l).
  assert (f x <= h x)%R by (apply Hfh; left).
  assert (R_sum_with f l <= R_sum_with h l)%R
    by (apply IH; intros y Hy; apply Hfh; right; exact Hy).
  lra.
Qed.

Lemma R_sum_plus {A} (f h : A → R) (l : list A) :
  R_sum_with (λ x, f x + h x)%R l = (R_sum_with f l + R_sum_with h l)%R.
Proof.
  induction l as [| x l IH]; cbn [R_sum_with foldr]; [lra |].
  fold (R_sum_with (λ x, f x + h x)%R l) (R_sum_with f l) (R_sum_with h l).
  rewrite IH. lra.
Qed.

Lemma R_sum_scale {A} (k : R) (f : A → R) (l : list A) :
  R_sum_with (λ x, k * f x)%R l = (k * R_sum_with f l)%R.
Proof.
  induction l as [| x l IH]; cbn [R_sum_with foldr]; [lra |].
  fold (R_sum_with (λ x, k * f x)%R l) (R_sum_with f l). rewrite IH. lra.
Qed.

Lemma R_sum_const {A} (k : R) (l : list A) :
  R_sum_with (λ _, k) l = (INR (length l) * k)%R.
Proof.
  induction l as [| x l IH]; [cbn; lra |].
  cbn [R_sum_with foldr]. fold (R_sum_with (λ _ : A, k) l).
  rewrite IH. cbn [length]. rewrite S_INR. lra.
Qed.

Lemma R_sum_INR {A} (f : A → nat) (l : list A) :
  R_sum_with (λ x, INR (f x)) l = INR (sum_list_with f l).
Proof.
  induction l as [| x l IH]; [reflexivity |].
  cbn [R_sum_with foldr sum_list_with]. fold (R_sum_with (λ x, INR (f x)) l).
  rewrite IH, plus_INR. reflexivity.
Qed.

(** A sum of non-positive terms that vanishes has only zero terms. *)
Lemma R_sum_nonpos_zero {A} (f : A → R) (l : list A) :
  (∀ x, x ∈ l → (f x <= 0)%R) → R_sum_with f l = 0%R → ∀ x, x ∈ l → f x = 0%R.
Proof.
  induction l as [| y l IH]; intros Hle Hsum x Hx.
  - apply elem_of_nil in Hx. contradiction.
  - cbn [R_sum_with foldr] in Hsum. fold (R_sum_with f l) in Hsum.
    assert (f y <= 0)%R by (apply Hle; left).
    assert (R_sum_with f l <= 0)%R.
    { rewrite <- (Rmult_0_r (INR (length l))), <- R_sum_const.
      apply R_sum_le. intros z Hz. apply Hle. right. exact Hz. }
    apply elem_of_cons in Hx as [-> | Hx]; [lra |].
    apply IH; [| lra | exact Hx].
    intros z Hz. apply Hle. right. exact Hz.
Qed.

(** ** The shares of the classes of a window *)

Lemma sum_ind_member (ks : list Z) (x : Z) :
  NoDup ks → x ∈ ks → sum_list_with (λ c, ind (x = c)) ks = 1.
Proof.
  unfold ind. induction 1 as [| k ks Hk Hnd IH]; intros Hx.
  - apply elem_of_nil in Hx. contradiction.
  - cbn [sum_list_with]. apply elem_of_cons in Hx as [-> | Hx].
    + rewrite decide_True by reflexivity.
      rewrite (sum_ext _ (λ _, 0)), sum_zero; [lia |].
      intros c Hc. case_decide; [subst; contradiction | reflexivity].
    + rewrite decide_False by (intros ->; contradiction).
      rewrite IH by exact Hx. lia.
Qed.

(** The counts of the distinct values add up to the number of pixels. *)
Lemma occurrences_total (ks px : list Z) :
  NoDup ks → (∀ x, x ∈ px → x ∈ ks) →
  sum_list_with (occurrences px) ks = length px.
Proof.
  intros Hnd. induction px as [| x px IH]; intros Hin.
  - unfold occurrences. cbn. apply sum_zero.
  - rewrite (sum_ext _ (λ c, occurrences px c + ind (x = c))).
    + rewrite sum_plus, IH, sum_ind_member; [cbn [length]; lia | exact Hnd | |].
      * apply Hin. left.
      * intros y Hy. apply Hin. right. exact Hy.
    + intros c _. unfold occurrences, ind. rewrite filter_cons.
      repeat case_decide; cbn [length]; congruence || lia.
Qed.

Lemma occurrences_all (px : list Z) (c : Z) :
  occurrences px c = length px ↔ Forall (λ x, x = c) px.
Proof.
  unfold occurrences. induction px as [| x px IH]; [split; [constructor | reflexivity] |].
  rewrite filter_cons. pose proof (length_filter (λ y, y = c) px) as Hle.
  case_decide; cbn [length]; split.
  - intros [= Hlen]. constructor; [assumption | apply IH, Hlen].
  - intros Hall. apply Forall_cons in Hall as [_ Hall]. f_equal. apply IH, Hall.
  - intros Hlen. lia.
  - intros Hall. apply Forall_cons in Hall as [Hx _]. contradiction.
Qed.

Lemma remove_dups_uniform (px : list Z) (c : Z) :
  px ≠ [] → Forall (λ x, x = c) px → remove_dups px = [c].
Proof.
  intros Hne Hall. induction Hall as [| x px -> Hall IH]; [contradiction |].
  cbn [remove_dups]. destruct px as [| y px].
  - reflexivity.
  - destruct (decide_rel elem_of c (y :: px)) as [_ | Hnot].
    + apply IH. discriminate.
    + exfalso. apply Hnot. apply Forall_cons in Hall as [-> _]. left.
Qed.

Lemma share_bounds (px : list Z) (c : Z) :
  c ∈ px →
  (0 < INR (occurrences px c) / INR (length px) <= 1)%R.
Proof.
  intros Hc.
  pose proof (occurrences_pos px c Hc) as Hpos.
  pose proof (occurrences_le px c) as Hle.
  assert (0 < INR (occurrences px c))%R by (apply INR_pos, Hpos).
  assert (0 < INR (length px))%R by (apply INR_pos; lia).
  assert (INR (occurrences px c) <= INR (length px))%R by (apply le_INR, Hle).
  split.
  - apply Rdiv_lt_0_compat; assumption.
  - apply (Rmult_le_reg_r (INR (length px))); [assumption |].
    unfold Rdiv. rewrite Rmult_assoc, Rinv_l by lra. lra.
Qed.

Lemma shares_total (px : list Z) :
  px ≠ [] →
  R_sum_with (λ c, INR (occurrences px c) / INR (length px))%R (remove_dups px) = 1%R.
Proof.
  intros Hne.
  assert (0 < INR (length px))%R.
  { apply INR_pos. destruct px; [contradiction | cbn; lia]. }
  rewrite (R_sum_ext _ (λ c, / INR (length px) * INR (occurrences px c))%R)
    by (intros c _; unfold Rdiv; lra).
  rewrite R_sum_scale, R_sum_INR, occurrences_total.
  - apply Rinv_l. lra.
  - apply NoDup_remove_dups.
  - intros x Hx. apply elem_of_remove_dups, Hx.
Qed.

Lemma ln_le_minus_1 (x : R) : (0 < x)%R → (ln x <= x - 1)%R.
Proof.
  intros Hx. pose proof (exp_ineq1_le (x - 1)) as Hexp.
  destruct (Rle_lt_or_eq_dec _ _ Hexp) as [Hlt | Heq].
  - left. rewrite <- (ln_exp (x - 1)). apply ln_increasing; lra.
  - right. rewrite <- (ln_exp (x - 1)). f_equal. lra.
Qed.

Lemma p_ln_p_nonpos (p : R) : (0 < p <= 1)%R → (p * ln p <= 0)%R.
Proof.
  intros [Hp0 Hp1]. pose proof (ln_le_minus_1 p Hp0). nra.
Qed.

Lemma p_ln_p_zero (p : R) : (0 < p)%R → (p * ln p)%R = 0%R → p = 1%R.
Proof.
  intros Hp Hz. apply Rmult_integral in Hz as [Hz | Hz]; [lra |].
  apply ln_inv; [exact Hp | lra | rewrite ln_1; exact Hz].
Qed.

Lemma ravel_nonempty (g : grid) : rect g → size g ≠ 0 → ravel g ≠ [].
Proof.
  intros Hrect Hsize Hnil. apply Hsize.
  rewrite <- (length_ravel g Hrect), Hnil. reflexivity.
Qed.

(** X1. The Shannon index that [_calculate_shdi] returns for a non-empty
    rectangular window is a finite non-negative number, and it is zero
    exactly when all the pixels of the window carry the same value. *)
Theorem shdi_nonnegative_and_zero_iff_uniform (w : grid) :
  rect w → size w ≠ 0 →
  ∃ s, ShdiLpi._calculate_shdi w = Fin s
    ∧ (0 <= s)%R
    ∧ (s = 0%R ↔ ∃ c, Forall (λ x, x = c) (ravel w)).
Proof.
  intros Hrect Hsize.
  pose proof (ravel_nonempty w Hrect Hsize) as Hne.
  exists (shdi_of_all_values w). split; [apply calculate_shdi_value, Hrect |].
  unfold shdi_of_all_values, shannon. cbv zeta.
  set (term := λ c : Z, (INR (occurrences (ravel w) c) / INR (length (ravel w))
                         * ln (INR (occurrences (ravel w) c) / INR (length (ravel w))))%R).
  assert (∀ c, c ∈ remove_dups (ravel w) → (term c <= 0)%R) as Hterm.
  { intros c Hc. apply p_ln_p_nonpos, share_bounds, elem_of_remove_dups, Hc. }
  assert (R_sum_with term (remove_dups (ravel w)) <= 0)%R as Hsum.
  { rewrite <- (Rmult_0_r (INR (length (remove_dups (ravel w))))), <- R_sum_const.
    apply R_sum_le. exact Hterm. }
  split; [lra |]. split.
  - intros Hzero.
    destruct (ravel w) as [| x px] eqn:Hpx; [contradiction |]. exists x.
    apply occurrences_all.
    assert (term x = 0%R) as Hx.
    { apply (R_sum_nonpos_zero term (remove_dups (x :: px))); [exact Hterm | lra |].
      apply elem_of_remove_dups. left. }
    apply p_ln_p_zero in Hx; [| apply share_bounds; left].
    apply INR_eq. apply (Rmult_eq_reg_r (/ INR (length (x :: px)))).
    + rewrite Rinv_r by (apply not_0_INR; discriminate). exact Hx.
    + apply Rinv_neq_0_compat, not_0_INR. discriminate.
  - intros [c Hall].
    rewrite (remove_dups_uniform (ravel w) c Hne Hall).
    cbn [R_sum_with foldr]. subst term. cbv beta.
    rewrite (proj2 (occurrences_all (ravel w) c) Hall).
    rewrite Rdiv_diag, ln_1 by (apply not_0_INR; destruct (ravel w); [contradiction | discriminate]).
    lra.
Qed.

Lemma class_number (g : grid) :
  length (np_unique g).1 = length (remove_dups (ravel g)).
Proof. apply Permutation_length, np_unique_values. Qed.

Lemma class_number_pos (g : grid) : ravel g ≠ [] → 0 < length (remove_dups (ravel g)).
Proof.
  intros Hne. destruct (ravel g) as [| x px]; [contradiction |].
  assert (x ∈ remove_dups (x :: px)) as Hx by (apply elem_of_remove_dups; left).
  destruct (remove_dups (x :: px)); [apply elem_of_nil in Hx; contradiction | cbn; lia].
Qed.

(** One term of the entropy against the uniform share [1 / M]. *)
Lemma entropy_term_bound (p M : R) :
  (0 < p)%R → (0 < M)%R → (p - / M - p * ln M <= p * ln p)%R.
Proof.
  intros Hp HM.
  assert (0 < / (M * p))%R as Hinv by (apply Rinv_0_lt_compat; nra).
  pose proof (ln_le_minus_1 (/ (M * p)) Hinv) as Hln.
  rewrite ln_Rinv, ln_mult in Hln by nra.
  assert (p * / (M * p) = / M)%R as Hq by (field; lra).
  nra.
Qed.

(** X2. The Shannon index of a non-empty rectangular window is at most the
    logarithm of the number [m] of distinct pixel values of the window, and
    it is that logarithm when every value holds the same number of pixels. *)
Theorem shdi_at_most_ln_of_class_number (w : grid) :
  rect w → size w ≠ 0 →
  ∃ s, ShdiLpi._calculate_shdi w = Fin s
    ∧ (s <= ln (INR (length (np_unique w).1)))%R
    ∧ ((∀ c, c ∈ ravel w →
          occurrences (ravel w) c * length (np_unique w).1 = size w) →
       s = ln (INR (length (np_unique w).1))).
Proof.
  intros Hrect Hsize.
  pose proof (ravel_nonempty w Hrect Hsize) as Hne.
  pose proof (class_number_pos w Hne) as Hm.
  exists (shdi_of_all_values w). split; [apply calculate_shdi_value, Hrect |].
  rewrite class_number, <- (length_ravel w Hrect).
  unfold shdi_of_all_values, shannon. cbv zeta.
  set (px := ravel w) in *. set (m := length (remove_dups px)) in *.
  assert (0 < INR m)%R as HM by (apply INR_pos, Hm).
  assert (0 < INR (length px))%R as HN.
  { apply INR_pos. destruct px; [contradiction | cbn; lia]. }
  split.
  - assert (R_sum_with (λ c, INR (occurrences px c) / INR (length px) - / INR m
                             - INR (occurrences px c) / INR (length px) * ln (INR m))%R
                       (remove_dups px)
            <= R_sum_with (λ c, INR (occurrences px c) / INR (length px)
                                * ln (INR (occurrences px c) / INR (length px)))%R
                          (remove_dups px))%R as Hle.
    { apply R_sum_le. intros c Hc. apply entropy_term_bound; [| exact HM].
      apply share_bounds, elem_of_remove_dups, Hc. }
    rewrite (R_sum_ext _ (λ c, (INR (occurrences px c) / INR (length px)
                                + - / INR m)
                               + - ln (INR m) * (INR (occurrences px c) / INR (length px)))%R)
      in Hle by (intros c _; lra).
    rewrite !R_sum_plus, R_sum_scale, R_sum_const, (shares_total px Hne) in Hle.
    fold m in Hle.
    assert (INR m * - / INR m = -1)%R as Hcancel by (field; lra).
    lra.
  - intros Heq.
    rewrite (R_sum_ext _ (λ _, / INR m * ln (/ INR m))%R).
    + rewrite R_sum_const. fold m. rewrite ln_Rinv by exact HM.
      field. lra.
    + intros c Hc. rewrite elem_of_remove_dups in Hc.
      assert (INR (occurrences px c) / INR (length px) = / INR m)%R as ->; [| reflexivity].
      specialize (Heq c Hc). apply (f_equal INR) in Heq. rewrite mult_INR in Heq.
      apply (Rmult_eq_reg_r (INR m)); [| lra].
      rewrite Rinv_l by lra. unfold Rdiv.
      rewrite Rmult_assoc, (Rmult_comm (/ _)), <- Rmult_assoc, Heq.
      apply Rinv_r. lra.
Qed.

(** ** The largest patch index *)

Lemma sum_le_length_max {A} (f : A → nat) (l : list A) :
  sum_list_with f l ≤ length l * max_list_with f l.
Proof.
  induction l as [| x l IH]; cbn [sum_list_with length max_list_with]; [lia |].
  nia.
Qed.

(** X3. The largest patch index of a non-empty rectangular window is a
    finite number between [1 / m] and 1, [m] being the number of distinct
    pixel values, and it is 1 exactly when all the pixels carry the same
    value. *)
Theorem lpi_between_inverse_class_number_and_one (w : grid) :
  rect w → size w ≠ 0 →
  ∃ l, ShdiLpi._calculate_lpi w (size w) = Ok (Fin l)
    ∧ (/ INR (length (np_unique w).1) <= l <= 1)%R
    ∧ (l = 1%R ↔ ∃ c, Forall (λ x, x = c) (ravel w)).
Proof.
  intros Hrect Hsize.
  pose proof (ravel_nonempty w Hrect Hsize) as Hne.
  pose proof (class_number_pos w Hne) as Hm.
  exists (lpi_of_all_values w). split; [apply calculate_lpi_value; assumption |].
  rewrite class_number. unfold lpi_of_all_values.
  rewrite <- (length_ravel w Hrect).
  set (px := ravel w) in *. set (m := length (remove_dups px)) in *.
  set (largest := max_list_with (occurrences px) (remove_dups px)).
  assert (0 < length px) as HN by (destruct px; [contradiction | cbn; lia]).
  assert (largest ≤ length px) as Hle.
  { apply max_with_le. intros c _. apply occurrences_le. }
  assert (length px ≤ m * largest) as Hge.
  { rewrite <- (occurrences_total (remove_dups px) px).
    - apply sum_le_length_max.
    - apply NoDup_remove_dups.
    - intros x Hx. apply elem_of_remove_dups, Hx. }
  assert (0 < INR (length px))%R as HNr by (apply INR_pos, HN).
  assert (0 < INR m)%R as HMr by (apply INR_pos, Hm).
  apply le_INR in Hle, Hge. rewrite mult_INR in Hge.
  split; [split |].
  - apply (Rmult_le_reg_r (INR m * INR (length px))); [nra |].
    replace (/ INR m * (INR m * INR (length px)))%R with (INR (length px)) by (field; lra).
    replace (INR largest / INR (length px) * (INR m * INR (length px)))%R
      with (INR m * INR largest)%R by (field; lra).
    exact Hge.
  - apply (Rmult_le_reg_r (INR (length px))); [exact HNr |].
    unfold Rdiv. rewrite Rmult_assoc, Rinv_l by lra. lra.
  - split.
    + intros Hone.
      assert (largest = length px) as Heq.
      { apply INR_eq. apply (Rmult_eq_reg_r (/ INR (length px))).
        - rewrite Rinv_r by lra. exact Hone.
        - apply Rinv_neq_0_compat. lra. }
      destruct (max_with_attained (occurrences px) (remove_dups px)) as (c & _ & Hc).
      { intros Hnil. fold m in Hm. unfold m in Hm. rewrite Hnil in Hm. cbn in Hm. lia. }
      exists c. apply occurrences_all. fold largest in Hc. lia.
    + intros [c Hall]. subst largest.
      rewrite (remove_dups_uniform px c Hne Hall). cbn [max_list_with].
      rewrite (proj2 (occurrences_all px c) Hall), Nat.max_0_r.
      apply Rdiv_diag. lra.
Qed.

(** ** The metric functions on a window without pixels *)

Lemma ravel_nil_shape1 (g : grid) : ravel g = [] → shape1 g = 0.
Proof.
  unfold ravel, shape1. destruct g as [| row g]; [reflexivity |].
  cbn. intros Hnil. apply app_eq_nil in Hnil as [-> _]. reflexivity.
Qed.

Lemma forM_skip {S A} (body : A → S → result S) (l : list A) (s : S) :
  (∀ x t, x ∈ l → body x t = Ok t) → forM l s body = Ok s.
Proof.
  intros Hbody. rewrite (forM_pure (λ _ t, t) body l Hbody).
  induction l as [| x l IH]; [reflexivity |]. cbn [foldl]. apply IH.
  intros y t Hy. apply Hbody. right. exact Hy.
Qed.

(** X4. On a window without pixels [_calculate_shdi] returns 0,
    [_calculate_lpi] raises the [ValueError] of [counts.max()] whatever the
    total area it is given, and [_calculate_contag] returns 100 (its divisor
    [2 * np.log(0)] is minus infinity): only the size test of
    [_calculate_metrics] keeps such a window from stopping the run. *)
Theorem metrics_of_window_without_pixels (w : grid) (total_area : nat) :
  ravel w = [] →
  ShdiLpi._calculate_shdi w = Fin 0%R
  ∧ ShdiLpi._calculate_lpi w total_area
    = Raise (ValueError "zero-size array to reduction operation maximum which has no identity")
  ∧ ShdiLpi._calculate_contag w total_area = Ok (Fin 100%R).
Proof.
  intros Hnil.
  assert (np_unique w = ([], [])) as Hu by (unfold np_unique; rewrite Hnil; reflexivity).
  split; [| split].
  - unfold ShdiLpi._calculate_shdi. rewrite Hu. cbn. f_equal. lra.
  - unfold ShdiLpi._calculate_lpi. rewrite Hu. reflexivity.
  - unfold ShdiLpi._calculate_contag. rewrite Hu. cbn [length].
    assert (ShdiLpi.adjacency_scan w (class_index []) 0 = Ok []) as ->.
    { unfold ShdiLpi.adjacency_scan. rewrite (ravel_nil_shape1 w Hnil).
      apply forM_skip. intros i M _. reflexivity. }
    rewrite bind_Ok. unfold ShdiLpi.contag_sum. cbn [range]. rewrite range_0.
    cbn [forM]. rewrite bind_Ok.
    unfold ShdiLpi.contag_divisor, np_log. cbn [INR].
    rewrite (R_sign_zero 0) by reflexivity.
    cbn [fl_mul c_sgn R_carrier]. rewrite (R_sign_pos 2) by lra.
    cbn [is_pos eqb fl_div fl_add fl_mul c_zero c_add c_mul R_carrier].
    do 2 f_equal. lra.
Qed.

(** ** Patch density as a share of the pixels *)

Lemma Qc_of_nat_le (a b : nat) : a ≤ b → (Qc_of_nat a <= Qc_of_nat b)%Qc.
Proof.
  intros Hab. unfold Qc_of_nat, Qcle. cbn [this Q2Qc].
  rewrite !Qred_correct, <- Zle_Qle. lia.
Qed.

Lemma Qc_of_nat_pos (b : nat) : 0 < b → (0 < Qc_of_nat b)%Qc.
Proof.
  intros Hb. unfold Qc_of_nat, Qclt. cbn [this Q2Qc].
  rewrite !Qred_correct. change 0%Q with (inject_Z 0). rewrite <- Zlt_Qlt. lia.
Qed.

Lemma Qc_share_bounds (a b : nat) :
  a ≤ b → 0 < b → (0 <= Qc_of_nat a / Qc_of_nat b)%Qc ∧ (Qc_of_nat a / Qc_of_nat b <= 1)%Qc.
Proof.
  intros Hab Hb.
  pose proof (Qc_of_nat_pos b Hb) as Hpos.
  pose proof (Qcinv_pos _ Hpos) as Hinv.
  pose proof (Qc_of_nat_le 0 a ltac:(lia)) as Ha0.
  change (Qc_of_nat 0) with 0%Qc in Ha0.
  unfold Qcdiv. split.
  - apply Qcmult_nonneg_nonneg; [exact Ha0 | apply Qclt_le_weak, Hinv].
  - rewrite <- (Qcmult_inv_r (Qc_of_nat b)) by (apply not_eq_sym, Qclt_not_eq, Hpos).
    apply Qcmult_le_mono_nonneg_r; [apply Qclt_le_weak, Hinv | apply Qc_of_nat_le, Hab].
Qed.

Lemma patch_density_value (w : grid) (res_x res_y : Qc) (c : Z) :
  size w ≠ 0 → (res_x * res_y)%Qc ≠ 0%Qc →
  PdEd.patch_density w c (res_x * res_y) (Qc_of_nat (size w) * (res_x * res_y))
  = Fin (Qc_of_nat (count_eq w c) / Qc_of_nat (size w))%Qc.
Proof.
  intros Hsize Hcell.
  assert (Qc_of_nat (size w) ≠ 0%Qc) as Hn.
  { intros H0. apply Hsize, Qc_of_nat_eq_0, H0. }
  set (cell := (res_x * res_y)%Qc) in *. clearbody cell.
  unfold PdEd.patch_density. rewrite Qc_div_finite.
  - f_equal. field. split; assumption.
  - intros H0. apply Qcmult_integral in H0 as [H0 | H0]; contradiction.
Qed.

(** X5. For a non-empty rectangular window and pixels of non-zero area, the
    patch density of any class value is the finite number
    [pixel_count / size], whatever the pixel area; it lies between 0 and 1
    and is 0 exactly when no pixel of the window carries the value. For the
    classes 1 to 6 it is what the PD column of the row holds. *)
Theorem patch_density_is_share_of_pixels (w : grid) (res_x res_y : Qc) (c : Z) :
  rect w → size w ≠ 0 → (res_x * res_y)%Qc ≠ 0%Qc →
  PdEd.patch_density w c (res_x * res_y) (Qc_of_nat (size w) * (res_x * res_y))
  = Fin (Qc_of_nat (count_eq w c) / Qc_of_nat (size w))%Qc
  ∧ (0 <= Qc_of_nat (count_eq w c) / Qc_of_nat (size w))%Qc
  ∧ (Qc_of_nat (count_eq w c) / Qc_of_nat (size w) <= 1)%Qc
  ∧ ((Qc_of_nat (count_eq w c) / Qc_of_nat (size w))%Qc = 0%Qc ↔ c ∉ ravel w)
  ∧ ((1 ≤ c ≤ 6)%Z →
     ∃ row, PdEd.window_metrics w res_x res_y = Ok row
       ∧ PdEd.PD row !! c = Some (Fin (Qc_of_nat (count_eq w c) / Qc_of_nat (size w))%Qc)).
Proof.
  intros Hrect Hsize Hcell.
  pose proof (patch_density_value w res_x res_y c Hsize Hcell) as Hpd.
  assert (count_eq w c ≤ size w) as Hle.
  { rewrite <- (length_ravel w Hrect). apply occurrences_le. }
  destruct (Qc_share_bounds (count_eq w c) (size w) Hle) as [H0 H1]; [lia |].
  assert (Qc_of_nat (size w) ≠ 0%Qc) as Hn.
  { intros Hz. apply Hsize, Qc_of_nat_eq_0, Hz. }
  split; [exact Hpd |]. split; [exact H0 |]. split; [exact H1 |]. split.
  - split.
    + intros Hz Hin.
      assert (Qc_of_nat (count_eq w c) = 0%Qc) as Hc.
      { rewrite <- (Qcmult_div_r (Qc_of_nat (count_eq w c)) (Qc_of_nat (size w))) by exact Hn.
        rewrite Hz. ring. }
      apply Qc_of_nat_eq_0 in Hc.
      pose proof (occurrences_pos (ravel w) c Hin) as Hpos.
      unfold count_eq in Hc. unfold occurrences in Hpos. lia.
    + intros Hout. change (count_eq w c) with (occurrences (ravel w) c).
      rewrite (occurrences_absent _ _ Hout). change (Qc_of_nat 0) with 0%Qc.
      unfold Qcdiv. ring.
  - intros Hc. eexists. split.
    { apply pded_window_metrics; [exact Hrect |].
      intros Hz. apply Qcmult_integral in Hz as [Hz | Hz]; contradiction. }
    apply elem_of_classes in Hc.
    destruct (pded_row_lookup
                (λ c, PdEd.patch_density w c (res_x * res_y)
                        (Qc_of_nat (size w) * (res_x * res_y)))
                (λ c, Fin (Spec.edge_length w c res_x res_y
                           / (Qc_of_nat (size w) * (res_x * res_y)))%Qc)
                (range2 1 7) c Hc) as [Hrow _].
    rewrite Hrow, Hpd. reflexivity.
Qed.

Lemma classified_counts (l : list Z) :
  sum_list_with (λ c, length (filter (λ x, x = c) l)) [1; 2; 3; 4; 5; 6]%Z
  = length (filter (λ v, (1 ≤ v ≤ 6)%Z) l).
Proof.
  induction l as [| v l IH]; [reflexivity |].
  cbn [sum_list_with] in *. rewrite !filter_cons.
  destruct (decide (1 ≤ v ≤ 6)%Z) as [Hv | Hv].
  - cbn [length]. rewrite <- IH.
    assert (v = 1 ∨ v = 2 ∨ v = 3 ∨ v = 4 ∨ v = 5 ∨ v = 6)%Z
      as [-> | [-> | [-> | [-> | [-> | ->]]]]] by lia;
      repeat case_decide; try discriminate; try contradiction; cbn [length]; lia.
  - rewrite <- IH. repeat case_decide; try lia; reflexivity.
Qed.

(** X6. For a non-empty rectangular window and pixels of non-zero area, the
    six patch densities add up to the share of the pixels whose value is in
    1..6: pixels that carry the nodata value or any other code make the sum
    fall short of 1 by their share. *)
Theorem patch_densities_sum_to_classified_share (w : grid) (res_x res_y : Qc) :
  rect w → size w ≠ 0 → (res_x * res_y)%Qc ≠ 0%Qc →
  ∃ p1 p2 p3 p4 p5 p6 : Qc,
    (∀ c p, (c, p) ∈ [(1, p1); (2, p2); (3, p3); (4, p4); (5, p5); (6, p6)]%Z →
       PdEd.patch_density w c (res_x * res_y) (Qc_of_nat (size w) * (res_x * res_y))
       = Fin p)
    ∧ (p1 + p2 + p3 + p4 + p5 + p6
       = Qc_of_nat (length (filter (λ v, (1 ≤ v ≤ 6)%Z) (ravel w))) / Qc_of_nat (size w))%Qc
    ∧ (p1 + p2 + p3 + p4 + p5 + p6 <= 1)%Qc.
Proof.
  intros Hrect Hsize Hcell.
  assert (Qc_of_nat (size w) ≠ 0%Qc) as Hn.
  { intros Hz. apply Hsize, Qc_of_nat_eq_0, Hz. }
  pose proof (classified_counts (ravel w)) as Hsum. cbn [sum_list_with] in Hsum.
  fold (count_eq w 1) (count_eq w 2) (count_eq w 3) (count_eq w 4)
       (count_eq w 5) (count_eq w 6) in Hsum.
  assert (Qc_of_nat (count_eq w 1) / Qc_of_nat (size w)
          + Qc_of_nat (count_eq w 2) / Qc_of_nat (size w)
          + Qc_of_nat (count_eq w 3) / Qc_of_nat (size w)
          + Qc_of_nat (count_eq w 4) / Qc_of_nat (size w)
          + Qc_of_nat (count_eq w 5) / Qc_of_nat (size w)
          + Qc_of_nat (count_eq w 6) / Qc_of_nat (size w)
          = Qc_of_nat (length (filter (λ v, (1 ≤ v ≤ 6)%Z) (ravel w)))
            / Qc_of_nat (size w))%Qc as Htotal.
  { rewrite <- Hsum, !Qc_of_nat_plus. change (Qc_of_nat 0) with 0%Qc.
    field. exact Hn. }
  eexists _, _, _, _, _, _. split; [| split].
  - intros c p Hin. repeat (apply elem_of_cons in Hin as [[= -> ->] | Hin]);
      [apply patch_density_value; assumption .. | apply elem_of_nil in Hin; contradiction].
  - exact Htotal.
  - rewrite Htotal. apply Qc_share_bounds; [| lia].
    rewrite <- (length_ravel w Hrect). apply length_filter.
Qed.

(** ** Edge lengths *)

Lemma elem_of_cells (g : grid) (i j : Z) :
  (i, j) ∈ cells g
  ↔ (0 ≤ i < Z.of_nat (shape0 g))%Z ∧ (0 ≤ j < Z.of_nat (shape1 g))%Z.
Proof.
  unfold cells. rewrite list_elem_of_bind. split.
  - intros (i' & Hj & Hi). apply list_elem_of_fmap in Hj as (j' & [= -> ->] & Hj).
    apply elem_of_range in Hi, Hj. auto.
  - intros [Hi Hj]. exists i. split; [| apply elem_of_range, Hi].
    apply list_elem_of_fmap. exists j. split; [reflexivity | apply elem_of_range, Hj].
Qed.

Lemma Qc_sum_nonneg {A} (f : A → Qc) (l : list A) :
  (∀ x, x ∈ l → (0 <= f x)%Qc) → (0 <= Qc_sum_with f l)%Qc.
Proof.
  induction l as [| x l IH]; intros Hf; cbn [Qc_sum_with foldr]; [apply Qcle_refl |].
  apply Qcplus_nonneg_nonneg; [apply Hf; left |].
  apply IH. intros y Hy. apply Hf. right. exact Hy.
Qed.

Lemma Qc_sum_zero {A} (f : A → Qc) (l : list A) :
  (∀ x, x ∈ l → f x = 0%Qc) → Qc_sum_with f l = 0%Qc.
Proof.
  induction l as [| x l IH]; intros Hf; cbn [Qc_sum_with foldr]; [reflexivity |].
  fold (Qc_sum_with f l). rewrite (Hf x) by left. rewrite IH; [ring |].
  intros y Hy. apply Hf. right. exact Hy.
Qed.

Lemma filter_none {A} (P : A → Prop) `{∀ x, Decision (P x)} (l : list A) :
  (∀ x, x ∈ l → ¬ P x) → filter P l = [].
Proof.
  induction l as [| x l IH]; intros Hnot; [reflexivity |].
  rewrite filter_cons_False by (apply Hnot; left).
  apply IH. intros y Hy. apply Hnot. right. exact Hy.
Qed.

Lemma cell_pixel_in_ravel (g : grid) (p : Z * Z) :
  rect g → p ∈ cells g → pixel g p ∈ ravel g.
Proof.
  intros Hrect Hp. destruct p as [i j]. apply elem_of_cells in Hp as [Hi Hj].
  apply pixel_in_ravel; assumption.
Qed.

(** X7. For a rectangular window and non-negative pixel width and height,
    [_calculate_edge_length] returns without error a non-negative length,
    which is 0 when no pixel of the window carries the class and when every
    pixel carries it. *)
Theorem edge_length_nonnegative_and_zero_cases (w : grid) (c : Z) (res_x res_y : Qc) :
  rect w → (0 <= res_x)%Qc → (0 <= res_y)%Qc →
  ∃ e, PdEd._calculate_edge_length w c res_x res_y = Ok e
    ∧ (0 <= e)%Qc
    ∧ (c ∉ ravel w → e = 0%Qc)
    ∧ (Forall (λ x, x = c) (ravel w) → e = 0%Qc).
Proof.
  intros Hrect Hx Hy. exists (Spec.edge_length w c res_x res_y).
  split; [apply calculate_edge_length_spec, Hrect |].
  unfold Spec.edge_length. split; [| split].
  - apply Qc_sum_nonneg. intros p _.
    apply Qcplus_nonneg_nonneg; apply Qcmult_nonneg_nonneg; try assumption;
      apply (Qc_of_nat_le 0); lia.
  - intros Habsent. unfold pixels_of_class. rewrite filter_none; [reflexivity |].
    intros p Hp Hc. apply Habsent. rewrite <- Hc.
    apply cell_pixel_in_ravel; assumption.
  - intros Hall. apply Qc_sum_zero. intros p _.
    assert (∀ adjacent (Hdec : ∀ p q, Decision (adjacent p q)),
              differing_neighbors w c adjacent p = []) as Hnone.
    { intros adjacent Hdec. unfold differing_neighbors. apply filter_none.
      intros q Hq [_ Hne]. apply Hne.
      rewrite Forall_forall in Hall. apply Hall.
      apply cell_pixel_in_ravel; assumption. }
    rewrite !Hnone. cbn [length]. change (Qc_of_nat 0) with 0%Qc. ring.
Qed.

(** ** More on the adjacency matrix *)

(** X8. Every diagonal entry of the adjacency matrix of a rectangular window
    is even: a pair of adjacent pixels of one class is counted once from
    each of its two pixels, in the same entry. *)
Theorem adjacency_diagonal_is_even (w : grid) :
  rect w →
  ∃ M, ShdiLpi.adjacency_matrix_of w = Ok M
    ∧ ∀ a, Nat.Even (entry M a a).
Proof.
  intros Hrect.
  destruct (adjacency_matrix_built w Hrect) as (M & Hrun & _ & _ & Hentry).
  exists M. split; [exact Hrun |].
  intros a. rewrite Hentry, scan_directions.
  assert (∀ x y : nat, ind (x = a ∧ y = a) = ind (y = a ∧ x = a)) as Hswap.
  { intros x y. unfold ind. repeat case_decide; try reflexivity; exfalso; tauto. }
  rewrite (sum_ext
    (λ i, sum_list_with
       (λ j, ind (class_of w (i + 1, j)%Z = a ∧ class_of w (i, j) = a)) (range (shape1 w)))
    (λ i, sum_list_with
       (λ j, ind (class_of w (i, j) = a ∧ class_of w (i + 1, j)%Z = a)) (range (shape1 w))))
    by (intros i _; apply sum_ext; intros j _; apply Hswap).
  rewrite (sum_ext
    (λ i, sum_list_with
       (λ j, ind (class_of w (i, j + 1)%Z = a ∧ class_of w (i, j) = a)) (range (shape1 w - 1)))
    (λ i, sum_list_with
       (λ j, ind (class_of w (i, j) = a ∧ class_of w (i, j + 1)%Z = a)) (range (shape1 w - 1))))
    by (intros i _; apply sum_ext; intros j _; apply Hswap).
  match goal with
  | |- Nat.Even (?up + ?down + ?left + ?right) => exists (up + left); lia
  end.
Qed.

(** ** Contagion of a window with several classes *)

Lemma R_sign_Gt_inv (x : R) : R_sign x = Gt → (0 < x)%R.
Proof.
  unfold R_sign.
  destruct (total_order_T x 0) as [[Hlt | Heq] | Hgt]; [discriminate | discriminate | auto].
Qed.

Lemma sum_list_lookup_le (l : list nat) (i x : nat) : l !! i = Some x → x ≤ sum_list l.
Proof.
  intros Hl. apply (sum_list_with_in x (λ n, n)). eapply list_elem_of_lookup_2, Hl.
Qed.

Lemma entry_le_np_sum (M : list (list nat)) (a b : nat) : entry M a b ≤ np_sum M.
Proof.
  unfold entry, np_sum.
  destruct (M !! a) as [row |] eqn:Hrow; cbn; [| lia].
  destruct (row !! b) as [x |] eqn:Hx; cbn; [| lia].
  pose proof (sum_list_lookup_le row b x Hx) as H1.
  assert ((sum_list <$> M) !! a = Some (sum_list row)) as Hs
    by (rewrite list_lookup_fmap, Hrow; reflexivity).
  pose proof (sum_list_lookup_le _ _ _ Hs) as H2. lia.
Qed.

Lemma getitem2_entry (m : nat) (M : list (list nat)) (i k : Z) :
  square m M → (0 ≤ i < Z.of_nat m)%Z → (0 ≤ k < Z.of_nat m)%Z →
  getitem2 M i k = Ok (entry M (Z.to_nat i) (Z.to_nat k)).
Proof.
  intros [Hlen Hrows] Hi Hk.
  destruct (lookup_lt_is_Some_2 M (Z.to_nat i)) as [row Hrow]; [lia |].
  assert (length row = m) as Hrl.
  { rewrite Forall_lookup in Hrows. exact (Hrows _ row Hrow). }
  destruct (lookup_lt_is_Some_2 row (Z.to_nat k)) as [x Hx]; [lia |].
  unfold getitem2, entry.
  rewrite (getitem_in_range M i row) by (lia || exact Hrow).
  rewrite bind_Ok, Hrow. cbn. rewrite Hx. cbn.
  apply getitem_in_range; [lia | exact Hx].
Qed.

(** The double sum of [_calculate_contag], with shares between 0 and 1 and
    a matrix whose entries do not exceed the total: it is finite and not
    positive. *)
Lemma contag_sum_nonpos (m : nat) (props : list (float R)) (M : list (list nat))
    (total : nat) :
  length props = m →
  Forall (λ p, ∃ x, p = Fin x ∧ (0 < x <= 1)%R) props →
  square m M → (∀ a b, entry M a b ≤ total) →
  ∃ v, ShdiLpi.contag_sum m props M total = Ok (Fin v) ∧ (v <= 0)%R.
Proof.
  intros Hlen Hprops HM Htotal. unfold ShdiLpi.contag_sum.
  set (good := λ s : float R, ∃ v, s = Fin v ∧ (v <= 0)%R).
  assert (∃ s, forM (range m) (Fin 0%R) (λ i contag,
      forM (range m) contag (λ k contag,
        if bool_decide (0 < total) then
          p_i ← getitem props i;
          g_ik ← getitem2 M i k;
          let p_ik := fl_mul p_i (fl_div (Fin (INR g_ik)) (Fin (INR total))) in
          if fl_gt0 p_ik then Ok (fl_add contag (fl_mul p_ik (np_log p_ik)))
          else Ok contag
        else Ok contag)) = Ok s ∧ good s) as (s & Hrun & v & -> & Hv).
  2:{ exists v. auto. }
  destruct (forM_fold good (λ _, tt) (λ (_ : Z) u, u)
              (λ i contag,
      forM (range m) contag (λ k contag,
        if bool_decide (0 < total) then
          p_i ← getitem props i;
          g_ik ← getitem2 M i k;
          let p_ik := fl_mul p_i (fl_div (Fin (INR g_ik)) (Fin (INR total))) in
          if fl_gt0 p_ik then Ok (fl_add contag (fl_mul p_ik (np_log p_ik)))
          else Ok contag
        else Ok contag)) (range m)) with (s := Fin 0%R) as (s & Hrun & Hs & _).
  - intros i s Hi Hs. apply elem_of_range in Hi.
    destruct (forM_fold good (λ _, tt) (λ (_ : Z) u, u)
                (λ k contag,
        if bool_decide (0 < total) then
          p_i ← getitem props i;
          g_ik ← getitem2 M i k;
          let p_ik := fl_mul p_i (fl_div (Fin (INR g_ik)) (Fin (INR total))) in
          if fl_gt0 p_ik then Ok (fl_add contag (fl_mul p_ik (np_log p_ik)))
          else Ok contag
        else Ok contag) (range m)) with (s := s) as (s' & Hrun' & Hs' & _).
    + intros k t Hk (v & -> & Hv). apply elem_of_range in Hk.
      destruct (decide (0 < total)) as [Hpos | Hzero].
      * rewrite bool_decide_eq_true_2 by exact Hpos.
        destruct (lookup_lt_is_Some_2 props (Z.to_nat i)) as [p Hp]; [lia |].
        rewrite (getitem_in_range props i p) by (lia || exact Hp).
        rewrite bind_Ok, (getitem2_entry m M i k HM Hi Hk), bind_Ok.
        rewrite Forall_lookup in Hprops.
        destruct (Hprops _ _ Hp) as (x & -> & Hx0 & Hx1).
        cbv zeta. rewrite R_div_finite by (apply INR_pos, Hpos).
        cbn [fl_mul c_mul R_carrier].
        set (q := (x * (INR (entry M (Z.to_nat i) (Z.to_nat k)) / INR total))%R).
        cbn [fl_gt0 c_sgn R_carrier].
        destruct (R_sign q) eqn:Hsign; cbn [is_pos];
          try (eexists; split; [reflexivity |]; split;
               [exists v; split; [reflexivity | exact Hv] | reflexivity]).
        apply R_sign_Gt_inv in Hsign.
        rewrite np_log_finite by exact Hsign.
        cbn [fl_mul fl_add c_mul c_add R_carrier].
        eexists. split; [reflexivity |]. split; [| reflexivity].
        eexists. split; [reflexivity |].
        assert (q <= 1)%R as Hq1.
        { subst q.
          assert (0 < INR total)%R as Ht by (apply INR_pos, Hpos).
          pose proof (pos_INR (entry M (Z.to_nat i) (Z.to_nat k))) as Hg0.
          pose proof (le_INR _ _ (Htotal (Z.to_nat i) (Z.to_nat k))) as Hg1.
          assert (INR (entry M (Z.to_nat i) (Z.to_nat k)) / INR total <= 1)%R as Hr.
          { apply (Rmult_le_reg_r (INR total)); [exact Ht |].
            unfold Rdiv. rewrite Rmult_assoc, Rinv_l by lra. lra. }
          assert (0 <= INR (entry M (Z.to_nat i) (Z.to_nat k)) / INR total)%R as Hr0.
          { apply Rmult_le_pos; [exact Hg0 |]. left. apply Rinv_0_lt_compat, Ht. }
          nra. }
        pose proof (p_ln_p_nonpos q (conj Hsign Hq1)). lra.
      * rewrite bool_decide_eq_false_2 by exact Hzero.
        eexists. split; [reflexivity |]. split; [exists v; auto | reflexivity].
    + exact Hs.
    + exists s'. auto.
  - exists 0%R. split; [reflexivity | lra].
  - exists s. auto.
Qed.

Lemma proportions_are_shares (g : grid) :
  rect g → size g ≠ 0 →
  Forall (λ p, ∃ x, p = Fin x ∧ (0 < x <= 1)%R)
         (ShdiLpi.proportions_of (np_unique g).2 (size g)).
Proof.
  intros Hrect Hsize.
  pose proof (ravel_nonempty g Hrect Hsize) as Hne.
  rewrite np_unique_counts. unfold ShdiLpi.proportions_of.
  rewrite <- list_fmap_compose. apply Forall_fmap, Forall_forall.
  intros c Hc. cbn [compose].
  assert (c ∈ ravel g) as Hin.
  { apply elem_of_remove_dups. rewrite <- np_unique_values. exact Hc. }
  rewrite <- (length_ravel g Hrect).
  pose proof (share_bounds (ravel g) c Hin) as Hb.
  rewrite R_div_finite.
  - eexists. split; [reflexivity | exact Hb].
  - apply INR_pos. destruct (ravel g); [contradiction | cbn; lia].
Qed.

(** X9. For a rectangular window with at least two distinct pixel values,
    [_calculate_contag] returns without error a finite number, and that
    number is at most 100. *)
Theorem contag_of_mixed_window_is_finite (w : grid) :
  rect w → 2 ≤ length (np_unique w).1 →
  ∃ x, ShdiLpi._calculate_contag w (size w) = Ok (Fin x) ∧ (x <= 100)%R.
Proof.
  intros Hrect Hm.
  assert (size w ≠ 0) as Hsize.
  { intros Hz. rewrite class_number in Hm.
    rewrite <- (length_ravel w Hrect) in Hz.
    destruct (ravel w); [cbn in Hm; lia | discriminate]. }
  destruct (adjacency_matrix_built w Hrect) as (M & Hrun & Hsq & _ & _).
  rewrite adjacency_matrix_of_scan in Hrun.
  pose proof (proportions_are_shares w Hrect Hsize) as Hprops.
  destruct (contag_sum_nonpos (length (np_unique w).1)
              (ShdiLpi.proportions_of (np_unique w).2 (size w)) M (np_sum M))
    as (v & Hsum & Hv).
  { unfold ShdiLpi.proportions_of, np_unique. cbn [fst snd].
    rewrite !length_fmap. reflexivity. }
  { exact Hprops. }
  { exact Hsq. }
  { intros a b. apply entry_le_np_sum. }
  assert (0 < ln (INR (length (np_unique w).1)))%R as Hln.
  { rewrite <- ln_1. apply ln_increasing; [lra |].
    change 1%R with (INR 1). apply lt_INR. lia. }
  unfold ShdiLpi._calculate_contag.
  destruct (np_unique w) as [unique counts]. cbn [fst snd] in *.
  rewrite Hrun, bind_Ok, Hsum, bind_Ok.
  unfold ShdiLpi.contag_divisor.
  rewrite np_log_finite by (apply INR_pos; lia).
  cbn [fl_mul c_mul R_carrier].
  rewrite R_div_finite by lra.
  cbn [fl_add fl_mul c_add c_mul R_carrier].
  eexists. split; [reflexivity |].
  assert (v / (2 * ln (INR (length unique))) <= 0)%R.
  { unfold Rdiv. rewrite <- (Rmult_0_l (/ (2 * ln (INR (length unique))))).
    apply Rmult_le_compat_r; [| exact Hv].
    left. apply Rinv_0_lt_compat. lra. }
  lra.
Qed.

(** ** The zone loop as a whole *)


Lemma eachM_first_raise {A B} (f : A → result B) (x : A) (l : list A) (e : exn) :
  f x = Raise e → eachM f (x :: l) = Raise e.
Proof. intros Hx. cbn [eachM]. rewrite Hx. reflexivity. Qed.


Lemma pixel_bounds_degenerate (meta : Meta) (z : Bounds) :
  determinant (transform meta) = 0%Qc →
  pixel_bounds meta z = Raise TransformNotInvertibleError.
Proof.
  intros Hdet. unfold pixel_bounds, invert.
  rewrite bool_decide_eq_true_2 by exact Hdet. reflexivity.
Qed.









(** X12. For a raster in EPSG:32649 whose transform has determinant zero,
    both [_calculate_metrics] stop at the first zone with the error of the
    inverse transform, so no row at all is produced; with an empty fishnet
    they return the empty table. *)
Theorem degenerate_transform_stops_at_first_zone
    (warp : Dataset → result grid) (to_crs : string → Fishnet → Fishnet)
    (src : Dataset) (fishnet_gdf : Fishnet) :
  ds_crs src = "EPSG:32649" → determinant (ds_transform src) = 0%Qc →
  let outcome {A} : result (list A) :=
    match zones (_reproject_fishnet to_crs fishnet_gdf "EPSG:32649") with
    | [] => Ok []
    | _ :: _ => Raise TransformNotInvertibleError
    end in
  PdEd._calculate_metrics warp to_crs src fishnet_gdf = outcome
  ∧ ShdiLpi._calculate_metrics warp to_crs src fishnet_gdf = outcome.
Proof.
  intros Hcrs Hdet outcome. subst outcome.
  unfold PdEd._calculate_metrics, ShdiLpi._calculate_metrics.
  rewrite (load_raster_match warp src Hcrs), !bind_Ok.
  rewrite (check_crs_meta_copy src Hcrs), !bind_Ok.
  cbn [crs transform meta_copy]. rewrite Hcrs.
  destruct (zones (_reproject_fishnet to_crs fishnet_gdf "EPSG:32649")) as [| z zs];
    [split; reflexivity |].
  assert (zone_window (ds_band1 src) (meta_copy src) z
          = Raise TransformNotInvertibleError) as Hw.
  { unfold zone_window. rewrite pixel_bounds_degenerate by exact Hdet. reflexivity. }
  split; apply eachM_first_raise.
  - unfold PdEd.zone_row. rewrite Hw. reflexivity.
  - unfold ShdiLpi.zone_row. rewrite Hw. reflexivity.
Qed.

(** ** The window of a zone inside the raster *)

Lemma Qc_of_nat_this (n : nat) : (this (Qc_of_nat n) == inject_Z (Z.of_nat n))%Q.
Proof. unfold Qc_of_nat. cbn [this Q2Qc]. apply Qred_correct. Qed.

Lemma int_floor (q : Qc) : (0 <= q)%Qc → int q = Qfloor (this q).
Proof.
  unfold Qcle, int, Qfloor. destruct (this q) as [n d]. cbn [this Q2Qc Qnum Qden].
  intros Hq. unfold Qle in Hq.
  change (Qred 0) with 0%Q in Hq. cbn [Qnum Qden] in Hq.
  apply Z.quot_div_nonneg; lia.
Qed.

Lemma int_nonneg (q : Qc) : (0 <= q)%Qc → (0 ≤ int q)%Z.
Proof.
  intros Hq. rewrite (int_floor q Hq).
  change 0%Z with (Qfloor 0). apply Qfloor_resp_le. exact Hq.
Qed.

Lemma int_le_nat (q : Qc) (n : nat) :
  (0 <= q)%Qc → (q <= Qc_of_nat n)%Qc → (int q ≤ Z.of_nat n)%Z.
Proof.
  intros Hq Hn. rewrite (int_floor q Hq).
  rewrite <- (Qfloor_Z (Z.of_nat n)). apply Qfloor_resp_le.
  unfold Qcle in Hn. rewrite Qc_of_nat_this in Hn. exact Hn.
Qed.

Lemma int_mono (p q : Qc) : (0 <= p)%Qc → (p <= q)%Qc → (int p ≤ int q)%Z.
Proof.
  intros Hp Hpq. rewrite (int_floor p Hp), (int_floor q (Qcle_trans _ _ _ Hp Hpq)).
  apply Qfloor_resp_le. exact Hpq.
Qed.

Lemma slice_exact {A} (l : list A) (a b : Z) :
  (0 ≤ a ≤ b)%Z → (b ≤ Z.of_nat (length l))%Z →
  slice l a b = take (Z.to_nat (b - a)) (drop (Z.to_nat a) l).
Proof.
  intros Hab Hb. unfold slice, slice_bound.
  rewrite !bool_decide_eq_false_2 by lia. f_equal; [lia | f_equal; lia].
Qed.

Lemma lookup_slice {A} (l : list A) (a b : Z) (i : nat) :
  (0 ≤ a ≤ b)%Z → (b ≤ Z.of_nat (length l))%Z → (Z.of_nat i < b - a)%Z →
  slice l a b !! i = l !! (Z.to_nat a + i).
Proof.
  intros Hab Hb Hi. rewrite slice_exact by assumption.
  rewrite lookup_take_lt by lia. apply lookup_drop.
Qed.

Lemma length_slice_exact {A} (l : list A) (a b : Z) :
  (0 ≤ a ≤ b)%Z → (b ≤ Z.of_nat (length l))%Z →
  length (slice l a b) = Z.to_nat (b - a).
Proof.
  intros Hab Hb. rewrite slice_exact by assumption.
  rewrite length_take, length_drop. lia.
Qed.

Lemma out_of_raster_false (data : grid) (cs rs ce re : Qc) :
  out_of_raster data (cs, rs, ce, re) = false →
  (0 <= cs)%Qc ∧ (0 <= rs)%Qc
  ∧ (ce <= Qc_of_nat (shape1 data))%Qc ∧ (re <= Qc_of_nat (shape0 data))%Qc.
Proof.
  unfold out_of_raster. rewrite !orb_false_iff, !bool_decide_eq_false.
  intros [[[H1 H2] H3] H4]. repeat split; apply Qcnot_lt_le; assumption.
Qed.

(** X13. When the fractional pixel bounds of a zone pass the bounds test of
    the zone loop and are ordered ([col_start <= col_end],
    [row_start <= row_end]), their integer parts lie inside the rectangular
    raster, so the slice [data[row_start:row_end, col_start:col_end]] neither
    wraps around nor is cut short: the window has [row_end - row_start] rows
    and [col_end - col_start] columns, and its pixel [(i, j)] is the pixel
    [(row_start + i, col_start + j)] of the raster. *)
Theorem window_is_the_subarray_of_the_bounds
    (data : grid) (col_start row_start col_end row_end : Qc) :
  rect data →
  out_of_raster data (col_start, row_start, col_end, row_end) = false →
  (col_start <= col_end)%Qc → (row_start <= row_end)%Qc →
  (0 ≤ int row_start ≤ int row_end)%Z ∧ (int row_end ≤ Z.of_nat (shape0 data))%Z
  ∧ (0 ≤ int col_start ≤ int col_end)%Z ∧ (int col_end ≤ Z.of_nat (shape1 data))%Z
  ∧ shape0 (clip data (col_start, row_start, col_end, row_end))
    = Z.to_nat (int row_end - int row_start)
  ∧ ((int row_start < int row_end)%Z →
     shape1 (clip data (col_start, row_start, col_end, row_end))
     = Z.to_nat (int col_end - int col_start))
  ∧ ∀ i j, (0 ≤ i < int row_end - int row_start)%Z →
           (0 ≤ j < int col_end - int col_start)%Z →
      pixel (clip data (col_start, row_start, col_end, row_end)) (i, j)
      = pixel data (int row_start + i, int col_start + j)%Z.
Proof.
  intros Hrect Hin Hcols Hrows.
  apply out_of_raster_false in Hin as (Hcs & Hrs & Hce & Hre).
  pose proof (int_nonneg _ Hrs) as Hr0. pose proof (int_nonneg _ Hcs) as Hc0.
  pose proof (int_mono _ _ Hrs Hrows) as Hr01. pose proof (int_mono _ _ Hcs Hcols) as Hc01.
  pose proof (int_le_nat _ _ (Qcle_trans _ _ _ Hrs Hrows) Hre) as Hr1.
  pose proof (int_le_nat _ _ (Qcle_trans _ _ _ Hcs Hcols) Hce) as Hc1.
  set (r0 := int row_start) in *. set (r1 := int row_end) in *.
  set (c0 := int col_start) in *. set (c1 := int col_end) in *.
  split; [lia |]. split; [exact Hr1 |]. split; [lia |]. split; [exact Hc1 |].
  unfold clip. fold r0 r1 c0 c1. unfold slice2.
  assert (∀ i row, (Z.of_nat i < r1 - r0)%Z → slice data r0 r1 !! i = Some row →
            data !! (Z.to_nat r0 + i) = Some row ∧ length row = shape1 data) as Hrow.
  { intros i row Hi Hl. rewrite lookup_slice in Hl by (unfold shape0 in Hr1; lia).
    split; [exact Hl | apply (rect_row data _ row Hrect Hl)]. }
  split; [| split].
  - unfold shape0. rewrite length_fmap. apply length_slice_exact; unfold shape0 in Hr1; lia.
  - intros Hlt. unfold shape1.
    destruct (slice data r0 r1) as [| row rows] eqn:Hs.
    + exfalso. pose proof (length_slice_exact data r0 r1) as Hlen.
      rewrite Hs in Hlen. cbn in Hlen. unfold shape0 in Hr1. lia.
    + cbn [fmap list_fmap head default].
      destruct (Hrow 0 row) as [_ Hlen]; [lia | reflexivity |].
      apply length_slice_exact; lia.
  - intros i j Hi Hj. unfold pixel. cbn [fst snd].
    rewrite list_lookup_fmap.
    replace (Z.to_nat (r0 + i)) with (Z.to_nat r0 + Z.to_nat i) by lia.
    replace (Z.to_nat (c0 + j)) with (Z.to_nat c0 + Z.to_nat j) by lia.
    destruct (slice data r0 r1 !! Z.to_nat i) as [row |] eqn:Hl.
    + destruct (Hrow (Z.to_nat i) row) as [Hd Hlen]; [lia | exact Hl |].
      rewrite Hd. cbn. rewrite lookup_slice by lia. reflexivity.
    + exfalso. apply lookup_ge_None in Hl.
      rewrite length_slice_exact in Hl by (unfold shape0 in Hr1; lia). lia.
Qed.

(** ** Edge lengths read off the adjacency matrix *)

Lemma class_index_key (keys : list Z) (x : Z) (i : nat) :
  class_index keys !! x = Some i → keys !! i = Some x.
Proof.
  revert i. induction keys as [| k keys IH] using rev_ind; intros i.
  - unfold class_index. cbn. rewrite lookup_empty. discriminate.
  - rewrite class_index_snoc. destruct (decide (k = x)) as [-> | Hne].
    + rewrite lookup_insert_eq. intros [= <-].
      rewrite lookup_app_r by lia. rewrite Nat.sub_diag. reflexivity.
    + rewrite lookup_insert_ne by exact Hne. intros Hi.
      rewrite lookup_app_l; [apply IH, Hi |].
      eapply lookup_lt_Some, IH, Hi.
Qed.

Lemma class_index_of_key (keys : list Z) (x : Z) (i : nat) :
  NoDup keys → keys !! i = Some x → class_index keys !! x = Some i.
Proof.
  revert i. induction keys as [| k keys IH] using rev_ind; intros i Hnd Hi.
  - rewrite lookup_nil in Hi. discriminate.
  - rewrite class_index_snoc.
    apply NoDup_app in Hnd as (Hnd & Hk & _).
    destruct (decide (i < length keys)) as [Hlt | Hge].
    + rewrite lookup_app_l in Hi by exact Hlt.
      rewrite lookup_insert_ne.
      * apply IH; assumption.
      * intros ->. eapply Hk; [eapply list_elem_of_lookup_2, Hi | left].
    + rewrite lookup_app_r in Hi by lia.
      destruct (i - length keys) as [| n] eqn:Hn; cbn in Hi; [| discriminate].
      injection Hi as ->. rewrite lookup_insert_eq. f_equal. lia.
Qed.

(** In a rectangular window, a pixel has class index [a] exactly when it
    carries the [a]-th distinct value. *)
Lemma class_of_iff (g : grid) (c : Z) (a : nat) (i j : Z) :
  rect g → (np_unique g).1 !! a = Some c →
  (0 ≤ i < Z.of_nat (shape0 g))%Z → (0 ≤ j < Z.of_nat (shape1 g))%Z →
  class_of g (i, j) = a ↔ pixel g (i, j) = c.
Proof.
  intros Hrect Ha Hi Hj.
  destruct (class_of_pixel g i j Hrect Hi Hj) as [Hidx _].
  split.
  - intros Heq. rewrite Heq in Hidx. apply class_index_key in Hidx. congruence.
  - intros Heq. rewrite Heq in Hidx.
    rewrite (class_index_of_key (np_unique g).1 c a) in Hidx; [congruence | | exact Ha].
    unfold np_unique. cbn [fst]. apply unique_counts_NoDup.
Qed.

Lemma sum_ind_in (cols : list nat) (P : Prop) `{Decision P} (y : nat) :
  NoDup cols →
  sum_list_with (λ b, ind (P ∧ y = b)) cols = ind (P ∧ y ∈ cols).
Proof.
  unfold ind. induction 1 as [| k ks Hk Hnd IH].
  - cbn. case_decide as Hin; [| reflexivity].
    destruct Hin as [_ Hin]. apply elem_of_nil in Hin. contradiction.
  - cbn [sum_list_with]. rewrite IH.
    repeat case_decide; try reflexivity; exfalso;
      repeat match goal with
             | H : _ ∧ _ |- _ => destruct H
             | H : _ ∈ _ :: _ |- _ => apply elem_of_cons in H as [-> | H]
             | H : ¬ (_ ∧ _ ∈ _ :: _) |- _ =>
                 apply H; split; [assumption | rewrite elem_of_cons; auto]
             | H : ¬ (_ ∧ _ ∈ _) |- _ => apply H; split; assumption
             | H : ¬ (_ ∧ _ = _) |- _ => apply H; split; [assumption | reflexivity]
             end; try contradiction; try congruence.
Qed.

Lemma Qc_sum_of_nat {A} (f : A → nat) (l : list A) :
  Qc_sum_with (λ x, Qc_of_nat (f x)) l = Qc_of_nat (sum_list_with f l).
Proof.
  induction l as [| x l IH]; [reflexivity |].
  cbn [Qc_sum_with foldr sum_list_with]. fold (Qc_sum_with (λ x, Qc_of_nat (f x)) l).
  rewrite IH, Qc_of_nat_plus. reflexivity.
Qed.

(** X15. With unit pixel width and height, the edge length that pdanded.py
    computes for the [a]-th distinct value of a rectangular window is the sum
    of the off-diagonal entries of row [a] of the adjacency matrix that
    shdiandlpi.py builds for the same window. *)
Theorem unit_edge_length_is_off_diagonal_row_sum (w : grid) (c : Z) (a : nat) :
  rect w → (np_unique w).1 !! a = Some c →
  ∃ M, ShdiLpi.adjacency_matrix_of w = Ok M
    ∧ PdEd._calculate_edge_length w c 1 1
      = Ok (Qc_of_nat (sum_list_with (entry M a)
                         (filter (λ b, b ≠ a) (seq 0 (length (np_unique w).1))))).
Proof.
  intros Hrect Ha.
  set (m := length (np_unique w).1).
  set (cols := filter (λ b, b ≠ a) (seq 0 m)).
  assert (NoDup cols) as Hnd by (apply NoDup_filter, NoDup_seq).
  assert (∀ y, y < m → (y ∈ cols ↔ y ≠ a)) as Hcols.
  { intros y Hy. unfold cols. rewrite list_elem_of_filter, elem_of_seq. intuition lia. }
  destruct (scan_loop w Hrect (λ N, sum_list_with (entry N a) cols)
              (λ x y, ind (x = a ∧ y ≠ a))) as (M & Hrun & _ & Hsum).
  { intros N x y N' HN Hx Hy Hincr.
    rewrite (sum_ext _ (λ b, entry N a b + ind (x = a ∧ y = b))).
    - rewrite sum_plus, (sum_ind_in cols (x = a) y Hnd). f_equal.
      unfold ind. specialize (Hcols y Hy).
      repeat case_decide; try reflexivity; exfalso; tauto.
    - intros b _. apply (incr_adds_to_entry _ N x y a b N' HN Hx Hy Hincr). }
  exists M. split; [exact Hrun |].
  rewrite (edge_length_loop w c 1 1 Hrect). f_equal.
  rewrite Hsum, (sum_ext _ (λ _, 0)), sum_zero by (intros b _; apply entry_zeros).
  cbn [plus]. rewrite <- Qc_sum_of_nat.
  apply Qc_sum_ext. intros i Hi. rewrite <- Qc_sum_of_nat.
  apply Qc_sum_ext. intros j Hj. apply elem_of_range in Hi, Hj.
  unfold edge_pixel, scan_pixel. rewrite <- Qc_sum_of_nat.
  pose proof (class_of_iff w c a i j Hrect Ha Hi Hj) as Hhere.
  destruct (decide (pixel w (i, j) = c)) as [Hc | Hc].
  - rewrite bool_decide_eq_false_2 by (intros Hne; apply Hne, Hc).
    apply Qc_sum_ext. intros [ni nj] _. unfold edge_term, scan_term. cbn [fst snd].
    destruct (in_bounds w ni nj) eqn:Hin; cbn [andb]; [| reflexivity].
    apply in_bounds_spec in Hin as [Hni Hnj].
    pose proof (class_of_iff w c a ni nj Hrect Ha Hni Hnj) as Hthere.
    unfold ind. destruct (bool_decide (ni = i));
      repeat case_bool_decide; repeat case_decide; try reflexivity; exfalso; tauto.
  - rewrite bool_decide_eq_true_2 by exact Hc.
    symmetry. apply Qc_sum_zero. intros [ni nj] _. unfold scan_term. cbn [fst snd].
    destruct (in_bounds w ni nj); [| reflexivity].
    unfold ind. rewrite decide_False; [reflexivity |]. tauto.
Qed.

(** ** Rounding to four decimals *)

Import Output.

Lemma rint_Q_comp (q q' : Q) : (q == q')%Q → rint_Q q = rint_Q q'.
Proof.
  intros Heq. unfold rint_Q.
  rewrite (Qfloor_comp _ _ Heq).
  assert (Hc : ((q - inject_Z (Qfloor q') ?= 1 # 2) = (q' - inject_Z (Qfloor q') ?= 1 # 2))%Q).
  { apply Qcompare_comp; [| reflexivity]. rewrite Heq. reflexivity. }
  rewrite Hc. reflexivity.
Qed.

Lemma rint_Q_near (q : Q) :
  (inject_Z (rint_Q q) - (1 # 2) <= q ∧ q <= inject_Z (rint_Q q) + (1 # 2))%Q.
Proof.
  unfold rint_Q.
  pose proof (Qfloor_le q) as Hlo. pose proof (Qlt_floor q) as Hhi.
  rewrite inject_Z_plus in Hhi. change (inject_Z 1) with 1%Q in Hhi.
  destruct (Qcompare_spec (q - inject_Z (Qfloor q)) (1 # 2)) as [Heq | Hlt | Hgt].
  - destruct (Z.even (Qfloor q)).
    + split; Lqa.lra.
    + rewrite inject_Z_plus. change (inject_Z 1) with 1%Q. split; Lqa.lra.
  - split; Lqa.lra.
  - rewrite inject_Z_plus. change (inject_Z 1) with 1%Q. split; Lqa.lra.
Qed.

Lemma rint_Q_of_Z (n : Z) : rint_Q (inject_Z n) = n.
Proof.
  unfold rint_Q. rewrite Qfloor_Z.
  destruct (Qcompare_spec (inject_Z n - inject_Z n) (1 # 2)) as [Heq | Hlt | Hgt].
  - exfalso. Lqa.lra.
  - reflexivity.
  - exfalso. Lqa.lra.
Qed.

Lemma round4_Qc_scaled (q : Qc) :
  (this (round4 q) * inject_Z 10000 == inject_Z (rint_Q (this q * inject_Z 10000)))%Q.
Proof.
  unfold round4, Qc_rounding. cbn [this Q2Qc].
  rewrite Qred_correct. 
  change (inject_Z 10000) with (10000 # 1)%Q. field.
Qed.

Lemma round4_Qc_value (q : Qc) :
  round4 q = Q2Qc (rint_Q (this q * inject_Z 10000) # 10000).
Proof.
  unfold round4, Qc_rounding. apply Qc_is_canon. cbn [this Q2Qc].
  rewrite !Qred_correct. unfold Qeq, inject_Z, Qmult. cbn. lia.
Qed.

Lemma round4_Qc_near (q : Qc) :
  (round4 q - Q2Qc (1 # 20000) <= q ∧ q <= round4 q + Q2Qc (1 # 20000))%Qc.
Proof.
  pose proof (rint_Q_near (this q * inject_Z 10000)) as [Hlo Hhi].
  pose proof (round4_Qc_scaled q) as Hs. rewrite <- Hs in Hlo, Hhi.
  change (inject_Z 10000) with (10000 # 1)%Q in Hlo, Hhi.
  unfold Qcle, Qcminus, Qcplus, Qcopp. cbn [this Q2Qc].
  rewrite !Qred_correct. split; Lqa.lra.
Qed.

Lemma round4_Qc_idem (q : Qc) : round4 (round4 q) = round4 q.
Proof.
  rewrite (round4_Qc_value (round4 q)). rewrite (round4_Qc_value q) at 2.
  do 2 f_equal.
  rewrite (rint_Q_comp _ _ (round4_Qc_scaled q)).
  apply rint_Q_of_Z.
Qed.

Lemma fl_round4_Qc_idem (x : float Qc) : fl_round4 (fl_round4 x) = fl_round4 x.
Proof. destruct x; cbn; [rewrite round4_Qc_idem |..]; reflexivity. Qed.

Lemma pded_nan_row_columns (c : Z) (v : float Qc) :
  PdEd.PD PdEd.nan_row !! c = Some v ∨ PdEd.ED PdEd.nan_row !! c = Some v → v = NaN.
Proof.
  unfold PdEd.nan_row. generalize (range2 1 7).
  assert (Hblank : ∀ k x, PdEd.PD PdEd.blank_row !! k = Some x ∨
                          PdEd.ED PdEd.blank_row !! k = Some x → x = NaN).
  { intros k x [H | H]; cbn in H; rewrite lookup_empty in H; discriminate. }
  revert Hblank. generalize PdEd.blank_row. intros r Hr l. revert r Hr c v.
  induction l as [| a l IH]; intros r Hr c v; cbn [foldl].
  - apply Hr.
  - apply IH. intros k x [H | H]; cbn in H.
    + apply lookup_insert_Some in H as [[_ H] | [_ H]]; [congruence |].
      apply (Hr k). left. exact H.
    + apply lookup_insert_Some in H as [[_ H] | [_ H]]; [congruence |].
      apply (Hr k). right. exact H.
Qed.

(** X16. pdanded.py, [_save_results]: every density column of every row is
    replaced by its value rounded to four decimals. A finite density [q] in
    a PD or ED column is saved as [n / 10000] for an integer [n], at most
    [1 / 20000] away from [q]. A value that is not finite is saved as it is,
    so the row of an invalid zone stays all nan; the row keeps its columns,
    and rounding a rounded row changes nothing. *)
Theorem pded_saved_row_is_rounded_to_four_decimals
    (col : PdEd.Row → gmap Z (float Qc)) (r : PdEd.Row) (c : Z) (q : Qc) :
  col = PdEd.PD ∨ col = PdEd.ED →
  col r !! c = Some (Fin q) →
  (∃ n : Z,
    col (PdEdOut.round_row r) !! c = Some (Fin (Q2Qc (n # 10000))) ∧
    (Q2Qc (n # 10000) - Q2Qc (1 # 20000) <= q)%Qc ∧
    (q <= Q2Qc (n # 10000) + Q2Qc (1 # 20000))%Qc) ∧
  PdEdOut.round_row (PdEdOut.round_row r) = PdEdOut.round_row r ∧
  PdEdOut.round_row PdEd.nan_row = PdEd.nan_row ∧
  dom (col (PdEdOut.round_row r)) = dom (col r).
Proof.
  intros Hcol Hq. split; [| split; [| split]].
  - exists (rint_Q (this q * inject_Z 10000)).
    rewrite <- round4_Qc_value.
    pose proof (round4_Qc_near q) as [Hlo Hhi].
    repeat split; try assumption.
    destruct Hcol as [-> | ->]; unfold PdEdOut.round_row; cbn [PdEd.PD PdEd.ED];
      rewrite lookup_fmap, Hq; reflexivity.
  - unfold PdEdOut.round_row. cbn [PdEd.PD PdEd.ED]. f_equal.
    + rewrite <- map_fmap_compose. apply map_fmap_ext. intros k x _. apply fl_round4_Qc_idem.
    + rewrite <- map_fmap_compose. apply map_fmap_ext. intros k x _. apply fl_round4_Qc_idem.
  - unfold PdEdOut.round_row.
    assert (Hfix : ∀ m : gmap Z (float Qc),
      (∀ k v, m !! k = Some v → v = NaN) → fl_round4 <$> m = m).
    { intros m Hm. apply map_eq. intros k. rewrite lookup_fmap.
      destruct (m !! k) as [v |] eqn:Hk; [| reflexivity].
      rewrite (Hm _ _ Hk). reflexivity. }
    rewrite !Hfix.
    + destruct PdEd.nan_row. reflexivity.
    + intros k v H. apply (pded_nan_row_columns k). right. exact H.
    + intros k v H. apply (pded_nan_row_columns k). left. exact H.
  - destruct Hcol as [-> | ->]; unfold PdEdOut.round_row; cbn [PdEd.PD PdEd.ED];
      apply dom_fmap_L.
Qed.

Lemma rint_R_near (x : R) :
  (IZR (rint_R x) - 1 / 2 <= x ∧ x <= IZR (rint_R x) + 1 / 2)%R.
Proof.
  unfold rint_R. pose proof (base_Int_part x) as [Hlo Hhi].
  destruct (total_order_T (x - IZR (Int_part x)) (1 / 2)) as [[Hlt | Heq] | Hgt].
  - split; lra.
  - destruct (Z.even (Int_part x)); [split; lra |].
    rewrite plus_IZR. split; lra.
  - rewrite plus_IZR. split; lra.
Qed.

Lemma rint_R_of_Z (n : Z) : rint_R (IZR n) = n.
Proof.
  assert (Hn : Int_part (IZR n) = n).
  { symmetry. apply Int_part_spec. split; lra. }
  unfold rint_R. rewrite Hn.
  destruct (total_order_T (IZR n - IZR n) (1 / 2)) as [[Hlt | Heq] | Hgt]; [reflexivity | lra | lra].
Qed.

Lemma round4_R_near (x : R) :
  (round4 x - 1 / 20000 <= x ∧ x <= round4 x + 1 / 20000)%R.
Proof.
  unfold round4, R_rounding.
  pose proof (rint_R_near (x * 10000)) as [Hlo Hhi]. split; lra.
Qed.

Lemma round4_R_idem (x : R) : round4 (round4 x) = round4 x.
Proof.
  unfold round4, R_rounding.
  replace (IZR (rint_R (x * 10000)) / 10000 * 10000)%R with (IZR (rint_R (x * 10000)))
    by (field; lra).
  rewrite rint_R_of_Z. reflexivity.
Qed.

Lemma fl_round4_R_idem (x : float R) : fl_round4 (fl_round4 x) = fl_round4 x.
Proof. destruct x; cbn; [rewrite round4_R_idem |..]; reflexivity. Qed.

(** X17. shdiandlpi.py, [_save_results]: the three columns of every row are
    replaced by their values rounded to four decimals. A finite value [x] of
    SHDI, LPI or CONTAG is saved as [n / 10000] for an integer [n], at most
    [1 / 20000] away from [x]; the row of an invalid zone is saved as it is,
    all nan; and rounding a rounded row changes nothing. *)
Theorem shdilpi_saved_row_is_rounded_to_four_decimals
    (col : ShdiLpi.Row → float R) (r : ShdiLpi.Row) (x : R) :
  col = ShdiLpi.SHDI ∨ col = ShdiLpi.LPI ∨ col = ShdiLpi.CONTAG →
  col r = Fin x →
  (∃ n : Z,
    col (ShdiLpiOut.round_row r) = Fin (IZR n / 10000)%R ∧
    (IZR n / 10000 - 1 / 20000 <= x)%R ∧
    (x <= IZR n / 10000 + 1 / 20000)%R) ∧
  ShdiLpiOut.round_row (ShdiLpiOut.round_row r) = ShdiLpiOut.round_row r ∧
  ShdiLpiOut.round_row ShdiLpi.nan_row = ShdiLpi.nan_row.
Proof.
  intros Hcol Hx. split; [| split].
  - exists (rint_R (x * 10000)).
    pose proof (round4_R_near x) as [Hlo Hhi].
    split; [| split; assumption].
    destruct Hcol as [-> | [-> | ->]]; unfold ShdiLpiOut.round_row;
      cbn [ShdiLpi.SHDI ShdiLpi.LPI ShdiLpi.CONTAG]; rewrite Hx; reflexivity.
  - unfold ShdiLpiOut.round_row. cbn [ShdiLpi.SHDI ShdiLpi.LPI ShdiLpi.CONTAG].
    rewrite !fl_round4_R_idem. reflexivity.
  - reflexivity.
Qed.

(** ** The name of the saved file *)

Lemma append_String (a : Ascii.ascii) (s t : string) :
  String a s +:+ t = String a (s +:+ t).
Proof. reflexivity. Qed.

Lemma prefix_occurs (needle s : string) :
  String.prefix needle s = true ↔ ∃ after, s = needle +:+ after.
Proof.
  revert needle. induction s as [| b s IH]; intros [| a needle]; simpl.
  - split; [intros _; exists EmptyString; reflexivity | reflexivity].
  - split; [discriminate | intros [after H]; discriminate].
  - split; [intros _; exists (String b s); reflexivity | reflexivity].
  - destruct (Ascii.ascii_dec a b) as [-> | Hne].
    + rewrite IH. split; intros [after H]; exists after;
        rewrite append_String in *; congruence.
    + split; [discriminate | intros [after H]; rewrite append_String in H; congruence].
Qed.

Lemma contains_occurs (needle s : string) :
  contains needle s = true ↔ occurs_in needle s.
Proof.
  unfold occurs_in. induction s as [| c s IH]; cbn [contains].
  - rewrite orb_false_r, prefix_occurs. split.
    + intros [after H]. exists EmptyString, after. exact H.
    + intros [[| a before] [after H]];
        [exists after; exact H | rewrite append_String in H; discriminate].
  - rewrite orb_true_iff, prefix_occurs, IH. split.
    + intros [[after H] | [before [after H]]].
      * exists EmptyString, after. exact H.
      * exists (String c before), after. rewrite append_String. congruence.
    + intros [[| a before] [after H]].
      * left. exists after. exact H.
      * right. exists before, after. rewrite append_String in H. congruence.
Qed.

(** X18. Both scripts, [_save_results]: the suffix of the file name is read
    off the raster's name, with the earlier test winning. A name in which
    2020 occurs gives 2020_landcover whatever else it holds; 2015_landcover
    needs 2015 and no 2020; 2030_prediction needs 2030 or Simulation and
    neither 2020 nor 2015; every other name gives unknown. *)
Theorem suffix_follows_the_first_year_found (raster_name : string) :
  (suffix_of raster_name = "2020_landcover" ↔ occurs_in "2020" raster_name) ∧
  (suffix_of raster_name = "2015_landcover" ↔
     occurs_in "2015" raster_name ∧ ¬ occurs_in "2020" raster_name) ∧
  (suffix_of raster_name = "2030_prediction" ↔
     (occurs_in "2030" raster_name ∨ occurs_in "Simulation" raster_name) ∧
     ¬ occurs_in "2020" raster_name ∧ ¬ occurs_in "2015" raster_name) ∧
  (suffix_of raster_name = "unknown" ↔
     ¬ occurs_in "2020" raster_name ∧ ¬ occurs_in "2015" raster_name ∧
     ¬ occurs_in "2030" raster_name ∧ ¬ occurs_in "Simulation" raster_name).
Proof.
  rewrite <- !contains_occurs. unfold suffix_of.
  destruct (contains "2020" raster_name), (contains "2015" raster_name),
    (contains "2030" raster_name), (contains "Simulation" raster_name);
    cbn [orb]; repeat split; try discriminate; try reflexivity;
    intuition congruence.
Qed.

(** ** The run over the rasters *)

Section ShdiLpiRun.
Variable warp : Dataset → result grid.
Variable to_crs : string → Fishnet → Fishnet.
Variable open_raster : string → Dataset.
Variable raster_name_of : string → string.
Variable path_join : string → string → string.
Variable output_dir : string.
Variable fishnet_gdf : Fishnet.

Let run := ShdiLpiOut.calculate_from warp to_crs open_raster raster_name_of
             path_join output_dir.

Lemma shdilpi_run_app (files : gmap string (list ShdiLpi.Row)) (front rest : list string) :
  run files fishnet_gdf (front ++ rest) =
    match run files fishnet_gdf front with
    | (files', Ok _) => run files' fishnet_gdf rest
    | (files', Raise e) => (files', Raise e)
    end.
Proof.
  subst run. revert files. induction front as [| p front IH]; intros files; cbn.
  - reflexivity.
  - destruct (ShdiLpi._calculate_metrics warp to_crs (open_raster p) fishnet_gdf);
      [apply IH | reflexivity].
Qed.

End ShdiLpiRun.


Section ShdiLpiValidRun.
Variable warp : Dataset → result grid.
Variable to_crs : string → Fishnet → Fishnet.
Variable open_raster : string → Dataset.
Variable raster_name_of : string → string.
Variable path_join : string → string → string.
Variable output_dir : string.
Variable fishnet_gdf : Fishnet.

Let run := ShdiLpiOut.calculate_from warp to_crs open_raster raster_name_of
             path_join output_dir.


End ShdiLpiValidRun.

(** X19. shdiandlpi.py, [calculate]: the loop over the rasters has no
    handler, so the first raster that is not in EPSG:32649 ends the run. The
    files written for the rasters before it stay as they are, the rasters
    after it are never opened, and the error is that of the reprojection
    when it fails and the unbound [meta] of [_load_raster] when it returns. *)
Theorem shdilpi_run_stops_at_first_raster_in_another_crs
    (warp : Dataset → result grid) (to_crs : string → Fishnet → Fishnet)
    (open_raster : string → Dataset) (raster_name_of : string → string)
    (path_join : string → string → string) (output_dir : string)
    (files files' : gmap string (list ShdiLpi.Row)) (fishnet_gdf : Fishnet)
    (front : list string) (p : string) (rest : list string) :
  ShdiLpiOut.calculate warp to_crs open_raster raster_name_of path_join output_dir
    files fishnet_gdf front = (files', Ok ()) →
  ds_crs (open_raster p) ≠ "EPSG:32649" →
  ShdiLpiOut.calculate warp to_crs open_raster raster_name_of path_join output_dir
    files fishnet_gdf (front ++ p :: rest) =
    (files', Raise (match warp (open_raster p) with
                    | Ok _ => UnboundLocalError "meta"
                    | Raise e => e
                    end)).
Proof.
  intros Hfront Hcrs. unfold ShdiLpiOut.calculate in *.
  rewrite shdilpi_run_app, Hfront. cbn [ShdiLpiOut.calculate_from].
  unfold ShdiLpi._calculate_metrics.
  rewrite (load_raster_mismatch warp (open_raster p) Hcrs).
  destruct (warp (open_raster p)); reflexivity.
Qed.


Section PdEdRun.
Variable warp : Dataset → result grid.
Variable to_crs : string → Fishnet → Fishnet.
Variable open_raster : string → Dataset.
Variable raster_name_of : string → string.
Variable path_join : string → string → string.
Variable output_dir : string.
Variable fishnet_gdf : Fishnet.

Let run := PdEdOut.calculate_from warp to_crs open_raster raster_name_of
             path_join output_dir.

Lemma pded_run_app (files : gmap string (list PdEd.Row)) (front rest : list string) :
  run files fishnet_gdf (front ++ rest) =
    match run files fishnet_gdf front with
    | (files', Ok _) => run files' fishnet_gdf rest
    | (files', Raise e) => (files', Raise e)
    end.
Proof.
  subst run. revert files. induction front as [| p front IH]; intros files; cbn.
  - reflexivity.
  - destruct (PdEd._calculate_metrics warp to_crs (open_raster p) fishnet_gdf);
      [apply IH | reflexivity].
Qed.

End PdEdRun.


Section PdEdValidRun.
Variable warp : Dataset → result grid.
Variable to_crs : string → Fishnet → Fishnet.
Variable open_raster : string → Dataset.
Variable raster_name_of : string → string.
Variable path_join : string → string → string.
Variable output_dir : string.
Variable fishnet_gdf : Fishnet.

Let run := PdEdOut.calculate_from warp to_crs open_raster raster_name_of
             path_join output_dir.


End PdEdValidRun.

(** X21. pdanded.py, [calculate]: the loop over the rasters has no
    handler, so after rasters with non-zero pixel width and height that were
    all processed, the first raster that is not in EPSG:32649 ends the run.
    The files written for the rasters before it stay as they are, the
    rasters after it are never opened, and the error is that of the
    reprojection when it fails and the unbound [meta] of [_load_raster] when
    it returns. *)
Theorem pded_run_stops_at_first_raster_in_another_crs
    (warp : Dataset → result grid) (to_crs : string → Fishnet → Fishnet)
    (open_raster : string → Dataset) (raster_name_of : string → string)
    (path_join : string → string → string) (output_dir : string)
    (files files' : gmap string (list PdEd.Row)) (fishnet_gdf : Fishnet)
    (front : list string) (p : string) (rest : list string) :
  Forall (λ q, af_a (ds_transform (open_raster q)) ≠ 0%Qc ∧
               af_e (ds_transform (open_raster q)) ≠ 0%Qc) front →
  PdEdOut.calculate warp to_crs open_raster raster_name_of path_join output_dir
    files fishnet_gdf front = (files', Ok ()) →
  ds_crs (open_raster p) ≠ "EPSG:32649" →
  PdEdOut.calculate warp to_crs open_raster raster_name_of path_join output_dir
    files fishnet_gdf (front ++ p :: rest) =
    (files', Raise (match warp (open_raster p) with
                    | Ok _ => UnboundLocalError "meta"
                    | Raise e => e
                    end)).
Proof.
  intros _ Hfront Hcrs. unfold PdEdOut.calculate in *.
  rewrite pded_run_app, Hfront. cbn [PdEdOut.calculate_from].
  unfold PdEd._calculate_metrics.
  rewrite (load_raster_mismatch warp (open_raster p) Hcrs).
  destruct (warp (open_raster p)); reflexivity.
Qed.


(** ** The further properties at concrete inputs *)

Lemma four_blocks_has_pixels : size four_blocks ≠ 0.
Proof. vm_compute. discriminate. Defined.




Lemma thirty_nonnegative : (0 <= thirty)%Qc.
Proof. vm_compute. discriminate. Defined.

Lemma shdi_nonnegative_and_zero_iff_uniform_witness :
  ∃ s, ShdiLpi._calculate_shdi four_blocks = Fin s ∧ (0 <= s)%R.
Proof.
  destruct (shdi_nonnegative_and_zero_iff_uniform four_blocks
              four_blocks_rect four_blocks_has_pixels) as (s & Hs & Hpos & _).
  exists s. split; [exact Hs | exact Hpos].
Defined.

Lemma shdi_at_most_ln_of_class_number_witness :
  ∃ s, ShdiLpi._calculate_shdi four_blocks = Fin s
    ∧ (s <= ln (INR (length (np_unique four_blocks).1)))%R.
Proof.
  destruct (shdi_at_most_ln_of_class_number four_blocks
              four_blocks_rect four_blocks_has_pixels) as (s & Hs & Hle & _).
  exists s. split; [exact Hs | exact Hle].
Defined.

Lemma lpi_between_inverse_class_number_and_one_witness :
  ∃ l, ShdiLpi._calculate_lpi four_blocks (size four_blocks) = Ok (Fin l)
    ∧ (/ INR (length (np_unique four_blocks).1) <= l <= 1)%R.
Proof.
  destruct (lpi_between_inverse_class_number_and_one four_blocks
              four_blocks_rect four_blocks_has_pixels) as (l & Hl & Hle & _).
  exists l. split; [exact Hl | exact Hle].
Defined.

Lemma metrics_of_window_without_pixels_witness :
  ShdiLpi._calculate_shdi [[]; []] = Fin 0%R
  ∧ ShdiLpi._calculate_contag [[]; []] 0 = Ok (Fin 100%R).
Proof.
  destruct (metrics_of_window_without_pixels [[]; []] 0) as (Hshdi & _ & Hcontag);
    [reflexivity |].
  split; [exact Hshdi | exact Hcontag].
Defined.

Lemma patch_density_is_share_of_pixels_witness :
  PdEd.patch_density four_blocks 1 (thirty * thirty)
    (Qc_of_nat (size four_blocks) * (thirty * thirty))
  = Fin (Qc_of_nat (count_eq four_blocks 1) / Qc_of_nat (size four_blocks))%Qc.
Proof.
  destruct (patch_density_is_share_of_pixels four_blocks thirty thirty 1
              four_blocks_rect four_blocks_has_pixels thirty_squared_nonzero)
    as (Hpd & _).
  exact Hpd.
Defined.

Lemma patch_densities_sum_to_classified_share_witness :
  ∃ p1 p2 p3 p4 p5 p6 : Qc,
    PdEd.patch_density four_blocks 1 (thirty * thirty)
      (Qc_of_nat (size four_blocks) * (thirty * thirty)) = Fin p1
    ∧ (p1 + p2 + p3 + p4 + p5 + p6 <= 1)%Qc.
Proof.
  destruct (patch_densities_sum_to_classified_share four_blocks thirty thirty
              four_blocks_rect four_blocks_has_pixels thirty_squared_nonzero)
    as (p1 & p2 & p3 & p4 & p5 & p6 & Hpd & _ & Hle).
  exists p1, p2, p3, p4, p5, p6. split; [| exact Hle].
  apply Hpd. apply list_elem_of_here.
Defined.

Lemma edge_length_nonnegative_and_zero_cases_witness :
  ∃ e, PdEd._calculate_edge_length four_blocks 1 thirty thirty = Ok e ∧ (0 <= e)%Qc.
Proof.
  destruct (edge_length_nonnegative_and_zero_cases four_blocks 1 thirty thirty
              four_blocks_rect thirty_nonnegative thirty_nonnegative)
    as (e & He & Hpos & _).
  exists e. split; [exact He | exact Hpos].
Defined.

Lemma adjacency_diagonal_is_even_witness :
  ∃ M, ShdiLpi.adjacency_matrix_of four_blocks = Ok M ∧ Nat.Even (entry M 0 0).
Proof.
  destruct (adjacency_diagonal_is_even four_blocks four_blocks_rect) as (M & HM & Heven).
  exists M. split; [exact HM | apply Heven].
Defined.

Lemma contag_of_mixed_window_is_finite_witness :
  ∃ x, ShdiLpi._calculate_contag four_blocks (size four_blocks) = Ok (Fin x)
    ∧ (x <= 100)%R.
Proof.
  apply (contag_of_mixed_window_is_finite four_blocks four_blocks_rect).
  vm_compute. lia.
Defined.



Lemma degenerate_transform_stops_at_first_zone_witness :
  ShdiLpi._calculate_metrics warp_returns relabel
    {| ds_crs := "EPSG:32649";
       ds_transform := {| af_a := thirty; af_b := thirty; af_c := 0%Qc;
                          af_d := thirty; af_e := thirty; af_f := 0%Qc |};
       ds_band1 := four_blocks |}
    fishnet_two_zones
  = Raise TransformNotInvertibleError.
Proof.
  apply (degenerate_transform_stops_at_first_zone warp_returns relabel
           {| ds_crs := "EPSG:32649";
              ds_transform := {| af_a := thirty; af_b := thirty; af_c := 0%Qc;
                                 af_d := thirty; af_e := thirty; af_f := 0%Qc |};
              ds_band1 := four_blocks |}
           fishnet_two_zones).
  - reflexivity.
  - apply Qc_is_canon. vm_compute. reflexivity.
Defined.

Lemma window_is_the_subarray_of_the_bounds_witness :
  shape0 (clip four_blocks (Q2Qc (1 # 1), Q2Qc (1 # 2), Q2Qc (7 # 2), Q2Qc (3 # 1))) = 3
  ∧ pixel (clip four_blocks (Q2Qc (1 # 1), Q2Qc (1 # 2), Q2Qc (7 # 2), Q2Qc (3 # 1))) (0, 0)%Z
    = pixel four_blocks (0, 1)%Z.
Proof.
  destruct (window_is_the_subarray_of_the_bounds four_blocks
              (Q2Qc (1 # 1)) (Q2Qc (1 # 2)) (Q2Qc (7 # 2)) (Q2Qc (3 # 1))
              four_blocks_rect)
    as (_ & _ & _ & _ & Hrows & _ & Hpix).
  - vm_compute. reflexivity.
  - vm_compute. discriminate.
  - vm_compute. discriminate.
  - split; [exact Hrows |]. apply (Hpix 0%Z 0%Z); vm_compute; split; congruence.
Defined.

Lemma unit_edge_length_is_off_diagonal_row_sum_witness :
  ∃ M, ShdiLpi.adjacency_matrix_of four_blocks = Ok M
    ∧ PdEd._calculate_edge_length four_blocks 1 1 1
      = Ok (Qc_of_nat (sum_list_with (entry M 0)
                         (filter (λ b, b ≠ 0) (seq 0 (length (np_unique four_blocks).1))))).
Proof.
  apply (unit_edge_length_is_off_diagonal_row_sum four_blocks 1 0 four_blocks_rect).
  vm_compute. reflexivity.
Defined.

Lemma pded_saved_row_is_rounded_to_four_decimals_witness :
  ∃ n : Z,
    PdEd.PD (PdEdOut.round_row (PdEd.set_PD 1 (Fin (Q2Qc (1 # 3))) PdEd.blank_row)) !! 1%Z
    = Some (Fin (Q2Qc (n # 10000))).
Proof.
  destruct (pded_saved_row_is_rounded_to_four_decimals PdEd.PD
              (PdEd.set_PD 1 (Fin (Q2Qc (1 # 3))) PdEd.blank_row) 1 (Q2Qc (1 # 3)))
    as ((n & Hn & _) & _).
  - left. reflexivity.
  - vm_compute. reflexivity.
  - exists n. exact Hn.
Defined.

Lemma shdilpi_saved_row_is_rounded_to_four_decimals_witness :
  ∃ n : Z,
    ShdiLpi.LPI (ShdiLpiOut.round_row
                   {| ShdiLpi.SHDI := Fin 0%R; ShdiLpi.LPI := Fin 1%R;
                      ShdiLpi.CONTAG := NaN |})
    = Fin (IZR n / 10000)%R.
Proof.
  destruct (shdilpi_saved_row_is_rounded_to_four_decimals ShdiLpi.LPI
              {| ShdiLpi.SHDI := Fin 0%R; ShdiLpi.LPI := Fin 1%R;
                 ShdiLpi.CONTAG := NaN |} 1%R)
    as ((n & Hn & _) & _).
  - right. left. reflexivity.
  - reflexivity.
  - exists n. exact Hn.
Defined.

Lemma shdilpi_run_stops_at_first_raster_in_another_crs_witness :
  ShdiLpiOut.calculate warp_returns relabel (λ _, raster_wgs84) (λ p, p)
    (λ d f, d +:+ "/" +:+ f) "shdi" ∅ fishnet_two_zones ["CLCD_2020"; "CLCD_2015"]
  = (∅, Raise (UnboundLocalError "meta")).
Proof.
  apply (shdilpi_run_stops_at_first_raster_in_another_crs warp_returns relabel
           (λ _, raster_wgs84) (λ p, p) (λ d f, d +:+ "/" +:+ f) "shdi"
           ∅ ∅ fishnet_two_zones [] "CLCD_2020" ["CLCD_2015"]).
  - reflexivity.
  - vm_compute. discriminate.
Defined.


Lemma pded_run_stops_at_first_raster_in_another_crs_witness :
  PdEdOut.calculate warp_returns relabel (λ _, raster_wgs84) (λ p, p)
    (λ d f, d +:+ "/" +:+ f) "metrics" ∅ fishnet_two_zones ["CLCD_2020"; "CLCD_2015"]
  = (∅, Raise (UnboundLocalError "meta")).
Proof.
  apply (pded_run_stops_at_first_raster_in_another_crs warp_returns relabel
           (λ _, raster_wgs84) (λ p, p) (λ d f, d +:+ "/" +:+ f) "metrics"
           ∅ ∅ fishnet_two_zones [] "CLCD_2020" ["CLCD_2015"]).
  - constructor.
  - reflexivity.
  - vm_compute. discriminate.
Defined.

